(** * Gomoku: rules engine (GameModel) and search engine (AIPlayer)

    A shallow embedding of the two core classes of the game, with the
    parts of the statistics, of the view and of the controller that use
    them, and the properties of the specification that concern them.

    Conventions of the embedding.
    - JavaScript numbers that hold integers are [Z]; the scores of the
      search, which start at [-Infinity]/[Infinity], are [Score].
    - The board [this.board] is an array of arrays: [list (list Z)], read
      with [rd] (a read outside the arrays is [None]) and written in place
      with [wr].
    - A method that mutates its object returns the new object next to its
      result.  The object handed to the search is threaded through it.
    - [Date.now()] and [Math.random()] are inputs of the methods that call
      them ([now], [u1], [u2]); a draw of [Math.random()] is a rational in
      the interval [0, 1). *)

From stdpp Require Import base numbers option list strings pretty.
From Stdlib Require Import ZArith QArith Qround Lia.

#[local] Open Scope Z_scope.

(** ** Data model *)

(** [gameStatus]: the strings 'playing', 'won', 'draw'. *)
Inductive GameStatus : Type := playing | won | draw.

#[global] Instance GameStatus_eq_dec : EqDecision GameStatus.
Proof. solve_decision. Defined.

(** A [{row, col}] object. *)
Definition Cell : Type := (Z * Z)%type.

(** An entry of [moveHistory]: [{row, col, player, timestamp}]. *)
Record Move : Type := mkMove {
  mv_row : Z;
  mv_col : Z;
  mv_player : Z;
  mv_timestamp : Z
}.

(** The fields of a [GameModel] object.  [winner] and [startTime] are
    [null] ([None]) or a number. *)
Record GameModel : Type := mkGame {
  boardSize : Z;
  board : list (list Z);
  currentPlayer : Z;
  gameStatus : GameStatus;
  winner : option Z;
  winLine : list Cell;
  moveHistory : list Move;
  moveCount : Z;
  startTime : option Z
}.

(** Field assignments [this.f = v]. *)
Definition with_boardSize (g : GameModel) (v : Z) : GameModel :=
  mkGame v (board g) (currentPlayer g) (gameStatus g) (winner g) (winLine g)
         (moveHistory g) (moveCount g) (startTime g).
Definition with_board (g : GameModel) (v : list (list Z)) : GameModel :=
  mkGame (boardSize g) v (currentPlayer g) (gameStatus g) (winner g) (winLine g)
         (moveHistory g) (moveCount g) (startTime g).
Definition with_currentPlayer (g : GameModel) (v : Z) : GameModel :=
  mkGame (boardSize g) (board g) v (gameStatus g) (winner g) (winLine g)
         (moveHistory g) (moveCount g) (startTime g).
Definition with_gameStatus (g : GameModel) (v : GameStatus) : GameModel :=
  mkGame (boardSize g) (board g) (currentPlayer g) v (winner g) (winLine g)
         (moveHistory g) (moveCount g) (startTime g).
Definition with_winner (g : GameModel) (v : option Z) : GameModel :=
  mkGame (boardSize g) (board g) (currentPlayer g) (gameStatus g) v (winLine g)
         (moveHistory g) (moveCount g) (startTime g).
Definition with_winLine (g : GameModel) (v : list Cell) : GameModel :=
  mkGame (boardSize g) (board g) (currentPlayer g) (gameStatus g) (winner g) v
         (moveHistory g) (moveCount g) (startTime g).
Definition with_moveHistory (g : GameModel) (v : list Move) : GameModel :=
  mkGame (boardSize g) (board g) (currentPlayer g) (gameStatus g) (winner g)
         (winLine g) v (moveCount g) (startTime g).
Definition with_moveCount (g : GameModel) (v : Z) : GameModel :=
  mkGame (boardSize g) (board g) (currentPlayer g) (gameStatus g) (winner g)
         (winLine g) (moveHistory g) v (startTime g).
Definition with_startTime (g : GameModel) (v : option Z) : GameModel :=
  mkGame (boardSize g) (board g) (currentPlayer g) (gameStatus g) (winner g)
         (winLine g) (moveHistory g) (moveCount g) v.

(** ** Arrays *)

(** [b[r][c]].  Outside the arrays JavaScript yields [undefined] (or
    raises, when [b[r]] itself is missing); both are [None]. *)
Definition rd (b : list (list Z)) (r c : Z) : option Z :=
  if (r <? 0) || (c <? 0) then None
  else match b !! Z.to_nat r with
       | Some line => line !! Z.to_nat c
       | None => None
       end.

(** [b[r][c] = v].  The source only writes to cells it has just read inside
    the arrays; elsewhere the model leaves the grid as it is. *)
Definition wr (b : list (list Z)) (r c v : Z) : list (list Z) :=
  if (r <? 0) || (c <? 0) then b
  else alter (fun line => <[Z.to_nat c := v]> line) (Z.to_nat r) b.

(** [b[r][c] === v] where [v] may be [undefined]. *)
Definition cellIs (b : list (list Z)) (r c : Z) (v : option Z) : bool :=
  bool_decide (rd b r c = v).

(** [r >= 0 && r < n && c >= 0 && c < n]. *)
Definition inBounds (n r c : Z) : bool :=
  (0 <=? r) && (r <? n) && (0 <=? c) && (c <? n).

(** [for (let x = lo; x <= hi; x++)]: the values [x] takes. *)
Definition range (lo hi : Z) : list Z := seqZ lo (hi - lo + 1).

(** [for (row = 0; row < n; row++) for (col = 0; col < n; col++)]: the
    pairs visited, in order. *)
Definition allCells (n : Z) : list Cell :=
  r ← seqZ 0 n; c ← seqZ 0 n; [(r, c)].

(** [a.pop()] on an array: the last element and the rest. *)
Definition pop {A : Type} (l : list A) : option (A * list A) :=
  match reverse l with
  | [] => None
  | x :: r => Some (x, reverse r)
  end.

(** The four directions [[dRow, dCol]] both classes scan. *)
Definition directions : list (Z * Z) := [(0, 1); (1, 0); (1, 1); (1, -1)].

(** What [getGameState] returns and [loadGameState] reads: an object with
    the fields of the game. *)
Record GameState : Type := mkState {
  st_boardSize : Z;
  st_board : list (list Z);
  st_currentPlayer : Z;
  st_gameStatus : GameStatus;
  st_winner : option Z;
  st_winLine : list Cell;
  st_moveHistory : list Move;
  st_moveCount : Z;
  st_startTime : option Z
}.

(** [n.toString().padStart(2, '0')] for an integer [n]. *)
Definition pad2 (n : Z) : string :=
  let s := pretty n in
  if (String.length s <? 2)%nat then "0" +:+ s else s.

(** [`${minutes...}:${seconds...}`] for a number of seconds: the body shared
    by the three methods that format a time.  [Math.floor(x / 60)] is the
    quotient rounded down and [x % 60] the remainder with the sign of [x]. *)
Definition formatMinSec (seconds : Z) : string :=
  let minutes := seconds / 60 in
  let remainingSeconds := Z.rem seconds 60 in
  pad2 minutes +:+ ":" +:+ pad2 remainingSeconds.

(** ** GameModel *)

Module GameModel.

(** [initializeBoard]: [boardSize] rows of [boardSize] zeros. *)
Definition initializeBoard (g : GameModel) : GameModel :=
  with_board g (replicate (Z.to_nat (boardSize g))
                          (replicate (Z.to_nat (boardSize g)) 0)).

(** [constructor]. *)
Definition constructor : GameModel :=
  initializeBoard (mkGame 15 [] 1 playing None [] [] 0 None).

(** [setBoardSize(size)].  The method has no [return]: its result is
    [undefined] ([tt]) on both branches. *)
Definition setBoardSize (g : GameModel) (size : Z) : unit * GameModel :=
  if (size =? 15) || (size =? 19)
  then (tt, initializeBoard (with_boardSize g size))
  else (tt, g).

Definition isValidPosition (g : GameModel) (row col : Z) : bool :=
  inBounds (boardSize g) row col.

(** [getCell(row, col)]; [None] stands for a read outside the arrays. *)
Definition getCell (g : GameModel) (row col : Z) : option Z :=
  if isValidPosition g row col then rd (board g) row col else Some (-1).

Definition isValidMove (g : GameModel) (row col : Z) : bool :=
  isValidPosition g row col
  && cellIs (board g) row col (Some 0)
  && bool_decide (gameStatus g = playing).

(** The first [while] of [checkWin]: walk from [(r, c)] by
    [(dRow, dCol)] while the cell is on the board and holds [player],
    pushing to [line].  The walk leaves the board after at most
    [boardSize] steps, which is the [fuel] it is run with. *)
Fixpoint scanPos (fuel : nat) (g : GameModel) (player : option Z)
    (dRow dCol r c : Z) (line : list Cell) (count : Z) : list Cell * Z :=
  match fuel with
  | O => (line, count)
  | S fuel' =>
      if isValidPosition g r c && cellIs (board g) r c player
      then scanPos fuel' g player dRow dCol (r + dRow) (c + dCol)
                   (line ++ [(r, c)]) (count + 1)
      else (line, count)
  end.

(** The second [while]: the same walk backwards, with [unshift]. *)
Fixpoint scanNeg (fuel : nat) (g : GameModel) (player : option Z)
    (dRow dCol r c : Z) (line : list Cell) (count : Z) : list Cell * Z :=
  match fuel with
  | O => (line, count)
  | S fuel' =>
      if isValidPosition g r c && cellIs (board g) r c player
      then scanNeg fuel' g player dRow dCol (r - dRow) (c - dCol)
                   ((r, c) :: line) (count + 1)
      else (line, count)
  end.

(** The [for] over the directions of [checkWin]. *)
Fixpoint checkWin_dirs (g : GameModel) (row col : Z) (player : option Z)
    (dirs : list (Z * Z)) : bool * GameModel :=
  match dirs with
  | [] => (false, g)
  | (dRow, dCol) :: dirs' =>
      let fuel := Z.to_nat (boardSize g) in
      let '(line, count) :=
        scanPos fuel g player dRow dCol (row + dRow) (col + dCol)
                [(row, col)] 1 in
      let '(line, count) :=
        scanNeg fuel g player dRow dCol (row - dRow) (col - dCol)
                line count in
      if 5 <=? count
      then (true, with_winLine g (take 5 line))
      else checkWin_dirs g row col player dirs'
  end.

(** [checkWin(row, col)]. *)
Definition checkWin (g : GameModel) (row col : Z) : bool * GameModel :=
  let player := rd (board g) row col in
  checkWin_dirs g row col player directions.

(** [makeMove(row, col)]; [now] is the reading of [Date.now()]. *)
Definition makeMove (g : GameModel) (row col now : Z) : bool * GameModel :=
  if negb (isValidMove g row col) then (false, g)
  else
    let g := with_moveHistory g
               (moveHistory g ++ [mkMove row col (currentPlayer g) now]) in
    let g := with_board g (wr (board g) row col (currentPlayer g)) in
    let g := with_moveCount g (moveCount g + 1) in
    let g := if moveCount g =? 1 then with_startTime g (Some now) else g in
    let '(w, g) := checkWin g row col in
    if w
    then
      let g := with_gameStatus g won in
      let g := with_winner g (Some (currentPlayer g)) in
      (true, g)
    else if moveCount g =? boardSize g * boardSize g
    then (true, with_gameStatus g draw)
    else (true, with_currentPlayer g (if currentPlayer g =? 1 then 2 else 1)).

(** [undoMove()]. *)
Definition undoMove (g : GameModel) : bool * GameModel :=
  match pop (moveHistory g) with
  | None => (false, g)
  | Some (lastMove, rest) =>
      let g := with_moveHistory g rest in
      let g := with_board g (wr (board g) (mv_row lastMove) (mv_col lastMove) 0) in
      let g := with_moveCount g (moveCount g - 1) in
      let g := with_currentPlayer g (mv_player lastMove) in
      let g :=
        if negb (bool_decide (gameStatus g = playing))
        then with_winLine (with_winner (with_gameStatus g playing) None) []
        else g in
      (true, g)
  end.

(** [reset()]. *)
Definition reset (g : GameModel) : GameModel :=
  let g := initializeBoard g in
  let g := with_currentPlayer g 1 in
  let g := with_gameStatus g playing in
  let g := with_winner g None in
  let g := with_winLine g [] in
  let g := with_moveHistory g [] in
  let g := with_moveCount g 0 in
  with_startTime g None.

(** [getBoardCopy()]: a fresh array with the same content. *)
Definition getBoardCopy (g : GameModel) : list (list Z) :=
  (fun line => line) <$> board g.

(** [getEmptyCells()]. *)
Definition getEmptyCells (g : GameModel) : list Cell :=
  filter (fun rc => cellIs (board g) rc.1 rc.2 (Some 0) = true)
         (allCells (boardSize g)).

(** [relevantCells.add(`${r},${c}`)] on a [Set], which keeps insertion
    order; the key is kept as the pair it is parsed back to. *)
Definition setAdd (k : Cell) (s : list Cell) : list Cell :=
  if bool_decide (k ∈ s) then s else s ++ [k].

(** The two inner loops of [getRelevantEmptyCells]: the empty cells of
    the square [rows x cols] are added to the set. *)
Definition addEmpty (g : GameModel) (rows cols : list Z) (s : list Cell)
    : list Cell :=
  foldl (fun s r =>
           foldl (fun s c =>
                    if cellIs (board g) r c (Some 0) then setAdd (r, c) s else s)
                 s cols)
        s rows.

(** [getRelevantEmptyCells(radius)]. *)
Definition getRelevantEmptyCells (g : GameModel) (radius : Z) : list Cell :=
  let n := boardSize g in
  let relevantCells :=
    foldl (fun s rc =>
             let '(row, col) := rc in
             if negb (cellIs (board g) row col (Some 0))
             then addEmpty g
                    (range (Z.max 0 (row - radius)) (Z.min (n - 1) (row + radius)))
                    (range (Z.max 0 (col - radius)) (Z.min (n - 1) (col + radius)))
                    s
             else s)
          [] (allCells n) in
  let relevantCells :=
    if bool_decide (length relevantCells = 0%nat)
    then
      let center := n / 2 in
      foldl (fun s r =>
               foldl (fun s c =>
                        if isValidPosition g r c && cellIs (board g) r c (Some 0)
                        then setAdd (r, c) s else s)
                     s (range (center - 1) (center + 1)))
            relevantCells (range (center - 1) (center + 1))
    else relevantCells in
  relevantCells.

(** [getGameTime()]; [now] is the reading of [Date.now()].  [!startTime]
    holds for [null] and for [0]. *)
Definition getGameTime (g : GameModel) (now : Z) : Z :=
  match startTime g with
  | None => 0
  | Some t => if t =? 0 then 0 else (now - t) / 1000
  end.

(** [getFormattedGameTime()]. *)
Definition getFormattedGameTime (g : GameModel) (now : Z) : string :=
  let seconds := getGameTime g now in
  formatMinSec seconds.

(** The [while] of [findLines]: the walk of [scanPos] without the count. *)
Fixpoint findLines_scan (fuel : nat) (g : GameModel) (player : Z)
    (dRow dCol r c : Z) (line : list Cell) : list Cell :=
  match fuel with
  | O => line
  | S fuel' =>
      if isValidPosition g r c && cellIs (board g) r c (Some player)
      then findLines_scan fuel' g player dRow dCol (r + dRow) (c + dCol)
                          (line ++ [(r, c)])
      else line
  end.

(** [findLines(player, length)]. *)
Definition findLines (g : GameModel) (player : Z) (length : Z)
    : list (list Cell) :=
  foldl (fun lines rc =>
           let '(row, col) := rc in
           if cellIs (board g) row col (Some player)
           then
             foldl (fun lines d =>
                      let '(dRow, dCol) := d in
                      let line :=
                        findLines_scan (Z.to_nat (boardSize g)) g player
                          dRow dCol (row + dRow) (col + dCol) [(row, col)] in
                      if length <=? Z.of_nat (List.length line)
                      then lines ++ [line] else lines)
                   lines directions
           else lines)
        [] (allCells (boardSize g)).

(** [getGameState()]; the copies of the arrays hold what the arrays hold. *)
Definition getGameState (g : GameModel) : GameState :=
  mkState (boardSize g) (getBoardCopy g) (currentPlayer g) (gameStatus g)
          (winner g) (winLine g) (moveHistory g) (moveCount g) (startTime g).

(** [loadGameState(state)]. *)
Definition loadGameState (g : GameModel) (state : GameState) : GameModel :=
  let g := with_boardSize g (st_boardSize state) in
  let g := with_board g ((fun line => line) <$> st_board state) in
  let g := with_currentPlayer g (st_currentPlayer state) in
  let g := with_gameStatus g (st_gameStatus state) in
  let g := with_winner g (st_winner state) in
  let g := with_winLine g (st_winLine state) in
  let g := with_moveHistory g (st_moveHistory state) in
  let g := with_moveCount g (st_moveCount state) in
  with_startTime g (st_startTime state).

End GameModel.

(** ** Scores *)

(** The numbers the search compares: integers, [-Infinity], [Infinity]. *)
Inductive Score : Type := NegInf | Fin (z : Z) | PosInf.

(** [a < b]. *)
Definition score_ltb (a b : Score) : bool :=
  match a, b with
  | NegInf, NegInf => false
  | NegInf, _ => true
  | Fin _, NegInf => false
  | Fin x, Fin y => x <? y
  | Fin _, PosInf => true
  | PosInf, _ => false
  end.

(** [a <= b]. *)
Definition score_leb (a b : Score) : bool := negb (score_ltb b a).

(** [Math.max(a, b)] and [Math.min(a, b)]. *)
Definition score_max (a b : Score) : Score := if score_ltb a b then b else a.
Definition score_min (a b : Score) : Score := if score_ltb b a then b else a.

(** [a[i]] for an array [a] and a number [i]: [undefined] off the array. *)
Definition nthJs {A : Type} (a : list A) (i : Z) : option A :=
  if i <? 0 then None else a !! Z.to_nat i.

(** [Math.floor(u * k)] for a draw [u] of [Math.random()]. *)
Definition floorMul (u : Q) (k : Z) : Z := Qfloor (u * inject_Z k).

(** ** AIPlayer *)

Inductive Difficulty : Type := easy | medium | hard.

Record Settings : Type := mkSettings { depth : nat; randomness : Q }.

(** The fields of an [AIPlayer] object.  [settings] is a constant table and
    [currentSettings] is [settings[difficulty]] wherever it is assigned. *)
Record AIPlayer : Type := mkAI {
  difficulty : Difficulty;
  player : Z;
  opponent : Z
}.

(** What [analyzePosition] returns. *)
Record Analysis : Type := mkAnalysis {
  an_score : Z;
  an_evaluation : string;
  an_immediateWin : bool;
  an_needsDefense : bool;
  an_recommendation : option Cell
}.

(** What [minimax] returns: [{score, move}]. *)
Record Result : Type := mkResult { score : Score; move : option Cell }.

Module AIPlayer.

Definition settings (d : Difficulty) : Settings :=
  match d with
  | easy => mkSettings 2 (3 # 10)
  | medium => mkSettings 3 (1 # 10)
  | hard => mkSettings 4 (5 # 100)
  end.

Definition currentSettings (ai : AIPlayer) : Settings :=
  settings (difficulty ai).

Definition constructor (d : Difficulty) : AIPlayer := mkAI d 2 1.

Definition setDifficulty (ai : AIPlayer) (d : Difficulty) : AIPlayer :=
  mkAI d (player ai) (opponent ai).

(** The two [while] loops of [checkWin], which only count. *)
Fixpoint countPos (fuel : nat) (board : list (list Z)) (boardSize : Z)
    (player dRow dCol r c count : Z) : Z :=
  match fuel with
  | O => count
  | S fuel' =>
      if inBounds boardSize r c && cellIs board r c (Some player)
      then countPos fuel' board boardSize player dRow dCol
                    (r + dRow) (c + dCol) (count + 1)
      else count
  end.

Fixpoint countNeg (fuel : nat) (board : list (list Z)) (boardSize : Z)
    (player dRow dCol r c count : Z) : Z :=
  match fuel with
  | O => count
  | S fuel' =>
      if inBounds boardSize r c && cellIs board r c (Some player)
      then countNeg fuel' board boardSize player dRow dCol
                    (r - dRow) (c - dCol) (count + 1)
      else count
  end.

Fixpoint checkWin_dirs (board : list (list Z)) (boardSize row col player : Z)
    (dirs : list (Z * Z)) : bool :=
  match dirs with
  | [] => false
  | (dRow, dCol) :: dirs' =>
      let fuel := Z.to_nat boardSize in
      let count :=
        countPos fuel board boardSize player dRow dCol
                 (row + dRow) (col + dCol) 1 in
      let count :=
        countNeg fuel board boardSize player dRow dCol
                 (row - dRow) (col - dCol) count in
      if 5 <=? count then true
      else checkWin_dirs board boardSize row col player dirs'
  end.

(** [checkWin(board, boardSize, row, col, player)]. *)
Definition checkWin (board : list (list Z)) (boardSize row col player : Z)
    : bool :=
  checkWin_dirs board boardSize row col player directions.

(** The loops of [findWinningMove] over the cells still to visit.  The
    array it is given is written and restored in place, so it is returned
    next to the result. *)
Fixpoint findWinningMove_loop (board : list (list Z))
    (boardSize player : Z) (cells : list Cell)
    : option Cell * list (list Z) :=
  match cells with
  | [] => (None, board)
  | (row, col) :: cells' =>
      if cellIs board row col (Some 0)
      then
        let board := wr board row col player in
        if checkWin board boardSize row col player
        then
          let board := wr board row col 0 in
          (Some (row, col), board)
        else
          let board := wr board row col 0 in
          findWinningMove_loop board boardSize player cells'
      else findWinningMove_loop board boardSize player cells'
  end.

(** [findWinningMove(board, boardSize, player)]. *)
Definition findWinningMove (board : list (list Z)) (boardSize player : Z)
    : option Cell * list (list Z) :=
  findWinningMove_loop board boardSize player (allCells boardSize).

(** One turn of the [for] of [evaluateLine] on [(count, blocks, empty)]. *)
Definition evaluateLine_step (board : list (list Z))
    (boardSize row col dRow dCol player : Z) (st : Z * Z * Z) (i : Z)
    : Z * Z * Z :=
  let '(count, blocks, empty) := st in
  let r := row + i * dRow in
  let c := col + i * dCol in
  if (r <? 0) || (boardSize <=? r) || (c <? 0) || (boardSize <=? c)
  then (count, blocks + 1, empty)
  else if cellIs board r c (Some player) then (count + 1, blocks, empty)
  else if cellIs board r c (Some 0) then (count, blocks, empty + 1)
  else (count, blocks + 1, empty).

(** [evaluateLine(board, boardSize, row, col, dRow, dCol, player)]. *)
Definition evaluateLine (board : list (list Z))
    (boardSize row col dRow dCol player : Z) : Z :=
  let '(count, blocks, empty) :=
    foldl (evaluateLine_step board boardSize row col dRow dCol player)
          (0, 0, 0) (seqZ 0 5) in
  if 2 <=? blocks then 0
  else match count with
       | 5 => 10000
       | 4 => if blocks =? 0 then 5000 else 1000
       | 3 => if blocks =? 0 then 500 else 100
       | 2 => if blocks =? 0 then 50 else 10
       | 1 => if blocks =? 0 then 5 else 1
       | _ => 0
       end.

(** [evaluateAllLines(board, boardSize, player)]. *)
Definition evaluateAllLines (board : list (list Z)) (boardSize player : Z)
    : Z :=
  foldl (fun totalScore rc =>
           foldl (fun totalScore d =>
                    totalScore
                    + evaluateLine board boardSize rc.1 rc.2 d.1 d.2 player)
                 totalScore directions)
        0 (allCells boardSize).

(** [evaluatePosition(gameModel)]. *)
Definition evaluatePosition (ai : AIPlayer) (g : GameModel) : Z :=
  if bool_decide (gameStatus g = won)
  then if bool_decide (winner g = Some (player ai)) then 10000 else -10000
  else if bool_decide (gameStatus g = draw) then 0
  else
    let score := 0 in
    let score := score + evaluateAllLines (board g) (boardSize g) (player ai) in
    let score := score - evaluateAllLines (board g) (boardSize g) (opponent ai) in
    score.

(** The [for] of the maximizing branch of [minimax].  [rec] is the
    recursive call [this.minimax(gameModel, depth - 1, false, ...)]; the
    game object goes through every step. *)
Fixpoint maxLoop (rec : GameModel -> bool -> Score -> Score -> Result * GameModel)
    (ai : AIPlayer) (now : Z) (moves : list Cell) (g : GameModel)
    (alpha beta maxScore : Score) (bestMove : option Cell)
    : Result * GameModel :=
  match moves with
  | [] => (mkResult maxScore bestMove, g)
  | (row, col) :: moves' =>
      let originalPlayer := currentPlayer g in
      let g := with_currentPlayer g (player ai) in
      let g := (GameModel.makeMove g row col now).2 in
      let '(result, g) := rec g false alpha beta in
      let g := (GameModel.undoMove g).2 in
      let g := with_currentPlayer g originalPlayer in
      let '(maxScore, bestMove) :=
        if score_ltb maxScore (score result)
        then (score result, Some (row, col))
        else (maxScore, bestMove) in
      let alpha := score_max alpha (score result) in
      if score_leb beta alpha
      then (mkResult maxScore bestMove, g)
      else maxLoop rec ai now moves' g alpha beta maxScore bestMove
  end.

(** The [for] of the minimizing branch. *)
Fixpoint minLoop (rec : GameModel -> bool -> Score -> Score -> Result * GameModel)
    (ai : AIPlayer) (now : Z) (moves : list Cell) (g : GameModel)
    (alpha beta minScore : Score) (bestMove : option Cell)
    : Result * GameModel :=
  match moves with
  | [] => (mkResult minScore bestMove, g)
  | (row, col) :: moves' =>
      let originalPlayer := currentPlayer g in
      let g := with_currentPlayer g (opponent ai) in
      let g := (GameModel.makeMove g row col now).2 in
      let '(result, g) := rec g true alpha beta in
      let g := (GameModel.undoMove g).2 in
      let g := with_currentPlayer g originalPlayer in
      let '(minScore, bestMove) :=
        if score_ltb (score result) minScore
        then (score result, Some (row, col))
        else (minScore, bestMove) in
      let beta := score_min beta (score result) in
      if score_leb beta alpha
      then (mkResult minScore bestMove, g)
      else minLoop rec ai now moves' g alpha beta minScore bestMove
  end.

(** [minimax(gameModel, depth, maximizing, alpha, beta)], by recursion on
    [depth]. *)
Fixpoint minimax (ai : AIPlayer) (now : Z) (depth : nat) (g : GameModel)
    (maximizing : bool) (alpha beta : Score) : Result * GameModel :=
  match depth with
  | O => (mkResult (Fin (evaluatePosition ai g)) None, g)
  | S depth' =>
      if negb (bool_decide (gameStatus g = playing))
      then (mkResult (Fin (evaluatePosition ai g)) None, g)
      else
        let relevantMoves := GameModel.getRelevantEmptyCells g 2 in
        if maximizing
        then maxLoop (minimax ai now depth') ai now relevantMoves g
                     alpha beta NegInf None
        else minLoop (minimax ai now depth') ai now relevantMoves g
                     alpha beta PosInf None
  end.

(** [addRandomness(bestMove, alternativeMoves)]; [u1] and [u2] are the
    two draws of [Math.random()]. *)
Definition addRandomness (ai : AIPlayer) (bestMove : Cell)
    (alternativeMoves : list Cell) (u1 u2 : Q) : option Cell :=
  if negb (Qle_bool (randomness (currentSettings ai)) u1)
     && (1 <? Z.of_nat (length alternativeMoves))
  then
    let randomIndex :=
      floorMul u2 (Z.min 3 (Z.of_nat (length alternativeMoves))) in
    nthJs alternativeMoves randomIndex
  else Some bestMove.

(** [getRandomCenterMove(gameModel)]; [u] is the draw of
    [Math.random()]. *)
Definition getRandomCenterMove (g : GameModel) (u : Q) : option Cell :=
  let center := boardSize g / 2 in
  let radius := 3 in
  let span :=
    range (Z.max 0 (center - radius)) (Z.min (boardSize g - 1) (center + radius)) in
  let moves :=
    filter (fun rc => GameModel.getCell g rc.1 rc.2 = Some 0)
           (row ← span; col ← span; [(row, col)]) in
  let emptyCells := GameModel.getEmptyCells g in
  if bool_decide (length moves = 0%nat)
     && (0 <? Z.of_nat (length emptyCells))
  then nthJs emptyCells (floorMul u (Z.of_nat (length emptyCells)))
  else nthJs moves (floorMul u (Z.of_nat (length moves))).

(** [getBestMove(gameModel)].  [None] is a [null] or [undefined] result.
    [u1], [u2] are the first and second draws of [Math.random()] made
    during the call. *)
Definition getBestMove (ai : AIPlayer) (g : GameModel) (now : Z) (u1 u2 : Q)
    : option Cell * GameModel :=
  let board := GameModel.getBoardCopy g in
  let boardSize := boardSize g in
  let '(winMove, board) := findWinningMove board boardSize (player ai) in
  match winMove with
  | Some winMove => (addRandomness ai winMove [winMove] u1 u2, g)
  | None =>
      let '(blockMove, board) := findWinningMove board boardSize (opponent ai) in
      match blockMove with
      | Some blockMove => (addRandomness ai blockMove [blockMove] u1 u2, g)
      | None =>
          let '(result, g) :=
            minimax ai now (depth (currentSettings ai)) g true NegInf PosInf in
          match move result with
          | Some bestMove =>
              let relevantMoves := GameModel.getRelevantEmptyCells g 2 in
              (addRandomness ai bestMove relevantMoves u1 u2, g)
          | None => (getRandomCenterMove g u1, g)
          end
      end
  end.

(** [getHint(gameModel)]: the two sides are swapped for the call of
    [getBestMove] and put back. *)
Definition getHint (ai : AIPlayer) (g : GameModel) (now : Z) (u1 u2 : Q)
    : option Cell * AIPlayer * GameModel :=
  let originalPlayer := player ai in
  let originalOpponent := opponent ai in
  let ai := mkAI (difficulty ai) (currentPlayer g) (opponent ai) in
  let ai := mkAI (difficulty ai) (player ai)
                 (if currentPlayer g =? 1 then 2 else 1) in
  let '(hint, g) := getBestMove ai g now u1 u2 in
  let ai := mkAI (difficulty ai) originalPlayer (opponent ai) in
  let ai := mkAI (difficulty ai) (player ai) originalOpponent in
  (hint, ai, g).

(** [analyzePosition(gameModel)].  [findWinningMove] works on the array of
    the game itself; [getBestMove] is called only when neither scan found
    a cell. *)
Definition analyzePosition (ai : AIPlayer) (g : GameModel) (now : Z)
    (u1 u2 : Q) : Analysis * GameModel :=
  let score := evaluatePosition ai g in
  let '(threat, b) :=
    findWinningMove (board g) (boardSize g) (currentPlayer g) in
  let g := with_board g b in
  let '(counterThreat, b) :=
    findWinningMove (board g) (boardSize g)
                    (if currentPlayer g =? 1 then 2 else 1) in
  let g := with_board g b in
  let evaluation :=
    if 100 <? score then "advantage"
    else if score <? -100 then "disadvantage"
    else "equal" in
  let immediateWin := bool_decide (threat <> None) in
  let needsDefense := bool_decide (counterThreat <> None) in
  match threat with
  | Some cell =>
      (mkAnalysis score evaluation immediateWin needsDefense (Some cell), g)
  | None =>
      match counterThreat with
      | Some cell =>
          (mkAnalysis score evaluation immediateWin needsDefense (Some cell), g)
      | None =>
          let '(best, g) := getBestMove ai g now u1 u2 in
          (mkAnalysis score evaluation immediateWin needsDefense best, g)
      end
  end.

(** [explainMove(move, gameModel)]. *)
Definition explainMove (ai : AIPlayer) (move : option Cell) (g : GameModel)
    : string :=
  match move with
  | None => "Нет доступных ходов"
  | Some (row, col) =>
      let board := GameModel.getBoardCopy g in
      let board := wr board row col (player ai) in
      if checkWin board (boardSize g) row col (player ai)
      then "Выигрышный ход!"
      else
        let board := wr board row col (opponent ai) in
        if checkWin board (boardSize g) row col (opponent ai)
        then "Блокировка угрозы противника"
        else
          let board := wr board row col (player ai) in
          let score :=
            evaluateLine board (boardSize g) row col 0 1 (player ai)
            + evaluateLine board (boardSize g) row col 1 0 (player ai)
            + evaluateLine board (boardSize g) row col 1 1 (player ai)
            + evaluateLine board (boardSize g) row col 1 (-1) (player ai) in
          if 1000 <? score then "Создание сильной угрозы"
          else if 100 <? score then "Развитие атаки"
          else if 10 <? score then "Улучшение позиции"
          else "Стратегический ход"
  end.

End AIPlayer.

(** ** ConfigManager: the statistics *)

(** [this.stats]. *)
Record Stats : Type := mkStats {
  player1Wins : Z;
  player2Wins : Z;
  draws : Z;
  totalGames : Z;
  playTime : Z
}.

Module ConfigManager.

Definition defaultStats : Stats := mkStats 0 0 0 0 0.

(** [updateStatistics(result, gameTime)], as it changes [this.stats]; the
    copy it then writes to [localStorage] is not part of the model. *)
Definition updateStatistics (stats : Stats) (result : string) (gameTime : Z)
    : Stats :=
  let stats := mkStats (player1Wins stats) (player2Wins stats) (draws stats)
                       (totalGames stats + 1) (playTime stats) in
  let stats := mkStats (player1Wins stats) (player2Wins stats) (draws stats)
                       (totalGames stats) (playTime stats + gameTime) in
  if String.eqb result "player1"
  then mkStats (player1Wins stats + 1) (player2Wins stats) (draws stats)
               (totalGames stats) (playTime stats)
  else if String.eqb result "player2"
  then mkStats (player1Wins stats) (player2Wins stats + 1) (draws stats)
               (totalGames stats) (playTime stats)
  else if String.eqb result "draw"
  then mkStats (player1Wins stats) (player2Wins stats) (draws stats + 1)
               (totalGames stats) (playTime stats)
  else stats.

(** [resetStatistics()]. *)
Definition resetStatistics (stats : Stats) : Stats := defaultStats.

(** [getAverageGameTime()]. *)
Definition getAverageGameTime (stats : Stats) : string :=
  if totalGames stats =? 0 then "00:00"
  else
    let averageSeconds := playTime stats / totalGames stats in
    formatMinSec averageSeconds.

End ConfigManager.

(** ** GameView: the time shown *)

Module GameView.

(** [formatTime(seconds)]. *)
Definition formatTime (seconds : Z) : string := formatMinSec seconds.

End GameView.

(** ** GameController: what goes to the view and to the statistics *)

Module GameController.

(** [makeMove(row, col)], as far as the stone it draws: the answer, the
    arguments of the call of [gameView.placeStone] when there is one, and
    the game.  What follows in the method draws no stone. *)
Definition makeMove (g : GameModel) (row col now : Z)
    : bool * option (Z * Z * Z) * GameModel :=
  let '(ok, g) := GameModel.makeMove g row col now in
  if negb ok then (false, None, g)
  else (true, Some (row, col, if currentPlayer g =? 1 then 2 else 1), g).

(** The [result] that [handleGameEnd()] computes; it is the same in the
    two game modes. *)
Definition gameResult (g : GameModel) : string :=
  if bool_decide (gameStatus g = won)
  then if bool_decide (winner g = Some 1) then "player1" else "player2"
  else "draw".

(** [handleGameEnd()], as it changes the statistics. *)
Definition handleGameEnd (stats : Stats) (g : GameModel) (now : Z) : Stats :=
  ConfigManager.updateStatistics stats (gameResult g)
                                 (GameModel.getGameTime g now).

End GameController.

(** * Vocabulary of the properties *)

(** ** States *)

(** [b] is an [n] by [n] grid. *)
Definition grid (n : Z) (b : list (list Z)) : Prop :=
  length b = Z.to_nat n /\ Forall (fun line => length line = Z.to_nat n) b.

(** The states of a game: a new object, configured with [setBoardSize],
    then any sequence of legal moves. *)
Inductive reachable : GameModel -> Prop :=
| reach_fresh (size : Z) :
    reachable (GameModel.setBoardSize GameModel.constructor size).2
| reach_move (g : GameModel) (row col now : Z) :
    reachable g ->
    GameModel.isValidMove g row col = true ->
    reachable (GameModel.makeMove g row col now).2.

(** What every method keeps true: the grid has the size the object
    records, and a game in progress has no winner and no winning line. *)
Definition consistent (g : GameModel) : Prop :=
  grid (boardSize g) (board g)
  /\ (gameStatus g = playing -> winner g = None /\ winLine g = []).

(** A board of the data model: a square grid of the recorded size whose
    cells hold 0 (empty), 1 (black) or 2 (white). *)
Definition boardState (g : GameModel) : Prop :=
  grid (boardSize g) (board g)
  /\ forall r c v, rd (board g) r c = Some v -> v = 0 \/ v = 1 \/ v = 2.

(** [g'] has the fields of [g], except maybe for [startTime]. *)
Definition sameGame (g g' : GameModel) : Prop :=
  boardSize g' = boardSize g
  /\ board g' = board g
  /\ currentPlayer g' = currentPlayer g
  /\ gameStatus g' = gameStatus g
  /\ winner g' = winner g
  /\ winLine g' = winLine g
  /\ moveHistory g' = moveHistory g
  /\ moveCount g' = moveCount g.

(** The state [makeMove] hands to [checkWin]. *)
Definition placed (g : GameModel) (row col now : Z) : GameModel :=
  let g := with_moveHistory g
             (moveHistory g ++ [mkMove row col (currentPlayer g) now]) in
  let g := with_board g (wr (board g) row col (currentPlayer g)) in
  let g := with_moveCount g (moveCount g + 1) in
  if moveCount g =? 1 then with_startTime g (Some now) else g.

(** A cell a move may be made on: on the board and empty. *)
Definition freeCell (g : GameModel) (cell : Cell) : Prop :=
  inBounds (boardSize g) cell.1 cell.2 = true
  /\ rd (board g) cell.1 cell.2 = Some 0.

(** A search procedure that hands every consistent game back as it got
    it, [startTime] apart. *)
Definition restores
    (rec : GameModel -> bool -> Score -> Score -> Result * GameModel) : Prop :=
  forall g maximizing alpha beta,
    consistent g -> sameGame g (rec g maximizing alpha beta).2.

(** ** Runs of stones *)

(** The test of the scanning loops: the cell is on the board and holds
    [p]. *)
Definition onRun (b : list (list Z)) (n : Z) (p : option Z) (r c : Z) : bool :=
  inBounds n r c && cellIs b r c p.

(** How many turns a scanning loop makes from [(r, c)] with step
    [(sr, sc)], given [fuel] turns at most. *)
Fixpoint runLen (fuel : nat) (b : list (list Z)) (n : Z) (p : option Z)
    (sr sc r c : Z) : nat :=
  match fuel with
  | O => O
  | S fuel' =>
      if onRun b n p r c
      then S (runLen fuel' b n p sr sc (r + sr) (c + sc))
      else O
  end.

(** [k] cells from [(r, c)] with step [(sr, sc)]. *)
Definition cellsFrom (r c sr sc : Z) (k : nat) : list Cell :=
  (fun i : nat => (r + Z.of_nat i * sr, c + Z.of_nat i * sc)) <$> seq 0 k.

(** The stones of [p] that lie in a row from [(r, c)] on, step
    [(sr, sc)], are exactly [k]: the first [k] cells are on the board and
    hold [p], the next one is not. *)
Definition isRun (b : list (list Z)) (n : Z) (p : option Z)
    (r c sr sc : Z) (k : nat) : Prop :=
  (forall i : nat, (i < k)%nat ->
     onRun b n p (r + Z.of_nat i * sr) (c + Z.of_nat i * sc) = true)
  /\ onRun b n p (r + Z.of_nat k * sr) (c + Z.of_nat k * sc) = false.

(** A step to a neighbouring cell. *)
Definition unitDir (sr sc : Z) : Prop :=
  -1 <= sr <= 1 /\ -1 <= sc <= 1 /\ (sr <> 0 \/ sc <> 0).

(** The steps left before a walk from [(r, c)] leaves the board. *)
Definition stepsLeft (n sr sc r c : Z) : Z :=
  if sr =? 1 then n - r
  else if sr =? -1 then r + 1
  else if sc =? 1 then n - c
  else c + 1.

(** Through [(row, col)], in direction [(dRow, dCol)], the stones of [p]
    in a row are [back] behind the cell and [fwd] ahead of it. *)
Definition runThrough (b : list (list Z)) (n : Z) (p : option Z)
    (row col dRow dCol : Z) (back fwd : nat) : Prop :=
  isRun b n p (row - dRow) (col - dCol) (- dRow) (- dCol) back
  /\ isRun b n p (row + dRow) (col + dCol) dRow dCol fwd.

(** The cell [(row, col)] lies on a run of five or more of [p] in one of
    the four directions. *)
Definition completesFive (b : list (list Z)) (n : Z) (p : option Z)
    (row col : Z) : Prop :=
  exists dRow dCol back fwd,
    (dRow, dCol) ∈ directions
    /\ runThrough b n p row col dRow dCol back fwd
    /\ (5 <= back + 1 + fwd)%nat.

(** The last move recorded lies on a run of five or more of its player. *)
Definition lastMoveWins (g : GameModel) : Prop :=
  exists m,
    last (moveHistory g) = Some m
    /\ completesFive (board g) (boardSize g) (Some (mv_player m))
                     (mv_row m) (mv_col m).

(** The board holds four stones of [p] in a row in one of the four
    directions, with an empty cell of the board at each end. *)
Definition openFour (b : list (list Z)) (n p : Z) : Prop :=
  exists r c dRow dCol,
    (dRow, dCol) ∈ directions
    /\ (forall i : nat, (i < 4)%nat ->
          onRun b n (Some p) (r + Z.of_nat i * dRow) (c + Z.of_nat i * dCol)
          = true)
    /\ onRun b n (Some 0) (r - dRow) (c - dCol) = true
    /\ onRun b n (Some 0) (r + 4 * dRow) (c + 4 * dCol) = true.

(** Five cells in a row in one of the four directions, [(row, col)] among
    them, are on the board and hold [p]. *)
Definition fiveInRow (b : list (list Z)) (n p row col : Z) : Prop :=
  exists dRow dCol (k : nat),
    (dRow, dCol) ∈ directions
    /\ (k < 5)%nat
    /\ forall i : nat, (i < 5)%nat ->
         onRun b n (Some p) (row + (Z.of_nat i - Z.of_nat k) * dRow)
                            (col + (Z.of_nat i - Z.of_nat k) * dCol) = true.

(** ** Windows *)

(** The five cells of the window that starts at [(row, col)] and runs in
    direction [(dRow, dCol)], by their index. *)
Definition windowCell (row col dRow dCol i : Z) : Cell :=
  (row + i * dRow, col + i * dCol).

(** The cell of index [i] holds a stone of [player]. *)
Definition ownCell (b : list (list Z)) (n row col dRow dCol player i : Z)
    : bool :=
  let '(r, c) := windowCell row col dRow dCol i in
  inBounds n r c && cellIs b r c (Some player).

(** The cell of index [i] is blocked: off the board, or on it and neither
    the player's nor empty. *)
Definition blockedCell (b : list (list Z)) (n row col dRow dCol player i : Z)
    : bool :=
  let '(r, c) := windowCell row col dRow dCol i in
  negb (inBounds n r c)
  || negb (cellIs b r c (Some player) || cellIs b r c (Some 0)).

(** How many of the indices [0..4] satisfy [f]. *)
Definition countWindow (f : Z -> bool) : Z :=
  Z.of_nat (length (filter (fun i => f i = true) (seqZ 0 5))).

(** The table of the specification: the score by the number of own stones
    and the number of blocked cells. *)
Definition lineTable (count blocks : Z) : Z :=
  if count =? 5 then 10000
  else if count =? 4 then (if blocks =? 0 then 5000 else 1000)
  else if count =? 3 then (if blocks =? 0 then 500 else 100)
  else if count =? 2 then (if blocks =? 0 then 50 else 10)
  else if count =? 1 then (if blocks =? 0 then 5 else 1)
  else 0.

(** ** Games used as examples *)

(** A new game on the 15 by 15 board. *)
Definition newGame : GameModel :=
  (GameModel.setBoardSize GameModel.constructor 15).2.

(** [makeMove] on each cell of [moves] in turn, all at time 0. *)
Definition play (g : GameModel) (moves : list Cell) : GameModel :=
  foldl (fun g rc => (GameModel.makeMove g rc.1 rc.2 0).2) g moves.

(** Every move of [moves] is legal when its turn comes. *)
Fixpoint legalSeq (g : GameModel) (moves : list Cell) : bool :=
  match moves with
  | [] => true
  | rc :: moves' =>
      GameModel.isValidMove g rc.1 rc.2
      && legalSeq (GameModel.makeMove g rc.1 rc.2 0).2 moves'
  end.

(** Black plays down column 7 from row 7, white down column 8. *)
Definition columnMoves : list Cell :=
  [(7, 7); (7, 8); (8, 7); (8, 8); (9, 7); (9, 8); (10, 7); (10, 8); (11, 7)].

(** The game after black's fourth stone, and after its fifth. *)
Definition fourGame : GameModel := play newGame (take 7 columnMoves).
Definition wonGame : GameModel := play newGame columnMoves.

(** A board with four white stones in row 7, columns 5 to 8, and both
    ends free. *)
Definition whiteFourGame : GameModel :=
  with_board newGame
    (wr (wr (wr (wr (board newGame) 7 5 2) 7 6 2) 7 7 2) 7 8 2).

(** A board with three white stones in row 7, columns 5 to 7, and three in
    row 0, columns 11 to 13, next to the edge. *)
Definition threeBoard : list (list Z) :=
  wr (wr (wr (wr (wr (wr (board newGame) 7 5 2) 7 6 2) 7 7 2) 0 11 2) 0 12 2)
     0 13 2.

(** ** Histories *)

(** The cells of the moves recorded, in order. *)
Definition positions (g : GameModel) : list Cell :=
  (fun m => (mv_row m, mv_col m)) <$> moveHistory g.

(** Who makes the move of index [i]: black the even ones, white the odd
    ones. *)
Definition playerAt (i : nat) : Z := if Nat.even i then 1 else 2.

(** [undoMove] called [k] times: whether every call answered [true], and
    the game after the last call. *)
Fixpoint undoN (k : nat) (g : GameModel) : bool * GameModel :=
  match k with
  | O => (true, g)
  | S k' =>
      let '(ok, g) := GameModel.undoMove g in
      let '(oks, g) := undoN k' g in
      (ok && oks, g)
  end.

(** The board is the replay of the history: the move count is its length,
    its moves alternate from black, their cells are distinct cells of the
    board that hold the mover's stone, and every other cell is empty. *)
Definition replayed (g : GameModel) : Prop :=
  moveCount g = Z.of_nat (length (moveHistory g))
  /\ NoDup (positions g)
  /\ (forall (i : nat) m, moveHistory g !! i = Some m ->
        mv_player m = playerAt i
        /\ inBounds (boardSize g) (mv_row m) (mv_col m) = true
        /\ rd (board g) (mv_row m) (mv_col m) = Some (mv_player m))
  /\ (forall r c, inBounds (boardSize g) r c = true ->
        (rd (board g) r c = Some 0 <-> (r, c) ∉ positions g)).

(** The player to move, by the length of the history: the next mover
    while the game goes on, the last mover once it is over. *)
Definition turnOf (g : GameModel) : Z :=
  if bool_decide (gameStatus g = playing)
  then playerAt (length (moveHistory g))
  else playerAt (length (moveHistory g) - 1).


(** ** Fives *)

(** The five cells from [(r, c)] on in direction [(dRow, dCol)] are on the
    board and hold [p]. *)
Definition fiveAt (b : list (list Z)) (n p r c dRow dCol : Z) : Prop :=
  forall i : nat, (i < 5)%nat ->
    onRun b n (Some p) (r + Z.of_nat i * dRow) (c + Z.of_nat i * dCol) = true.

(** Somewhere on the board five stones of [p] lie in a row, in one of the
    four directions. *)
Definition hasFive (b : list (list Z)) (n p : Z) : Prop :=
  exists r c dRow dCol, (dRow, dCol) ∈ directions /\ fiveAt b n p r c dRow dCol.

(** ** Times *)

(** The character of the decimal digit [d]. *)
Definition digit (d : Z) : Ascii.ascii :=
  Ascii.ascii_of_nat (48 + Z.to_nat d).

(** [n] written with two decimal digits. *)
Definition twoDigits (n : Z) : string :=
  String (digit (n / 10)) (String (digit (n mod 10)) EmptyString).

(** ** Counting *)

(** The empty cells and the moves made add up to the cells of the board,
    and a game in progress has not used them all. *)
Definition counted (g : GameModel) : Prop :=
  Z.of_nat (length (GameModel.getEmptyCells g)) + moveCount g
  = boardSize g * boardSize g
  /\ (gameStatus g = playing -> moveCount g <> boardSize g * boardSize g).

(** ** Candidate moves *)

(** [cell] is on the board, at most [radius] rows and [radius] columns away
    from a cell of the board that is not empty. *)
Definition nearStone (g : GameModel) (radius : Z) (cell : Cell) : Prop :=
  exists row col,
    inBounds (boardSize g) row col = true
    /\ rd (board g) row col <> Some 0
    /\ inBounds (boardSize g) cell.1 cell.2 = true
    /\ Z.abs (cell.1 - row) <= radius
    /\ Z.abs (cell.2 - col) <= radius.

(** [cell] is on the board, in the three by three square around the middle
    of the board. *)
Definition nearCenter (g : GameModel) (cell : Cell) : Prop :=
  inBounds (boardSize g) cell.1 cell.2 = true
  /\ Z.abs (cell.1 - boardSize g / 2) <= 1
  /\ Z.abs (cell.2 - boardSize g / 2) <= 1.

(** The first loop of [getRelevantEmptyCells]. *)
Definition nearCells (g : GameModel) (radius : Z) : list Cell :=
  foldl (fun s rc =>
           let '(row, col) := rc in
           if negb (cellIs (board g) row col (Some 0))
           then GameModel.addEmpty g
                  (range (Z.max 0 (row - radius))
                         (Z.min (boardSize g - 1) (row + radius)))
                  (range (Z.max 0 (col - radius))
                         (Z.min (boardSize g - 1) (col + radius)))
                  s
           else s)
        [] (allCells (boardSize g)).

(** What the search keeps true of the games it goes through. *)
Definition searchable (g : GameModel) : Prop := consistent g /\ counted g.

(** A search procedure that hands every game back and gives every
    searchable game a finite score. *)
Definition scores
    (rec : GameModel -> bool -> Score -> Score -> Result * GameModel) : Prop :=
  restores rec
  /\ forall g maximizing alpha beta,
       searchable g -> exists s, score (rec g maximizing alpha beta).1 = Fin s.

(** The best score and move of a loop of the search after a first trial,
    or before it. *)
Definition hasMove (best : Score) (bestMove : option Cell) : Prop :=
  (exists s, best = Fin s) /\ is_Some bestMove.

(** ** Hints *)

(** The side [getHint] and [analyzePosition] take for the adversary of
    [p]: [p === 1 ? 2 : 1]. *)
Definition otherSide (p : Z) : Z := if p =? 1 then 2 else 1.

(** [g] with [p] to move: the game on which a stone of [p] is tried. *)
Definition asTurnOf (g : GameModel) (p : Z) : GameModel :=
  with_currentPlayer g p.

(** A legal move of [g] that would win the game for [p] if [p] were to
    move. *)
Definition winsFor (g : GameModel) (p : Z) (cell : Cell) : Prop :=
  GameModel.isValidMove g cell.1 cell.2 = true
  /\ forall now,
       gameStatus (GameModel.makeMove (asTurnOf g p) cell.1 cell.2 now).2 = won
       /\ winner (GameModel.makeMove (asTurnOf g p) cell.1 cell.2 now).2
          = Some p.

(** ** Evaluation *)

(** The engine with its two sides exchanged. *)
Definition swapSides (ai : AIPlayer) : AIPlayer :=
  mkAI (difficulty ai) (opponent ai) (player ai).

(** The two sides of the engine are black and white, in one order or the
    other. *)
Definition twoSides (ai : AIPlayer) : Prop :=
  (player ai = 1 /\ opponent ai = 2) \/ (player ai = 2 /\ opponent ai = 1).

(** ** Statistics *)

(** The games of a list that were won by [p]. *)
Definition wonBy (p : Z) (games : list (GameModel * Z)) : list (GameModel * Z) :=
  filter (fun gn => gameStatus gn.1 = won /\ winner gn.1 = Some p) games.

(** The games of a list that ended in a draw. *)
Definition drawn (games : list (GameModel * Z)) : list (GameModel * Z) :=
  filter (fun gn => gameStatus gn.1 = draw) games.

(** The statistics after the games of a list, each with the time at which
    it ended, from [stats] on. *)
Definition recorded (stats : Stats) (games : list (GameModel * Z)) : Stats :=
  foldl (fun stats gn => GameController.handleGameEnd stats gn.1 gn.2)
        stats games.

(** The time played in the games of a list. *)
Definition timePlayed (games : list (GameModel * Z)) : Z :=
  foldr (fun gn total => GameModel.getGameTime gn.1 gn.2 + total) 0 games.

(** A game that is over, reached by legal moves. *)
Definition finished (g : GameModel) : Prop :=
  reachable g /\ gameStatus g <> playing.

(** ** Exhaustive search *)

(** The game on which the search tries the cell [rc] for the side [p]. *)
Definition trial (g : GameModel) (p : Z) (now : Z) (rc : Cell) : GameModel :=
  (GameModel.makeMove (with_currentPlayer g p) rc.1 rc.2 now).2.

(** The value the search is meant to compute: minimax over the same
    candidate moves, to the same depth and with the same evaluation, with
    no window and no cut. *)
Fixpoint exhaustive (ai : AIPlayer) (now : Z) (depth : nat) (g : GameModel)
    (maximizing : bool) : Score :=
  match depth with
  | O => Fin (AIPlayer.evaluatePosition ai g)
  | S depth' =>
      if negb (bool_decide (gameStatus g = playing))
      then Fin (AIPlayer.evaluatePosition ai g)
      else
        let moves := GameModel.getRelevantEmptyCells g 2 in
        if maximizing
        then foldl (fun best rc =>
                      score_max best
                        (exhaustive ai now depth' (trial g (player ai) now rc)
                                    false))
                   NegInf moves
        else foldl (fun best rc =>
                      score_min best
                        (exhaustive ai now depth' (trial g (opponent ai) now rc)
                                    true))
                   PosInf moves
  end.

(** What a score [v] returned for the window [(alpha, beta)] says of the
    value [V]: at or below [alpha] it is an upper bound, at or above
    [beta] a lower bound, and strictly inside the window it is the
    value. *)
Definition bounds (alpha beta v V : Score) : Prop :=
  (score_leb v alpha = true -> score_leb V v = true)
  /\ (score_leb beta v = true -> score_leb v V = true)
  /\ (score_ltb alpha v = true -> score_ltb v beta = true -> v = V).

(** The move kept with a score strictly inside the window has that
    score as its value. *)
Definition attains (val : Cell -> Score) (alpha beta v : Score)
    (bestMove : option Cell) : Prop :=
  score_ltb alpha v = true -> score_ltb v beta = true ->
  exists m, bestMove = Some m /\ val m = v.

(** A search procedure for one layer that hands every game back and whose
    scores bound the values [val]. *)
Definition sound
    (rec : GameModel -> bool -> Score -> Score -> Result * GameModel)
    (maximizing : bool) (val : GameModel -> Score) : Prop :=
  restores rec
  /\ (forall g g', sameGame g g' -> val g' = val g)
  /\ forall g alpha beta,
       consistent g -> score_ltb alpha beta = true ->
       bounds alpha beta (score (rec g maximizing alpha beta).1) (val g).

(** * Properties *)

(** ** Reading and writing the grid *)

Section Grid.

Implicit Types (b : list (list Z)) (r c v w n : Z).

Lemma rd_Some b r c v :
  rd b r c = Some v ->
  0 <= r /\ 0 <= c /\
  exists line, b !! Z.to_nat r = Some line /\ line !! Z.to_nat c = Some v.
Proof.
  unfold rd. destruct (r <? 0) eqn:Hr; [discriminate|].
  destruct (c <? 0) eqn:Hc; [discriminate|]. simpl.
  destruct (b !! Z.to_nat r) as [line|] eqn:Hl; [|discriminate].
  intros H. repeat split; [lia | lia | eauto].
Qed.

Lemma rd_wr_same b r c v w :
  rd b r c = Some w -> rd (wr b r c v) r c = Some v.
Proof.
  intros H. destruct (rd_Some _ _ _ _ H) as (Hr & Hc & line & Hl & Hv).
  unfold rd, wr.
  replace (r <? 0) with false by lia. replace (c <? 0) with false by lia.
  simpl. rewrite list_lookup_alter_eq, Hl. simpl.
  apply list_lookup_insert_eq. eapply lookup_lt_Some; eauto.
Qed.

Lemma rd_wr_other b r c v r' c' :
  (r, c) <> (r', c') -> rd (wr b r c v) r' c' = rd b r' c'.
Proof.
  intros Hne. unfold rd, wr.
  destruct (r' <? 0) eqn:Hr'; [done|].
  destruct (c' <? 0) eqn:Hc'; [done|]. simpl.
  destruct (r <? 0) eqn:Hr; [done|].
  destruct (c <? 0) eqn:Hc; [done|]. simpl.
  destruct (decide (Z.to_nat r = Z.to_nat r')) as [E|E].
  - rewrite <- E, list_lookup_alter_eq.
    destruct (b !! Z.to_nat r) as [line|]; [|done]. simpl.
    apply list_lookup_insert_ne. intros E'.
    apply Hne. f_equal; lia.
  - by rewrite list_lookup_alter_ne.
Qed.

Lemma wr_id b r c v : rd b r c = Some v -> wr b r c v = b.
Proof.
  intros H. destruct (rd_Some _ _ _ _ H) as (Hr & Hc & line & Hl & Hv).
  unfold wr.
  replace (r <? 0) with false by lia. replace (c <? 0) with false by lia.
  simpl. apply list_eq. intros j.
  destruct (decide (Z.to_nat r = j)) as [<-|E].
  - rewrite list_lookup_alter_eq, Hl. simpl. f_equal.
    by apply list_insert_id.
  - by rewrite list_lookup_alter_ne.
Qed.

Lemma wr_wr b r c v w : wr (wr b r c v) r c w = wr b r c w.
Proof.
  unfold wr. destruct ((r <? 0) || (c <? 0)); [done|].
  apply list_eq. intros j.
  destruct (decide (Z.to_nat r = j)) as [<-|E].
  - rewrite !list_lookup_alter_eq.
    destruct (b !! Z.to_nat r) as [line|]; [|done]. simpl. f_equal.
    apply list_insert_insert_eq.
  - by rewrite !list_lookup_alter_ne.
Qed.

(** Writing a stone on an empty cell and taking it off again gives the
    grid back. *)
Lemma wr_undo b r c v : rd b r c = Some 0 -> wr (wr b r c v) r c 0 = b.
Proof. intros H. rewrite wr_wr. by apply wr_id. Qed.

Lemma grid_wr n b r c v : grid n b -> grid n (wr b r c v).
Proof.
  intros [Hlen Hall]. unfold wr.
  destruct ((r <? 0) || (c <? 0)); [done|]. split.
  - by rewrite length_alter.
  - apply Forall_lookup. intros j line Hj.
    destruct (decide (Z.to_nat r = j)) as [<-|E].
    + rewrite list_lookup_alter_eq in Hj.
      destruct (b !! Z.to_nat r) as [line0|] eqn:Hl; [|done].
      simpl in Hj. injection Hj as <-. rewrite length_insert.
      eapply Forall_lookup in Hall; eauto.
    + rewrite list_lookup_alter_ne in Hj by done.
      eapply Forall_lookup in Hall; eauto.
Qed.

Lemma inBounds_iff n r c :
  inBounds n r c = true <-> 0 <= r < n /\ 0 <= c < n.
Proof. unfold inBounds. rewrite !andb_true_iff. lia. Qed.

Lemma grid_rd n b r c :
  grid n b -> inBounds n r c = true -> is_Some (rd b r c).
Proof.
  intros [Hlen Hall] Hb. apply inBounds_iff in Hb. unfold rd.
  replace (r <? 0) with false by lia. replace (c <? 0) with false by lia.
  simpl.
  destruct (lookup_lt_is_Some_2 b (Z.to_nat r)) as [line Hl]; [lia|].
  rewrite Hl. apply lookup_lt_is_Some_2.
  eapply Forall_lookup in Hall; eauto. simpl in Hall. lia.
Qed.

Lemma grid_replicate n : grid n (replicate (Z.to_nat n) (replicate (Z.to_nat n) 0)).
Proof.
  split; [by rewrite length_replicate|].
  apply Forall_replicate. by rewrite length_replicate.
Qed.

Lemma rd_replicate n r c :
  inBounds n r c = true ->
  rd (replicate (Z.to_nat n) (replicate (Z.to_nat n) 0)) r c = Some 0.
Proof.
  intros Hb. apply inBounds_iff in Hb. unfold rd.
  replace (r <? 0) with false by lia. replace (c <? 0) with false by lia.
  simpl. rewrite lookup_replicate_2 by lia. apply lookup_replicate_2. lia.
Qed.

Lemma cellIs_true b r c o : cellIs b r c o = true <-> rd b r c = o.
Proof. unfold cellIs. apply bool_decide_eq_true. Qed.

Lemma pop_snoc {A} (l : list A) (x : A) : pop (l ++ [x]) = Some (x, l).
Proof. unfold pop. rewrite reverse_snoc. by rewrite reverse_involutive. Qed.

End Grid.

(** ** States of a game *)

Section Moves.

Import GameModel.

Lemma sameGame_refl g : sameGame g g.
Proof. by repeat split. Qed.

Lemma sameGame_trans g1 g2 g3 :
  sameGame g1 g2 -> sameGame g2 g3 -> sameGame g1 g3.
Proof. unfold sameGame. intuition congruence. Qed.

Lemma isValidMove_iff g row col :
  isValidMove g row col = true <->
  inBounds (boardSize g) row col = true
  /\ rd (board g) row col = Some 0
  /\ gameStatus g = playing.
Proof.
  unfold isValidMove, isValidPosition.
  rewrite !andb_true_iff, cellIs_true, bool_decide_eq_true. tauto.
Qed.

(** [checkWin] only ever assigns [winLine], and only when it answers
    [true]. *)
Lemma checkWin_dirs_frame g row col p dirs :
  exists wl,
    (checkWin_dirs g row col p dirs).2 = with_winLine g wl
    /\ ((checkWin_dirs g row col p dirs).1 = false -> wl = winLine g).
Proof.
  induction dirs as [|[dRow dCol] dirs IH]; simpl.
  - exists (winLine g). split; [by destruct g|done].
  - destruct (scanPos _ _ _ _ _ _ _ _ _) as [line count].
    destruct (scanNeg _ _ _ _ _ _ _ _ _) as [line' count'].
    destruct (5 <=? count'); [|done].
    eexists. split; [reflexivity|done].
Qed.

Lemma checkWin_frame g row col :
  exists wl,
    (checkWin g row col).2 = with_winLine g wl
    /\ ((checkWin g row col).1 = false -> wl = winLine g).
Proof. apply checkWin_dirs_frame. Qed.

Lemma placed_fields g row col now :
  boardSize (placed g row col now) = boardSize g
  /\ board (placed g row col now) = wr (board g) row col (currentPlayer g)
  /\ currentPlayer (placed g row col now) = currentPlayer g
  /\ gameStatus (placed g row col now) = gameStatus g
  /\ winner (placed g row col now) = winner g
  /\ winLine (placed g row col now) = winLine g
  /\ moveHistory (placed g row col now)
     = moveHistory g ++ [mkMove row col (currentPlayer g) now]
  /\ moveCount (placed g row col now) = moveCount g + 1.
Proof. unfold placed. simpl. by destruct (moveCount g + 1 =? 1). Qed.

(** The three ways a legal move ends. *)
Lemma makeMove_legal g row col now :
  isValidMove g row col = true ->
  let g0 := placed g row col now in
  let w := (checkWin g0 row col).1 in
  let g1 := (checkWin g0 row col).2 in
  makeMove g row col now =
    (true,
     if w then with_winner (with_gameStatus g1 won) (Some (currentPlayer g1))
     else if moveCount g1 =? boardSize g1 * boardSize g1
          then with_gameStatus g1 draw
          else with_currentPlayer g1 (if currentPlayer g1 =? 1 then 2 else 1)).
Proof.
  intros Hv. unfold makeMove, placed. rewrite Hv. cbn [negb]. cbv zeta.
  destruct (checkWin _ row col) as [w g1]. cbn [fst snd].
  destruct w; [done|]. by destruct (moveCount g1 =? _).
Qed.

Lemma makeMove_illegal g row col now :
  isValidMove g row col = false -> makeMove g row col now = (false, g).
Proof. intros Hv. unfold makeMove. by rewrite Hv. Qed.

(** A legal move followed by [undoMove], on any consistent state. *)
Lemma makeMove_undoMove g row col now :
  consistent g ->
  isValidMove g row col = true ->
  (makeMove g row col now).1 = true
  /\ (undoMove (makeMove g row col now).2).1 = true
  /\ sameGame g (undoMove (makeMove g row col now).2).2.
Proof.
  intros [Hgrid Hplay] Hv.
  rewrite makeMove_legal by done. simpl. split; [done|].
  apply isValidMove_iff in Hv as (Hb & Hrd & Hst).
  destruct (Hplay Hst) as [Hw Hl].
  destruct (checkWin_frame (placed g row col now) row col) as (wl & -> & Hwl).
  destruct (placed_fields g row col now)
    as (F1 & F2 & F3 & F4 & F5 & F6 & F7 & F8).
  set (g0 := placed g row col now) in *.
  assert (Hundo : wr (board g0) row col 0 = board g).
  { rewrite F2. by apply wr_undo. }
  destruct (checkWin g0 row col).1.
  - unfold undoMove. simpl. rewrite F7, pop_snoc. simpl.
    unfold sameGame. simpl. rewrite Hundo, F8, Hst, Hw, Hl.
    repeat split; [done | lia].
  - rewrite (Hwl eq_refl). simpl.
    destruct (moveCount g0 =? boardSize g0 * boardSize g0).
    + unfold undoMove. simpl. rewrite F7, pop_snoc. simpl.
      unfold sameGame. simpl. rewrite Hundo, F8, Hst, Hw, Hl.
      repeat split; [done | lia].
    + unfold undoMove. simpl. rewrite F7, pop_snoc. simpl.
      rewrite F4, Hst. simpl.
      unfold sameGame. simpl. rewrite Hundo, F8, F4, F5, F6.
      repeat split; [done | lia].
Qed.

(** [makeMove] keeps states consistent. *)
Lemma makeMove_consistent g row col now :
  consistent g -> consistent (makeMove g row col now).2.
Proof.
  intros Hc. destruct (isValidMove g row col) eqn:Hv.
  2:{ by rewrite makeMove_illegal. }
  rewrite makeMove_legal by done. simpl.
  destruct Hc as [Hgrid Hplay].
  apply isValidMove_iff in Hv as (Hb & Hrd & Hst).
  destruct (Hplay Hst) as [Hw Hl].
  destruct (checkWin_frame (placed g row col now) row col) as (wl & -> & Hwl).
  destruct (placed_fields g row col now)
    as (F1 & F2 & F3 & F4 & F5 & F6 & F7 & F8).
  set (g0 := placed g row col now) in *.
  assert (Hg0 : grid (boardSize g0) (board g0)).
  { rewrite F1, F2. by apply grid_wr. }
  destruct (checkWin g0 row col).1.
  - split; [done|]. simpl. done.
  - rewrite (Hwl eq_refl). simpl.
    destruct (moveCount g0 =? boardSize g0 * boardSize g0).
    + split; [done|]. simpl. done.
    + split; [done|]. simpl. intros _. by rewrite F5, F6.
Qed.

Lemma constructor_consistent : consistent constructor.
Proof.
  split; [|done]. unfold constructor, initializeBoard. simpl.
  apply (grid_replicate 15).
Qed.

Lemma setBoardSize_consistent g size :
  consistent g -> consistent (setBoardSize g size).2.
Proof.
  intros Hc. unfold setBoardSize.
  destruct ((size =? 15) || (size =? 19)); [|done].
  split; [apply grid_replicate|apply Hc].
Qed.

Lemma reachable_consistent g : reachable g -> consistent g.
Proof.
  induction 1.
  - apply setBoardSize_consistent, constructor_consistent.
  - by apply makeMove_consistent.
Qed.

End Moves.

(** C1. From any state reached by legal moves, a legal [makeMove] followed
    at once by [undoMove] succeeds twice and gives back the grid, the
    player to move, the move count, the status with the winner and the
    winning line, and the history of moves. *)
Theorem makeMove_undoMove_roundtrip (g : GameModel) (row col now : Z) :
  reachable g ->
  GameModel.isValidMove g row col = true ->
  let g1 := (GameModel.makeMove g row col now).2 in
  let g2 := (GameModel.undoMove g1).2 in
  (GameModel.makeMove g row col now).1 = true
  /\ (GameModel.undoMove g1).1 = true
  /\ board g2 = board g
  /\ currentPlayer g2 = currentPlayer g
  /\ moveCount g2 = moveCount g
  /\ gameStatus g2 = gameStatus g
  /\ winner g2 = winner g
  /\ winLine g2 = winLine g
  /\ moveHistory g2 = moveHistory g.
Proof.
  intros Hr Hv. simpl.
  destruct (makeMove_undoMove g row col now (reachable_consistent g Hr) Hv)
    as (H1 & H2 & H3).
  unfold sameGame in H3. tauto.
Qed.

(** ** Runs of stones *)

Section Runs.

Implicit Types (b : list (list Z)) (n r c sr sc : Z) (p : option Z).

Lemma cellsFrom_S r c sr sc k :
  cellsFrom r c sr sc (S k) = (r, c) :: cellsFrom (r + sr) (c + sc) sr sc k.
Proof.
  unfold cellsFrom. simpl. f_equal; [f_equal; lia|].
  rewrite <- fmap_S_seq, <- list_fmap_compose. apply list_fmap_ext.
  intros _ i _. simpl. f_equal; lia.
Qed.

Lemma length_cellsFrom r c sr sc k : length (cellsFrom r c sr sc k) = k.
Proof. unfold cellsFrom. by rewrite length_fmap, length_seq. Qed.

Lemma isRun_O b n p r c sr sc :
  onRun b n p r c = false -> isRun b n p r c sr sc 0.
Proof.
  intros H. split; [lia|]. simpl. by rewrite !Z.add_0_r.
Qed.

Lemma isRun_S b n p r c sr sc k :
  onRun b n p r c = true ->
  isRun b n p (r + sr) (c + sc) sr sc k ->
  isRun b n p r c sr sc (S k).
Proof.
  intros H0 [Hin Hout]. split.
  - intros [|i] Hi.
    + simpl. by rewrite !Z.add_0_r.
    + specialize (Hin i ltac:(lia)).
      replace (r + Z.of_nat (S i) * sr) with (r + sr + Z.of_nat i * sr) by lia.
      by replace (c + Z.of_nat (S i) * sc) with (c + sc + Z.of_nat i * sc) by lia.
  - replace (r + Z.of_nat (S k) * sr) with (r + sr + Z.of_nat k * sr) by lia.
    by replace (c + Z.of_nat (S k) * sc) with (c + sc + Z.of_nat k * sc) by lia.
Qed.

Lemma isRun_unique b n p r c sr sc k k' :
  isRun b n p r c sr sc k -> isRun b n p r c sr sc k' -> k = k'.
Proof.
  intros [Hin Hout] [Hin' Hout'].
  destruct (lt_eq_lt_dec k k') as [[Hlt|Heq]|Hgt]; [|done|].
  - rewrite (Hin' k Hlt) in Hout. discriminate.
  - rewrite (Hin k' Hgt) in Hout'. discriminate.
Qed.

(** With enough fuel the loop stops by its own test, and its number of
    turns is the length of the run. *)
Lemma runLen_isRun fuel b n p sr sc r c :
  unitDir sr sc ->
  (inBounds n r c = true -> stepsLeft n sr sc r c <= Z.of_nat fuel) ->
  isRun b n p r c sr sc (runLen fuel b n p sr sc r c).
Proof.
  intros Hd. revert r c. induction fuel as [|fuel IH]; intros r c Hfuel.
  - simpl. apply isRun_O. unfold onRun.
    destruct (inBounds n r c) eqn:Hb; [|done]. exfalso.
    specialize (Hfuel eq_refl). apply inBounds_iff in Hb.
    unfold stepsLeft, unitDir in *.
    repeat case_match; lia.
  - simpl. destruct (onRun b n p r c) eqn:Hon.
    + apply isRun_S; [done|]. apply IH. intros Hb'.
      apply andb_true_iff in Hon as [Hb _].
      specialize (Hfuel Hb).
      unfold stepsLeft, unitDir in *.
      repeat case_match; lia.
    + by apply isRun_O.
Qed.

Lemma runLen_board b n p sr sc r c :
  unitDir sr sc ->
  isRun b n p r c sr sc (runLen (Z.to_nat n) b n p sr sc r c).
Proof.
  intros Hd. apply runLen_isRun; [done|]. intros Hb.
  apply inBounds_iff in Hb. unfold stepsLeft, unitDir in *.
  repeat case_match; lia.
Qed.

(** The fuel beyond the size of the board is never used. *)
Lemma runLen_fuel fuel b n p sr sc r c :
  unitDir sr sc -> (Z.to_nat n <= fuel)%nat ->
  runLen fuel b n p sr sc r c = runLen (Z.to_nat n) b n p sr sc r c.
Proof.
  intros Hd Hf. eapply isRun_unique; [|by apply runLen_board].
  apply runLen_isRun; [done|]. intros Hb.
  apply inBounds_iff in Hb. unfold stepsLeft, unitDir in *.
  repeat case_match; lia.
Qed.

Lemma unitDir_directions dRow dCol :
  (dRow, dCol) ∈ directions -> unitDir dRow dCol /\ unitDir (- dRow) (- dCol).
Proof.
  unfold directions. rewrite !elem_of_cons, elem_of_nil.
  unfold unitDir. intros [H|[H|[H|[H|[]]]]]; injection H as -> ->; lia.
Qed.

End Runs.

(** ** Win detection *)

Section WinDetection.

Implicit Types (b : list (list Z)) (n r c row col dRow dCol : Z)
               (p : option Z).

Lemma cellsFrom_snoc r c sr sc k :
  cellsFrom r c sr sc (S k)
  = cellsFrom r c sr sc k ++ [(r + Z.of_nat k * sr, c + Z.of_nat k * sc)].
Proof.
  unfold cellsFrom. by rewrite seq_S, fmap_app.
Qed.

Lemma cellsFrom_app r c sr sc k m :
  cellsFrom r c sr sc (k + m)
  = cellsFrom r c sr sc k
    ++ cellsFrom (r + Z.of_nat k * sr) (c + Z.of_nat k * sc) sr sc m.
Proof.
  unfold cellsFrom. rewrite seq_app, fmap_app. f_equal. simpl.
  replace (seq k m) with (seq (k + 0) m) by (f_equal; lia).
  rewrite <- fmap_add_seq, <- list_fmap_compose.
  apply list_fmap_ext. intros _ i _. simpl. f_equal; lia.
Qed.

Lemma take_cellsFrom r c sr sc k m :
  (k <= m)%nat -> take k (cellsFrom r c sr sc m) = cellsFrom r c sr sc k.
Proof.
  intros H. replace m with (k + (m - k))%nat by lia.
  rewrite cellsFrom_app.
  rewrite take_app_le by (rewrite length_cellsFrom; lia).
  apply take_ge. rewrite length_cellsFrom. lia.
Qed.

Lemma reverse_cellsFrom r c sr sc k :
  reverse (cellsFrom (r - sr) (c - sc) (- sr) (- sc) k)
  = cellsFrom (r - Z.of_nat k * sr) (c - Z.of_nat k * sc) sr sc k.
Proof.
  revert r c. induction k as [|k IH]; intros r c; [done|].
  rewrite cellsFrom_S, reverse_cons.
  replace (r - sr + - sr) with (r - sr - sr) by lia.
  replace (c - sc + - sc) with (c - sc - sc) by lia.
  rewrite IH, cellsFrom_snoc. f_equal.
  - f_equal; lia.
  - f_equal. f_equal; lia.
Qed.

(** The line [checkWin] has built after its two loops: the whole run,
    from its far end behind the cell to its far end ahead. *)
Lemma line_cellsFrom row col dRow dCol back fwd :
  reverse (cellsFrom (row - dRow) (col - dCol) (- dRow) (- dCol) back)
    ++ (row, col) :: cellsFrom (row + dRow) (col + dCol) dRow dCol fwd
  = cellsFrom (row - Z.of_nat back * dRow) (col - Z.of_nat back * dCol)
              dRow dCol (back + S fwd).
Proof.
  rewrite reverse_cellsFrom, cellsFrom_app. f_equal.
  rewrite cellsFrom_S. simpl. f_equal; [f_equal; lia|]. f_equal; lia.
Qed.

Lemma scanPos_run fuel g p dRow dCol r c line count :
  GameModel.scanPos fuel g p dRow dCol r c line count
  = let k := runLen fuel (board g) (boardSize g) p dRow dCol r c in
    (line ++ cellsFrom r c dRow dCol k, count + Z.of_nat k).
Proof.
  revert r c line count. induction fuel as [|fuel IH]; intros r c line count.
  - simpl. by rewrite app_nil_r, Z.add_0_r.
  - simpl. unfold GameModel.isValidPosition. fold (onRun (board g) (boardSize g) p r c).
    destruct (onRun (board g) (boardSize g) p r c).
    + rewrite IH. cbv zeta. rewrite cellsFrom_S, <- app_assoc. simpl.
      f_equal. lia.
    + simpl. by rewrite app_nil_r, Z.add_0_r.
Qed.

Lemma scanNeg_run fuel g p dRow dCol r c line count :
  GameModel.scanNeg fuel g p dRow dCol r c line count
  = let k := runLen fuel (board g) (boardSize g) p (- dRow) (- dCol) r c in
    (reverse (cellsFrom r c (- dRow) (- dCol) k) ++ line, count + Z.of_nat k).
Proof.
  revert r c line count. induction fuel as [|fuel IH]; intros r c line count.
  - simpl. by rewrite Z.add_0_r.
  - simpl. unfold GameModel.isValidPosition. fold (onRun (board g) (boardSize g) p r c).
    destruct (onRun (board g) (boardSize g) p r c).
    + rewrite IH. cbv zeta. rewrite cellsFrom_S, reverse_cons, <- app_assoc.
      simpl. rewrite <- !Z.sub_opp_r, !Z.opp_involutive. f_equal. lia.
    + simpl. by rewrite Z.add_0_r.
Qed.

Lemma countPos_run fuel b n player dRow dCol r c count :
  AIPlayer.countPos fuel b n player dRow dCol r c count
  = count + Z.of_nat (runLen fuel b n (Some player) dRow dCol r c).
Proof.
  revert r c count. induction fuel as [|fuel IH]; intros r c count.
  - simpl. lia.
  - simpl. fold (onRun b n (Some player) r c).
    destruct (onRun b n (Some player) r c); [rewrite IH|]; lia.
Qed.

Lemma countNeg_run fuel b n player dRow dCol r c count :
  AIPlayer.countNeg fuel b n player dRow dCol r c count
  = count + Z.of_nat (runLen fuel b n (Some player) (- dRow) (- dCol) r c).
Proof.
  revert r c count. induction fuel as [|fuel IH]; intros r c count.
  - simpl. lia.
  - simpl. fold (onRun b n (Some player) r c).
    destruct (onRun b n (Some player) r c); [rewrite IH|]; [|lia].
    rewrite <- !Z.sub_opp_r, !Z.opp_involutive. lia.
Qed.

Lemma runThrough_unique b n p row col dRow dCol back fwd back' fwd' :
  runThrough b n p row col dRow dCol back fwd ->
  runThrough b n p row col dRow dCol back' fwd' ->
  back = back' /\ fwd = fwd'.
Proof.
  intros [H1 H2] [H1' H2']. split; eapply isRun_unique; eauto.
Qed.

(** What the two loops of either [checkWin] count in one direction. *)
Lemma runThrough_runLen b n p row col dRow dCol :
  (dRow, dCol) ∈ directions ->
  runThrough b n p row col dRow dCol
    (runLen (Z.to_nat n) b n p (- dRow) (- dCol) (row - dRow) (col - dCol))
    (runLen (Z.to_nat n) b n p dRow dCol (row + dRow) (col + dCol)).
Proof.
  intros Hd. apply unitDir_directions in Hd as [Hd Hd'].
  split; by apply runLen_board.
Qed.

End WinDetection.

Section CheckWin.

Implicit Types (b : list (list Z)) (n row col dRow dCol : Z) (p : option Z).

(** [GameModel.checkWin]: when it answers [true] it has found a direction
    in which the run through the cell has five stones or more, and it has
    stored the first five cells of that run, counted from its far end
    behind the cell; when it answers [false] it has changed nothing and
    no direction has such a run. *)
Lemma GameModel_checkWin_dirs_spec g row col p dirs :
  (forall d, d ∈ dirs -> d ∈ directions) ->
  if (GameModel.checkWin_dirs g row col p dirs).1
  then exists dRow dCol back fwd,
      (dRow, dCol) ∈ dirs
      /\ runThrough (board g) (boardSize g) p row col dRow dCol back fwd
      /\ (5 <= back + 1 + fwd)%nat
      /\ (GameModel.checkWin_dirs g row col p dirs).2
         = with_winLine g
             (cellsFrom (row - Z.of_nat back * dRow)
                        (col - Z.of_nat back * dCol) dRow dCol 5)
  else (GameModel.checkWin_dirs g row col p dirs).2 = g
       /\ forall dRow dCol back fwd,
           (dRow, dCol) ∈ dirs ->
           runThrough (board g) (boardSize g) p row col dRow dCol back fwd ->
           (back + 1 + fwd < 5)%nat.
Proof.
  induction dirs as [|[dRow dCol] dirs IH]; intros Hsub.
  - simpl. split; [done|]. intros ? ? ? ? H. by apply elem_of_nil in H.
  - simpl. rewrite scanPos_run. cbv beta iota zeta.
    rewrite scanNeg_run. cbv beta iota zeta.
    assert (Hd : (dRow, dCol) ∈ directions) by (apply Hsub; left).
    pose proof (runThrough_runLen (board g) (boardSize g) p row col _ _ Hd)
      as Hrun.
    set (back := runLen _ _ _ _ (- dRow) _ _ _) in *.
    set (fwd := runLen _ _ _ _ dRow _ _ _) in *.
    destruct (5 <=? 1 + Z.of_nat fwd + Z.of_nat back) eqn:Hcount.
    + simpl. exists dRow, dCol, back, fwd.
      split; [left|]. split; [done|]. split; [lia|].
      rewrite line_cellsFrom, take_cellsFrom by lia. done.
    + specialize (IH (fun d Hd' => Hsub d (list_elem_of_further _ _ _ Hd'))).
      destruct (GameModel.checkWin_dirs g row col p dirs).1.
      * destruct IH as (dRow' & dCol' & back' & fwd' & Hin & IH).
        exists dRow', dCol', back', fwd'. split; [by right|done].
      * destruct IH as [Heq IH]. split; [done|].
        intros dRow' dCol' back' fwd' Hin Hrun'.
        apply elem_of_cons in Hin as [Hin|Hin]; [|by eapply IH].
        injection Hin as -> ->.
        destruct (runThrough_unique _ _ _ _ _ _ _ _ _ _ _ Hrun Hrun') as [<- <-].
        lia.
Qed.

Lemma AIPlayer_checkWin_dirs_spec b n row col player dirs :
  (forall d, d ∈ dirs -> d ∈ directions) ->
  AIPlayer.checkWin_dirs b n row col player dirs = true <->
  exists dRow dCol back fwd,
    (dRow, dCol) ∈ dirs
    /\ runThrough b n (Some player) row col dRow dCol back fwd
    /\ (5 <= back + 1 + fwd)%nat.
Proof.
  induction dirs as [|[dRow dCol] dirs IH]; intros Hsub.
  - simpl. split; [done|]. intros (? & ? & ? & ? & H & _).
    by apply elem_of_nil in H.
  - simpl. rewrite countPos_run, countNeg_run.
    assert (Hd : (dRow, dCol) ∈ directions) by (apply Hsub; left).
    pose proof (runThrough_runLen b n (Some player) row col _ _ Hd) as Hrun.
    set (back := runLen _ _ _ _ (- dRow) _ _ _) in *.
    set (fwd := runLen _ _ _ _ dRow _ _ _) in *.
    specialize (IH (fun d Hd' => Hsub d (list_elem_of_further _ _ _ Hd'))).
    destruct (5 <=? 1 + Z.of_nat fwd + Z.of_nat back) eqn:Hcount.
    + split; [intros _|done]. exists dRow, dCol, back, fwd.
      split; [left|]. split; [done|lia].
    + rewrite IH. split.
      * intros (dRow' & dCol' & back' & fwd' & Hin & H).
        exists dRow', dCol', back', fwd'. split; [by right|done].
      * intros (dRow' & dCol' & back' & fwd' & Hin & Hrun' & Hfive).
        apply elem_of_cons in Hin as [Hin|Hin].
        -- injection Hin as -> ->.
           destruct (runThrough_unique _ _ _ _ _ _ _ _ _ _ _ Hrun Hrun')
             as [<- <-].
           lia.
        -- exists dRow', dCol', back', fwd'. done.
Qed.

Lemma GameModel_checkWin_iff g row col :
  (GameModel.checkWin g row col).1 = true <->
  completesFive (board g) (boardSize g) (rd (board g) row col) row col.
Proof.
  unfold GameModel.checkWin.
  pose proof (GameModel_checkWin_dirs_spec g row col (rd (board g) row col)
                directions (fun d H => H)) as Hspec.
  destruct (GameModel.checkWin_dirs _ _ _ _ _).1.
  - split; [intros _|done].
    destruct Hspec as (dRow & dCol & back & fwd & Hin & Hrun & Hfive & _).
    by exists dRow, dCol, back, fwd.
  - split; [done|]. destruct Hspec as [_ Hspec].
    intros (dRow & dCol & back & fwd & Hin & Hrun & Hfive).
    specialize (Hspec _ _ _ _ Hin Hrun). lia.
Qed.

Lemma AIPlayer_checkWin_iff b n row col player :
  AIPlayer.checkWin b n row col player = true <->
  completesFive b n (Some player) row col.
Proof. by apply AIPlayer_checkWin_dirs_spec. Qed.

End CheckWin.

(** ** The outcome of a legal move *)

Section Outcome.

Import GameModel.

(** Every cell of a run through [(row, col)], listed from its far end
    behind the cell, is on the board and holds [p]. *)
Lemma runThrough_cells b n p row col dRow dCol back fwd (i : nat) :
  runThrough b n p row col dRow dCol back fwd ->
  onRun b n p row col = true ->
  (i < back + 1 + fwd)%nat ->
  onRun b n p (row - Z.of_nat back * dRow + Z.of_nat i * dRow)
              (col - Z.of_nat back * dCol + Z.of_nat i * dCol) = true.
Proof.
  intros [[Hback _] [Hfwd _]] Hcell Hi.
  destruct (lt_eq_lt_dec i back) as [[Hlt|Heq]|Hgt].
  - specialize (Hback (back - 1 - i)%nat ltac:(lia)).
    replace (Z.of_nat (back - 1 - i)) with (Z.of_nat back - 1 - Z.of_nat i)
      in Hback by lia.
    replace (row - Z.of_nat back * dRow + Z.of_nat i * dRow)
      with (row - dRow + (Z.of_nat back - 1 - Z.of_nat i) * - dRow) by lia.
    by replace (col - Z.of_nat back * dCol + Z.of_nat i * dCol)
      with (col - dCol + (Z.of_nat back - 1 - Z.of_nat i) * - dCol) by lia.
  - subst i.
    replace (row - Z.of_nat back * dRow + Z.of_nat back * dRow) with row by lia.
    by replace (col - Z.of_nat back * dCol + Z.of_nat back * dCol) with col by lia.
  - specialize (Hfwd (i - back - 1)%nat ltac:(lia)).
    replace (Z.of_nat (i - back - 1)) with (Z.of_nat i - Z.of_nat back - 1)
      in Hfwd by lia.
    replace (row - Z.of_nat back * dRow + Z.of_nat i * dRow)
      with (row + dRow + (Z.of_nat i - Z.of_nat back - 1) * dRow) by lia.
    by replace (col - Z.of_nat back * dCol + Z.of_nat i * dCol)
      with (col + dCol + (Z.of_nat i - Z.of_nat back - 1) * dCol) by lia.
Qed.

(** A legal move by the player [p] to move: the stone is placed and
    recorded, and the game is won with the first five cells of the run,
    drawn on a full board, or goes on with the other player. *)
Lemma makeMove_outcome g0 row col now :
  isValidMove g0 row col = true ->
  let g := (makeMove g0 row col now).2 in
  let p := currentPlayer g0 in
  boardSize g = boardSize g0
  /\ board g = wr (board g0) row col p
  /\ rd (board g) row col = Some p
  /\ moveHistory g = moveHistory g0 ++ [mkMove row col p now]
  /\ moveCount g = moveCount g0 + 1
  /\ ((gameStatus g = won
       /\ winner g = Some p
       /\ exists dRow dCol back fwd,
           (dRow, dCol) ∈ directions
           /\ runThrough (board g) (boardSize g) (Some p) row col
                         dRow dCol back fwd
           /\ (5 <= back + 1 + fwd)%nat
           /\ winLine g = cellsFrom (row - Z.of_nat back * dRow)
                                    (col - Z.of_nat back * dCol) dRow dCol 5)
      \/ (~ completesFive (board g) (boardSize g) (Some p) row col
          /\ moveCount g = boardSize g * boardSize g
          /\ gameStatus g = draw)
      \/ (~ completesFive (board g) (boardSize g) (Some p) row col
          /\ moveCount g <> boardSize g * boardSize g
          /\ gameStatus g = playing
          /\ currentPlayer g = (if p =? 1 then 2 else 1))).
Proof.
  intros Hv. rewrite makeMove_legal by done. cbn [snd].
  apply isValidMove_iff in Hv as (Hb & Hrd & Hst).
  destruct (placed_fields g0 row col now)
    as (F1 & F2 & F3 & F4 & F5 & F6 & F7 & F8).
  set (g1 := placed g0 row col now) in *.
  assert (Hcell : rd (board g1) row col = Some (currentPlayer g0)).
  { rewrite F2. eapply rd_wr_same; eauto. }
  pose proof (GameModel_checkWin_iff g1 row col) as Hiff.
  pose proof (GameModel_checkWin_dirs_spec g1 row col (rd (board g1) row col)
                directions (fun d H => H)) as Hspec.
  fold (checkWin g1 row col) in Hspec. rewrite Hcell in Hspec, Hiff.
  destruct (checkWin g1 row col).1.
  - destruct Hspec as (dRow & dCol & back & fwd & Hin & Hrun & Hfive & ->).
    simpl. rewrite F1, F3, F7, F8. repeat split; try done.
    left. repeat split; try done.
    exists dRow, dCol, back, fwd. by rewrite <- F1.
  - destruct Hspec as [-> _].
    assert (Hno : ~ completesFive (board g1) (boardSize g1)
                    (Some (currentPlayer g0)) row col).
    { intros H. apply Hiff in H. discriminate. }
    destruct (moveCount g1 =? boardSize g1 * boardSize g1) eqn:Hfull.
    + simpl. rewrite <- F1, <- F7, <- F8. repeat split; try done.
      right. left. repeat split; [done|lia].
    + simpl. rewrite <- F1, <- F7, <- F8. repeat split; try done.
      right. right. rewrite F3. repeat split; [done|lia|congruence].
Qed.

Lemma fresh_playing size :
  gameStatus (setBoardSize constructor size).2 = playing
  /\ moveCount (setBoardSize constructor size).2 = 0
  /\ moveHistory (setBoardSize constructor size).2 = []
  /\ (boardSize (setBoardSize constructor size).2 = 15
      \/ boardSize (setBoardSize constructor size).2 = 19).
Proof.
  unfold setBoardSize.
  destruct (size =? 15) eqn:H15; simpl.
  - repeat split; try done. left. lia.
  - destruct (size =? 19) eqn:H19; simpl.
    + repeat split; try done. right. lia.
    + repeat split; try done. by left.
Qed.

End Outcome.

(** C2. In a won game reached by legal moves, the winning line holds
    exactly five cells; they are the first five cells of the winner's run
    through the cell played last, counted from the far end of the run
    behind that cell (against the direction) and on in the direction, which
    is one of the four scanned, with unit step; all five are on the board
    and hold the winner's stone. *)
Theorem won_winLine (g : GameModel) :
  reachable g ->
  gameStatus g = won ->
  exists m p dRow dCol back fwd,
    last (moveHistory g) = Some m
    /\ winner g = Some p
    /\ mv_player m = p
    /\ (dRow, dCol) ∈ directions
    /\ runThrough (board g) (boardSize g) (Some p) (mv_row m) (mv_col m)
                  dRow dCol back fwd
    /\ (5 <= back + 1 + fwd)%nat
    /\ winLine g
       = take 5 (cellsFrom (mv_row m - Z.of_nat back * dRow)
                           (mv_col m - Z.of_nat back * dCol)
                           dRow dCol (back + 1 + fwd))
    /\ length (winLine g) = 5%nat
    /\ (forall i : nat, (i < 5)%nat ->
          winLine g !! i
          = Some (mv_row m - Z.of_nat back * dRow + Z.of_nat i * dRow,
                  mv_col m - Z.of_nat back * dCol + Z.of_nat i * dCol))
    /\ (forall cell, cell ∈ winLine g ->
          inBounds (boardSize g) cell.1 cell.2 = true
          /\ rd (board g) cell.1 cell.2 = Some p).
Proof.
  intros Hr Hwon. destruct Hr as [size|g0 row col now Hr Hv].
  { destruct (fresh_playing size) as [H _]. congruence. }
  destruct (makeMove_outcome g0 row col now Hv)
    as (F1 & F2 & Hcell & F3 & F4 & Hout).
  set (g := (GameModel.makeMove g0 row col now).2) in *.
  destruct Hout as [(_ & Hw & dRow & dCol & back & fwd & Hin & Hrun & Hfive & Hl)
                   |[(_ & _ & Hd)|(_ & _ & Hp & _)]]; [|congruence..].
  exists (mkMove row col (currentPlayer g0) now), (currentPlayer g0),
         dRow, dCol, back, fwd.
  simpl. split; [by rewrite F3, last_snoc|].
  do 5 (split; [done|]).
  split; [by rewrite take_cellsFrom by lia|].
  split; [by rewrite Hl, length_cellsFrom|].
  assert (Hon : onRun (board g) (boardSize g) (Some (currentPlayer g0)) row col
                = true).
  { unfold onRun. apply andb_true_iff. split; [|by apply cellIs_true].
    rewrite F1. by apply isValidMove_iff in Hv as [? _]. }
  split.
  - intros i Hi. rewrite Hl. unfold cellsFrom.
    rewrite list_lookup_fmap, lookup_seq_lt by done. done.
  - intros cell Hcellin. rewrite Hl in Hcellin. unfold cellsFrom in Hcellin.
    apply list_elem_of_fmap in Hcellin as (i & -> & Hi).
    apply elem_of_seq in Hi. simpl.
    pose proof (runThrough_cells _ _ _ _ _ _ _ _ _ i Hrun Hon ltac:(lia)) as H.
    apply andb_true_iff in H as [H1 H2]. by apply cellIs_true in H2.
Qed.

(** C6. In a game reached by legal moves the status is [draw] exactly when
    the move count is the number of cells and the last move did not
    complete a run of five; and the last move completes a run of five
    exactly when [checkWin] answers [true] at its cell. *)
Theorem draw_iff (g : GameModel) :
  reachable g ->
  (gameStatus g = draw <->
   moveCount g = boardSize g * boardSize g /\ ~ lastMoveWins g)
  /\ (forall m, last (moveHistory g) = Some m ->
       (GameModel.checkWin g (mv_row m) (mv_col m)).1 = true <->
       lastMoveWins g).
Proof.
  intros Hr. destruct Hr as [size|g0 row col now Hr Hv].
  { destruct (fresh_playing size) as (Hs & Hc & Hh & Hn).
    rewrite Hs, Hc, Hh. split; [|done]. split; [done|]. intros [H _]. lia. }
  destruct (makeMove_outcome g0 row col now Hv)
    as (F1 & F2 & Hcell & F3 & F4 & Hout).
  set (g := (GameModel.makeMove g0 row col now).2) in *.
  assert (Hlast : lastMoveWins g <->
            completesFive (board g) (boardSize g) (Some (currentPlayer g0))
                          row col).
  { unfold lastMoveWins. rewrite F3, last_snoc. split.
    - intros (m & Hm & H). by injection Hm as <-.
    - intros H. by eexists. }
  split.
  - destruct Hout as [(Hw & _ & dRow & dCol & back & fwd & Hin & Hrun & Hfive & _)
                     |[(Hno & Hfull & Hd)|(Hno & Hfull & Hp & _)]].
    + split; [congruence|]. intros [_ Hno]. exfalso. apply Hno, Hlast.
      by exists dRow, dCol, back, fwd.
    + split; [|done]. intros _. split; [done|]. by rewrite Hlast.
    + split; [congruence|]. by intros [H _].
  - intros m Hm. rewrite F3, last_snoc in Hm. injection Hm as <-. simpl.
    rewrite Hlast, GameModel_checkWin_iff. by rewrite Hcell.
Qed.

(** ** Immediate wins and blocks *)

Section Immediate.

Import AIPlayer.

Implicit Types (b : list (list Z)) (n p row col : Z).

Lemma allCells_elem n r c : (r, c) ∈ allCells n <-> inBounds n r c = true.
Proof.
  unfold allCells. rewrite list_elem_of_bind, inBounds_iff. split.
  - intros (r' & Hc & Hr). apply list_elem_of_bind in Hc as (c' & Hc & Hc').
    apply list_elem_of_singleton in Hc. injection Hc as -> ->.
    apply elem_of_seqZ in Hr, Hc'. lia.
  - intros [Hr Hc]. exists r. split; [|apply elem_of_seqZ; lia].
    apply list_elem_of_bind. exists c. split; [|apply elem_of_seqZ; lia].
    by apply list_elem_of_singleton.
Qed.

(** [findWinningMove] gives back the array as it got it, with the first
    empty cell, in the order of the loops, on which a stone of [p] makes
    [checkWin] true, or [null] when no such cell exists. *)
Lemma findWinningMove_loop_spec b n p cells :
  (findWinningMove_loop b n p cells).2 = b
  /\ match (findWinningMove_loop b n p cells).1 with
     | Some (row, col) =>
         (row, col) ∈ cells
         /\ rd b row col = Some 0
         /\ checkWin (wr b row col p) n row col p = true
     | None =>
         forall row col,
           (row, col) ∈ cells -> rd b row col = Some 0 ->
           checkWin (wr b row col p) n row col p = false
     end.
Proof.
  induction cells as [|[row col] cells IH]; simpl.
  - split; [done|]. intros ? ? H. by apply elem_of_nil in H.
  - destruct (cellIs b row col (Some 0)) eqn:He.
    + apply cellIs_true in He.
      destruct (checkWin (wr b row col p) n row col p) eqn:Hw; simpl.
      * rewrite wr_undo by done. split; [done|]. split; [left|done].
      * rewrite wr_undo by done. destruct IH as [IH1 IH2]. split; [done|].
        destruct (findWinningMove_loop b n p cells).1 as [[row' col']|].
        -- destruct IH2 as (Hin & H). split; [by right|done].
        -- intros row' col' Hin Hrd.
           apply elem_of_cons in Hin as [Hin|Hin]; [|by apply IH2].
           by injection Hin as -> ->.
    + destruct IH as [IH1 IH2]. split; [done|].
      destruct (findWinningMove_loop b n p cells).1 as [[row' col']|].
      * destruct IH2 as (Hin & H). split; [by right|done].
      * intros row' col' Hin Hrd.
        apply elem_of_cons in Hin as [Hin|Hin]; [|by apply IH2].
        injection Hin as -> ->. apply cellIs_true in Hrd. congruence.
Qed.

Lemma findWinningMove_board b n p : (findWinningMove b n p).2 = b.
Proof. apply findWinningMove_loop_spec. Qed.

Lemma findWinningMove_Some b n p row col :
  (findWinningMove b n p).1 = Some (row, col) ->
  inBounds n row col = true
  /\ rd b row col = Some 0
  /\ checkWin (wr b row col p) n row col p = true.
Proof.
  intros H. unfold findWinningMove in H.
  pose proof (findWinningMove_loop_spec b n p (allCells n)) as [_ Hs].
  rewrite H in Hs. destruct Hs as (Hin & Hs). by apply allCells_elem in Hin.
Qed.

Lemma findWinningMove_None b n p row col :
  (findWinningMove b n p).1 = None ->
  inBounds n row col = true -> rd b row col = Some 0 ->
  checkWin (wr b row col p) n row col p = false.
Proof.
  intros H Hb Hrd. unfold findWinningMove in H.
  pose proof (findWinningMove_loop_spec b n p (allCells n)) as [_ Hs].
  rewrite H in Hs. apply Hs; [by apply allCells_elem|done].
Qed.

Lemma getBoardCopy_board g : GameModel.getBoardCopy g = board g.
Proof. unfold GameModel.getBoardCopy. apply list_fmap_id. Qed.

(** With a single alternative the draw changes nothing. *)
Lemma addRandomness_singleton ai m u1 u2 :
  addRandomness ai m [m] u1 u2 = Some m.
Proof.
  unfold addRandomness. simpl. by rewrite andb_false_r.
Qed.

(** The first two steps of [getBestMove]. *)
Lemma getBestMove_win ai g now u1 u2 m :
  (findWinningMove (board g) (boardSize g) (player ai)).1 = Some m ->
  getBestMove ai g now u1 u2 = (Some m, g).
Proof.
  intros H. unfold getBestMove. rewrite getBoardCopy_board.
  destruct (findWinningMove (board g) (boardSize g) (player ai)) as [w b'].
  simpl in H. subst w. by rewrite addRandomness_singleton.
Qed.

Lemma getBestMove_block ai g now u1 u2 m :
  (findWinningMove (board g) (boardSize g) (player ai)).1 = None ->
  (findWinningMove (board g) (boardSize g) (opponent ai)).1 = Some m ->
  getBestMove ai g now u1 u2 = (Some m, g).
Proof.
  intros H1 H2. unfold getBestMove. rewrite getBoardCopy_board.
  pose proof (findWinningMove_board (board g) (boardSize g) (player ai)) as Hb.
  destruct (findWinningMove (board g) (boardSize g) (player ai)) as [w b'].
  simpl in H1, Hb. subst w b'.
  destruct (findWinningMove (board g) (boardSize g) (opponent ai)) as [w b'].
  simpl in H2. subst w. by rewrite addRandomness_singleton.
Qed.

End Immediate.

(** C9. When [getBestMove] finds an immediate win, or else an immediate
    block, it returns exactly that cell, whatever the two draws of
    [Math.random()] are and whatever the difficulty is: [addRandomness]
    gets a single alternative and keeps the move. *)
Theorem immediate_move_not_randomized
    (ai : AIPlayer) (g : GameModel) (now : Z) (u1 u2 : Q) (m : Cell) :
  let b := GameModel.getBoardCopy g in
  let n := boardSize g in
  ((AIPlayer.findWinningMove b n (player ai)).1 = Some m
   \/ ((AIPlayer.findWinningMove b n (player ai)).1 = None
       /\ (AIPlayer.findWinningMove b n (opponent ai)).1 = Some m)) ->
  AIPlayer.addRandomness ai m [m] u1 u2 = Some m
  /\ (AIPlayer.getBestMove ai g now u1 u2).1 = Some m.
Proof.
  intros b n. subst b n. rewrite getBoardCopy_board.
  intros H. split; [apply addRandomness_singleton|].
  destruct H as [H|[H1 H2]].
  - by rewrite (getBestMove_win ai g now u1 u2 m H).
  - by rewrite (getBestMove_block ai g now u1 u2 m H1 H2).
Qed.

Section OpenFour.

Implicit Types (b : list (list Z)) (n p row col : Z).

Lemma onRun_wr_other b n o r c v r' c' :
  (r, c) <> (r', c') -> onRun (wr b r c v) n o r' c' = onRun b n o r' c'.
Proof.
  intros Hne. unfold onRun, cellIs. by rewrite rd_wr_other.
Qed.

Lemma onRun_true b n o r c :
  onRun b n o r c = true <-> inBounds n r c = true /\ rd b r c = o.
Proof. unfold onRun. by rewrite andb_true_iff, cellIs_true. Qed.

(** A cell that completes a run of five or more lies among five cells in
    a row that hold the player's stones. *)
Lemma completesFive_fiveInRow b n p row col :
  completesFive b n (Some p) row col ->
  onRun b n (Some p) row col = true ->
  fiveInRow b n p row col.
Proof.
  intros (dRow & dCol & back & fwd & Hin & Hrun & Hfive) Hon.
  exists dRow, dCol, (Nat.min back 4). split; [done|]. split; [lia|].
  intros i Hi.
  pose proof (runThrough_cells _ _ _ _ _ _ _ _ _ (back - Nat.min back 4 + i)%nat
                Hrun Hon ltac:(lia)) as H.
  replace (Z.of_nat (back - Nat.min back 4 + i))
    with (Z.of_nat back - Z.of_nat (Nat.min back 4) + Z.of_nat i) in H by lia.
  replace (row + (Z.of_nat i - Z.of_nat (Nat.min back 4)) * dRow)
    with (row - Z.of_nat back * dRow
          + (Z.of_nat back - Z.of_nat (Nat.min back 4) + Z.of_nat i) * dRow)
    by lia.
  by replace (col + (Z.of_nat i - Z.of_nat (Nat.min back 4)) * dCol)
    with (col - Z.of_nat back * dCol
          + (Z.of_nat back - Z.of_nat (Nat.min back 4) + Z.of_nat i) * dCol)
    by lia.
Qed.

(** An open four leaves a cell on which [findWinningMove] would see a
    win. *)
Lemma openFour_winning_cell b n p :
  openFour b n p ->
  exists row col,
    inBounds n row col = true
    /\ rd b row col = Some 0
    /\ AIPlayer.checkWin (wr b row col p) n row col p = true.
Proof.
  intros (r & c & dRow & dCol & Hin & Hfour & _ & Hend).
  apply onRun_true in Hend as [Hb Hrd].
  exists (r + 4 * dRow), (c + 4 * dCol). split; [done|]. split; [done|].
  apply AIPlayer_checkWin_iff.
  set (b' := wr b (r + 4 * dRow) (c + 4 * dCol) p).
  pose proof (runThrough_runLen b' n (Some p) (r + 4 * dRow) (c + 4 * dCol)
                dRow dCol Hin) as Hrun.
  set (back := runLen _ _ _ _ (- dRow) _ _ _) in *.
  set (fwd := runLen _ _ _ _ dRow _ _ _) in *.
  exists dRow, dCol, back, fwd. split; [done|]. split; [done|].
  destruct (le_lt_dec 4 back) as [Hge|Hlt]; [lia|]. exfalso.
  destruct Hrun as [[_ Hstop] _].
  specialize (Hfour (3 - back)%nat ltac:(lia)).
  apply unitDir_directions in Hin as [Hd _]. unfold unitDir in Hd.
  assert (Hcell : r + 4 * dRow - dRow + Z.of_nat back * - dRow
                  = r + Z.of_nat (3 - back) * dRow
                  /\ c + 4 * dCol - dCol + Z.of_nat back * - dCol
                     = c + Z.of_nat (3 - back) * dCol).
  { destruct back as [|[|[|[|back]]]]; simpl; lia. }
  destruct Hcell as [Hr Hc]. rewrite Hr, Hc in Hstop.
  unfold b' in Hstop. rewrite onRun_wr_other in Hstop; [congruence|].
  intros E. injection E as E1 E2.
  destruct back as [|[|[|[|back]]]]; simpl in E1, E2; lia.
Qed.

End OpenFour.

(** C7. On a board with an open four of the engine's player, whatever the
    difficulty (and so the search depth), the clock and the draws,
    [getBestMove] returns an empty cell of the board on which the engine's
    stone stands among five of its stones in a row; the search is not
    run and the game object is left as it was.  Nothing is asked of the
    opponent's threats, nor of the status. *)
Theorem open_four_completed
    (ai : AIPlayer) (g : GameModel) (now : Z) (u1 u2 : Q) :
  openFour (board g) (boardSize g) (player ai) ->
  exists row col,
    AIPlayer.getBestMove ai g now u1 u2 = (Some (row, col), g)
    /\ (AIPlayer.findWinningMove (board g) (boardSize g) (player ai)).1
       = Some (row, col)
    /\ inBounds (boardSize g) row col = true
    /\ rd (board g) row col = Some 0
    /\ fiveInRow (wr (board g) row col (player ai)) (boardSize g) (player ai)
                 row col.
Proof.
  intros Hopen.
  destruct (openFour_winning_cell _ _ _ Hopen) as (row0 & col0 & Hb0 & Hrd0 & Hw0).
  destruct (AIPlayer.findWinningMove (board g) (boardSize g) (player ai)).1
    as [[row col]|] eqn:Hfind.
  2:{ rewrite (findWinningMove_None _ _ _ _ _ Hfind Hb0 Hrd0) in Hw0.
      discriminate. }
  exists row, col.
  destruct (findWinningMove_Some _ _ _ _ _ Hfind) as (Hb & Hrd & Hw).
  split; [by apply getBestMove_win|]. do 3 (split; [done|]).
  apply completesFive_fiveInRow; [by apply AIPlayer_checkWin_iff|].
  apply onRun_true. split; [done|]. eapply rd_wr_same; eauto.
Qed.

(** ** Static evaluation of a window *)

Section EvaluateLine.

Import AIPlayer.

Variables (b : list (list Z)) (n row col dRow dCol player : Z).

Lemma offBoard_inBounds (r c : Z) :
  (r <? 0) || (n <=? r) || (c <? 0) || (n <=? c) = negb (inBounds n r c).
Proof. unfold inBounds. lia. Qed.

(** One turn of the loop adds one to [count] on an own cell and one to
    [blocks] on a blocked cell. *)
Lemma evaluateLine_step_counts (count blocks empty i : Z) :
  (evaluateLine_step b n row col dRow dCol player (count, blocks, empty) i).1
  = (count + (if ownCell b n row col dRow dCol player i then 1 else 0),
     blocks + (if blockedCell b n row col dRow dCol player i then 1 else 0)).
Proof.
  unfold evaluateLine_step, ownCell, blockedCell, windowCell.
  rewrite offBoard_inBounds.
  destruct (inBounds n _ _); simpl; [|f_equal; lia].
  destruct (cellIs b _ _ (Some player)); simpl; [f_equal; lia|].
  destruct (cellIs b _ _ (Some 0)); simpl; f_equal; lia.
Qed.

Lemma evaluateLine_fold (l : list Z) (count blocks empty : Z) :
  (foldl (evaluateLine_step b n row col dRow dCol player)
         (count, blocks, empty) l).1
  = (count
     + Z.of_nat (length (filter
                   (fun i => ownCell b n row col dRow dCol player i = true) l)),
     blocks
     + Z.of_nat (length (filter
                   (fun i => blockedCell b n row col dRow dCol player i = true) l))).
Proof.
  revert count blocks empty.
  induction l as [|i l IH]; intros count blocks empty.
  - simpl. by rewrite !Z.add_0_r.
  - cbn [foldl]. rewrite !filter_cons.
    pose proof (evaluateLine_step_counts count blocks empty i) as Hs.
    destruct (evaluateLine_step b n row col dRow dCol player
                (count, blocks, empty) i) as [[count' blocks'] empty'].
    simpl in Hs. injection Hs as -> ->. rewrite IH.
    destruct (ownCell b n row col dRow dCol player i),
             (blockedCell b n row col dRow dCol player i);
      simpl; f_equal; lia.
Qed.

End EvaluateLine.

(** C8. The score of a window is [0] when two or more of its five cells
    are blocked (off the board, or holding a stone that is not the
    player's); otherwise it is the entry of the table for the number of
    the player's stones in it and for whether a cell is blocked.  Three
    stones score 500 with no blocked cell and 100 with one. *)
Theorem evaluateLine_table
    (b : list (list Z)) (n row col dRow dCol player : Z) :
  let count := countWindow (ownCell b n row col dRow dCol player) in
  let blocks := countWindow (blockedCell b n row col dRow dCol player) in
  AIPlayer.evaluateLine b n row col dRow dCol player
  = (if 2 <=? blocks then 0 else lineTable count blocks)
  /\ (count = 3 -> blocks = 0 ->
      AIPlayer.evaluateLine b n row col dRow dCol player = 500)
  /\ (count = 3 -> blocks = 1 ->
      AIPlayer.evaluateLine b n row col dRow dCol player = 100).
Proof.
  intros count blocks.
  assert (H : AIPlayer.evaluateLine b n row col dRow dCol player
              = (if 2 <=? blocks then 0 else lineTable count blocks)).
  { unfold AIPlayer.evaluateLine.
    pose proof (evaluateLine_fold b n row col dRow dCol player (seqZ 0 5) 0 0 0)
      as Hfold.
    destruct (foldl _ _ _) as [[count' blocks'] empty'].
    simpl in Hfold. injection Hfold as -> ->.
    fold (countWindow (ownCell b n row col dRow dCol player)).
    fold (countWindow (blockedCell b n row col dRow dCol player)).
    fold count blocks. rewrite !Z.add_0_l.
    destruct (2 <=? blocks); [done|].
    assert (Hc : 0 <= count <= 5).
    { unfold count, countWindow.
      pose proof (length_filter (fun i => ownCell b n row col dRow dCol player i = true)
                                (seqZ 0 5)) as Hle.
      rewrite length_seqZ in Hle. lia. }
    unfold lineTable.
    destruct (decide (count = 5)) as [->|]; [done|].
    destruct (decide (count = 4)) as [->|]; [done|].
    destruct (decide (count = 3)) as [->|]; [done|].
    destruct (decide (count = 2)) as [->|]; [done|].
    destruct (decide (count = 1)) as [->|]; [done|].
    replace count with 0 by lia. done. }
  split; [done|]. split.
  - intros Hc Hb. rewrite H, Hc, Hb. done.
  - intros Hc Hb. rewrite H, Hc, Hb. done.
Qed.

(** ** Configuration and cell reads *)

Section Cells.

Import GameModel.

Lemma rd_replicate_inv n r c v :
  rd (replicate (Z.to_nat n) (replicate (Z.to_nat n) 0)) r c = Some v -> v = 0.
Proof.
  intros H. apply rd_Some in H as (_ & _ & line & Hl & Hv).
  apply lookup_replicate in Hl as [-> _].
  by apply lookup_replicate in Hv as [-> _].
Qed.

Lemma rd_wr_inv b r c v r' c' w :
  rd (wr b r c v) r' c' = Some w -> w = v \/ rd b r' c' = Some w.
Proof.
  intros H. destruct (decide ((r, c) = (r', c'))) as [E|E].
  - injection E as <- <-. left.
    destruct (rd b r c) as [w0|] eqn:Hrd.
    + rewrite (rd_wr_same _ _ _ _ _ Hrd) in H. congruence.
    + exfalso. apply rd_Some in H as (Hr & Hc & line & Hl & Hv).
      unfold rd, wr in *.
      replace (r <? 0) with false in * by lia.
      replace (c <? 0) with false in * by lia. simpl in *.
      rewrite list_lookup_alter_eq in Hl.
      destruct (b !! Z.to_nat r) as [line0|]; [|done].
      simpl in Hl. injection Hl as <-.
      apply lookup_lt_Some in Hv. rewrite length_insert in Hv.
      apply lookup_lt_is_Some_2 in Hv as [? Hv]. congruence.
  - right. by rewrite rd_wr_other in H.
Qed.

(** Every state of a game is a board of the data model, with black or
    white to move. *)
Lemma reachable_boardState g :
  reachable g ->
  boardState g /\ (currentPlayer g = 1 \/ currentPlayer g = 2).
Proof.
  induction 1 as [size|g row col now Hr [[Hgrid Hcells] Hp] Hv].
  - unfold setBoardSize.
    destruct ((size =? 15) || (size =? 19)); simpl.
    + split; [|by left]. split; [apply grid_replicate|].
      intros r c v H. left. exact (rd_replicate_inv size r c v H).
    + split; [|by left]. split; [apply (grid_replicate 15)|].
      intros r c v H. left. exact (rd_replicate_inv 15 r c v H).
  - destruct (makeMove_outcome g row col now Hv)
      as (F1 & F2 & _ & _ & _ & Hout).
    split.
    + split; [rewrite F1, F2; by apply grid_wr|].
      intros r c v H. rewrite F2 in H.
      apply rd_wr_inv in H as [->|H]; [lia|by eapply Hcells].
    + pose proof (makeMove_legal g row col now Hv) as Hm. cbv zeta in Hm.
      destruct (checkWin_frame (placed g row col now) row col)
        as (wl & Hwl & _).
      destruct (placed_fields g row col now) as (_ & _ & F3 & _).
      rewrite Hm. clear Hm Hout. cbn [snd]. rewrite Hwl. clear Hwl.
      destruct (checkWin _ row col).1; [simpl; rewrite ?F3; lia|].
      destruct (_ =? _ * _); simpl; rewrite ?F3; [lia|].
      destruct (currentPlayer g =? 1); lia.
Qed.

End Cells.

(** C10. On every board of the data model and for every two integers,
    [getCell] returns a number: [-1] off the board, and on the board the
    content of the cell, which is 0, 1 or 2.  It only reads the object. *)
Theorem getCell_total (g : GameModel) (row col : Z) :
  boardState g ->
  exists v,
    GameModel.getCell g row col = Some v
    /\ (GameModel.isValidPosition g row col = false -> v = -1)
    /\ (GameModel.isValidPosition g row col = true ->
        rd (board g) row col = Some v /\ (v = 0 \/ v = 1 \/ v = 2)).
Proof.
  intros [Hgrid Hcells]. unfold GameModel.getCell.
  destruct (GameModel.isValidPosition g row col) eqn:Hv.
  - destruct (grid_rd _ _ _ _ Hgrid Hv) as [v Hrd].
    exists v. split; [done|]. split; [done|]. intros _. split; [done|].
    by eapply Hcells.
  - exists (-1). split; [done|]. split; [done|]. done.
Qed.

(** C5, as the code has it.  [setBoardSize] with a size other than 15 and 19
    changes nothing and reports nothing: its result is the same
    [undefined] as for a size it accepts. *)
Lemma setBoardSize_invalid_silent :
  (10 <> 15 /\ 10 <> 19)
  /\ GameModel.setBoardSize GameModel.constructor 10 = (tt, GameModel.constructor)
  /\ (GameModel.setBoardSize GameModel.constructor 10).1
     = (GameModel.setBoardSize GameModel.constructor 15).1.
Proof. repeat split; lia. Qed.

(** C5, amended.  A new object configured with size 15 or 19 has an empty
    board of that size and black (player 1) to move, in a game in progress
    with no move made; with any other size [setBoardSize] leaves the object
    it is called on as it was, and returns nothing. *)
Theorem setBoardSize_spec (size : Z) :
  (size = 15 \/ size = 19 ->
   let g := (GameModel.setBoardSize GameModel.constructor size).2 in
   boardSize g = size
   /\ grid size (board g)
   /\ (forall r c, inBounds size r c = true -> rd (board g) r c = Some 0)
   /\ currentPlayer g = 1
   /\ gameStatus g = playing
   /\ moveCount g = 0
   /\ moveHistory g = [])
  /\ (size <> 15 -> size <> 19 ->
      forall g, GameModel.setBoardSize g size = (tt, g)).
Proof.
  split.
  - intros Hs. unfold GameModel.setBoardSize.
    replace ((size =? 15) || (size =? 19)) with true by lia. simpl.
    split; [done|]. split; [apply grid_replicate|].
    split; [apply rd_replicate|done].
  - intros H15 H19 g. unfold GameModel.setBoardSize.
    by replace ((size =? 15) || (size =? 19)) with false by lia.
Qed.

(** ** The search gives the game back *)

Section Search.

Import GameModel AIPlayer.

Lemma sameGame_consistent g g' : sameGame g g' -> consistent g -> consistent g'.
Proof.
  unfold sameGame, consistent.
  intros (-> & -> & _ & -> & -> & -> & _) H. done.
Qed.

Lemma sameGame_freeCell g g' cell : sameGame g g' -> freeCell g cell -> freeCell g' cell.
Proof.
  unfold sameGame, freeCell. intros (-> & -> & _) H. done.
Qed.

Lemma sameGame_isValidMove g g' row col :
  sameGame g g' -> isValidMove g' row col = isValidMove g row col.
Proof.
  unfold sameGame, isValidMove, isValidPosition.
  intros (-> & -> & _ & -> & _). done.
Qed.

Lemma undoMove_sameGame g g' :
  sameGame g g' -> sameGame (undoMove g).2 (undoMove g').2.
Proof.
  unfold sameGame. intros (H1 & H2 & H3 & H4 & H5 & H6 & H7 & H8).
  unfold undoMove. rewrite H7.
  destruct (pop (moveHistory g)) as [[lastMove rest]|]; simpl.
  - rewrite H4. destruct (bool_decide (gameStatus g = playing)); simpl;
      rewrite ?H1, ?H2, ?H5, ?H6, ?H8; done.
  - done.
Qed.

(** One trial of the search: the player [q] is put to move, the move is
    made, the search goes on, the move is undone and the player to move
    is put back. *)
Lemma trial_restores rec g row col now q maximizing alpha beta :
  restores rec ->
  consistent g -> gameStatus g = playing -> freeCell g (row, col) ->
  let g2 := (makeMove (with_currentPlayer g q) row col now).2 in
  let g3 := (rec g2 maximizing alpha beta).2 in
  sameGame g (with_currentPlayer (undoMove g3).2 (currentPlayer g)).
Proof.
  intros Hrec Hc Hp [Hb Hrd] g2 g3.
  set (g1 := with_currentPlayer g q).
  assert (Hc1 : consistent g1) by done.
  assert (Hv : isValidMove g1 row col = true).
  { apply isValidMove_iff. done. }
  destruct (makeMove_undoMove g1 row col now Hc1 Hv) as (_ & _ & Hsame).
  fold g2 in Hsame.
  assert (Hc2 : consistent g2) by (by apply makeMove_consistent).
  pose proof (undoMove_sameGame _ _ (Hrec g2 maximizing alpha beta Hc2)) as Hu.
  fold g3 in Hu.
  pose proof (sameGame_trans _ _ _ Hsame Hu) as H.
  unfold sameGame in *. simpl in *. tauto.
Qed.

(** After a trial the loop goes on from a state that is still consistent
    and in progress, with the same free cells. *)
Ltac loop_goes_on Hsame :=
  first
    [ by eapply sameGame_consistent
    | by destruct Hsame as (_ & _ & _ & -> & _)
    | eapply Forall_impl; [done|]; intros ?; by apply sameGame_freeCell ].

(** The maximizing loop hands the game back, and the move it returns is
    the one it started with or one of the moves it was given. *)
Lemma maxLoop_spec rec ai now moves g alpha beta maxScore bestMove :
  restores rec ->
  consistent g -> gameStatus g = playing ->
  Forall (freeCell g) moves ->
  let res := maxLoop rec ai now moves g alpha beta maxScore bestMove in
  sameGame g res.2
  /\ (move res.1 = bestMove \/ exists cell, cell ∈ moves /\ move res.1 = Some cell).
Proof.
  intros Hrec. revert g alpha maxScore bestMove.
  induction moves as [|[row col] moves IH];
    intros g alpha maxScore bestMove Hc Hp Hfree.
  - simpl. split; [apply sameGame_refl|by left].
  - apply Forall_cons in Hfree as [Hcell Hfree]. cbn [maxLoop].
    pose proof (trial_restores rec g row col now (player ai) false alpha beta
                  Hrec Hc Hp Hcell) as Hsame.
    cbv zeta in Hsame.
    destruct (rec _ false alpha beta) as [result g3]. cbn [snd] in Hsame.
    set (g5 := with_currentPlayer (undoMove g3).2 (currentPlayer g)) in *.
    destruct (score_ltb maxScore (score result)).
    + destruct (score_leb beta (score_max alpha (score result))).
      * simpl. split; [done|]. right. exists (row, col). split; [left|done].
      * destruct (IH g5 (score_max alpha (score result)) (score result)
                    (Some (row, col)))
          as [IH1 IH2]; [loop_goes_on Hsame..|].
        split; [by eapply sameGame_trans|].
        right. destruct IH2 as [IH2|(cell & Hin & IH2)].
        -- exists (row, col). split; [left|done].
        -- exists cell. split; [by right|done].
    + destruct (score_leb beta (score_max alpha (score result))).
      * simpl. split; [done|]. by left.
      * destruct (IH g5 (score_max alpha (score result)) maxScore bestMove)
          as [IH1 IH2]; [loop_goes_on Hsame..|].
        split; [by eapply sameGame_trans|].
        destruct IH2 as [IH2|(cell & Hin & IH2)]; [by left|].
        right. exists cell. split; [by right|done].
Qed.

(** The same for the minimizing loop. *)
Lemma minLoop_spec rec ai now moves g alpha beta minScore bestMove :
  restores rec ->
  consistent g -> gameStatus g = playing ->
  Forall (freeCell g) moves ->
  let res := minLoop rec ai now moves g alpha beta minScore bestMove in
  sameGame g res.2
  /\ (move res.1 = bestMove \/ exists cell, cell ∈ moves /\ move res.1 = Some cell).
Proof.
  intros Hrec. revert g beta minScore bestMove.
  induction moves as [|[row col] moves IH];
    intros g beta minScore bestMove Hc Hp Hfree.
  - simpl. split; [apply sameGame_refl|by left].
  - apply Forall_cons in Hfree as [Hcell Hfree]. cbn [minLoop].
    pose proof (trial_restores rec g row col now (opponent ai) true alpha beta
                  Hrec Hc Hp Hcell) as Hsame.
    cbv zeta in Hsame.
    destruct (rec _ true alpha beta) as [result g3]. cbn [snd] in Hsame.
    set (g5 := with_currentPlayer (undoMove g3).2 (currentPlayer g)) in *.
    destruct (score_ltb (score result) minScore).
    + destruct (score_leb (score_min beta (score result)) alpha).
      * simpl. split; [done|]. right. exists (row, col). split; [left|done].
      * destruct (IH g5 (score_min beta (score result)) (score result)
                    (Some (row, col)))
          as [IH1 IH2]; [loop_goes_on Hsame..|].
        split; [by eapply sameGame_trans|].
        right. destruct IH2 as [IH2|(cell & Hin & IH2)].
        -- exists (row, col). split; [left|done].
        -- exists cell. split; [by right|done].
    + destruct (score_leb (score_min beta (score result)) alpha).
      * simpl. split; [done|]. by left.
      * destruct (IH g5 (score_min beta (score result)) minScore bestMove)
          as [IH1 IH2]; [loop_goes_on Hsame..|].
        split; [by eapply sameGame_trans|].
        destruct IH2 as [IH2|(cell & Hin & IH2)]; [by left|].
        right. exists cell. split; [by right|done].
Qed.

End Search.

Section Candidates.

Import GameModel AIPlayer.

Lemma foldl_invariant {A B} (P : A -> Prop) (f : A -> B -> A) (l : list B) a :
  P a -> (forall a x, x ∈ l -> P a -> P (f a x)) -> P (foldl f a l).
Proof.
  revert a. induction l as [|x l IH]; intros a Ha Hf; [done|].
  simpl. apply IH.
  - apply Hf; [left|done].
  - intros a' x' Hx'. apply Hf. by right.
Qed.

Lemma setAdd_Forall (P : Cell -> Prop) k s :
  P k -> Forall P s -> Forall P (setAdd k s).
Proof.
  intros Hk Hs. unfold setAdd. destruct (bool_decide (k ∈ s)); [done|].
  apply Forall_app. split; [done|]. by apply Forall_singleton.
Qed.

Lemma elem_of_range lo hi x : x ∈ range lo hi <-> lo <= x <= hi.
Proof. unfold range. rewrite elem_of_seqZ. lia. Qed.

Lemma addEmpty_free g rows cols s :
  (forall r, r ∈ rows -> 0 <= r < boardSize g) ->
  (forall c, c ∈ cols -> 0 <= c < boardSize g) ->
  Forall (freeCell g) s -> Forall (freeCell g) (addEmpty g rows cols s).
Proof.
  intros Hrows Hcols Hs. unfold addEmpty.
  apply (foldl_invariant (Forall (freeCell g))); [done|].
  intros s1 r Hr Hs1.
  apply (foldl_invariant (Forall (freeCell g))); [done|].
  intros s2 c Hc Hs2.
  destruct (cellIs (board g) r c (Some 0)) eqn:He; [|done].
  apply setAdd_Forall; [|done]. split; simpl.
  - apply inBounds_iff. split; [by apply Hrows|by apply Hcols].
  - by apply cellIs_true.
Qed.

(** The candidate moves are empty cells of the board. *)
Lemma getRelevantEmptyCells_free g radius :
  Forall (freeCell g) (getRelevantEmptyCells g radius).
Proof.
  unfold getRelevantEmptyCells.
  cbv zeta.
  match goal with
  | |- context [bool_decide (length ?l = 0%nat)] => set (first := l)
  end.
  assert (Hfirst : Forall (freeCell g) first).
  { apply (foldl_invariant (Forall (freeCell g))); [done|].
    intros s [row col] _ Hs.
    destruct (negb (cellIs (board g) row col (Some 0))); [|done].
    apply addEmpty_free; [| |done].
    - intros r Hr. apply elem_of_range in Hr. lia.
    - intros c Hc. apply elem_of_range in Hc. lia. }
  destruct (bool_decide (length first = 0%nat)); [|done].
  apply (foldl_invariant (Forall (freeCell g))); [done|].
  intros s1 r _ Hs1.
  apply (foldl_invariant (Forall (freeCell g))); [done|].
  intros s2 c _ Hs2.
  destruct (isValidPosition g r c && cellIs (board g) r c (Some 0)) eqn:He;
    [|done].
  apply andb_true_iff in He as [Hb He].
  apply setAdd_Forall; [|done]. split; simpl; [done|by apply cellIs_true].
Qed.

Lemma sameGame_getRelevantEmptyCells g g' radius :
  sameGame g g' ->
  getRelevantEmptyCells g' radius = getRelevantEmptyCells g radius.
Proof.
  unfold sameGame. intros (H1 & H2 & _).
  unfold getRelevantEmptyCells, addEmpty, isValidPosition.
  by rewrite H1, H2.
Qed.

(** [minimax] hands the game back, at every depth. *)
Lemma minimax_restores ai now depth : restores (minimax ai now depth).
Proof.
  induction depth as [|depth IH]; intros g maximizing alpha beta Hc.
  - simpl. apply sameGame_refl.
  - cbn [minimax].
    destruct (bool_decide (gameStatus g = playing)) eqn:Hp; simpl.
    2:{ apply sameGame_refl. }
    apply bool_decide_eq_true in Hp.
    destruct maximizing.
    + apply maxLoop_spec; [done..|apply getRelevantEmptyCells_free].
    + apply minLoop_spec; [done..|apply getRelevantEmptyCells_free].
Qed.

(** The move [minimax] returns is one of the candidate moves. *)
Lemma minimax_move ai now depth g maximizing alpha beta cell :
  consistent g ->
  move (minimax ai now depth g maximizing alpha beta).1 = Some cell ->
  gameStatus g = playing /\ cell ∈ getRelevantEmptyCells g 2.
Proof.
  intros Hc. destruct depth as [|depth]; [done|]. cbn [minimax].
  destruct (bool_decide (gameStatus g = playing)) eqn:Hp; simpl; [|done].
  apply bool_decide_eq_true in Hp. intros Hm. split; [done|].
  destruct maximizing.
  - destruct (maxLoop_spec (minimax ai now depth) ai now
                (getRelevantEmptyCells g 2) g alpha beta NegInf None
                (minimax_restores ai now depth) Hc Hp
                (getRelevantEmptyCells_free g 2))
      as [_ [H|(cell' & Hin & H)]]; congruence.
  - destruct (minLoop_spec (minimax ai now depth) ai now
                (getRelevantEmptyCells g 2) g alpha beta PosInf None
                (minimax_restores ai now depth) Hc Hp
                (getRelevantEmptyCells_free g 2))
      as [_ [H|(cell' & Hin & H)]]; congruence.
Qed.

(** [getBestMove] hands the game back. *)
Lemma getBestMove_restores ai g now u1 u2 :
  consistent g -> sameGame g (getBestMove ai g now u1 u2).2.
Proof.
  intros Hc. unfold getBestMove.
  destruct (findWinningMove _ _ (player ai)) as [[winMove|] b1];
    [apply sameGame_refl|].
  destruct (findWinningMove _ _ (opponent ai)) as [[blockMove|] b2];
    [apply sameGame_refl|].
  pose proof (minimax_restores ai now (depth (currentSettings ai)) g true
                NegInf PosInf Hc) as Hsame.
  destruct (minimax _ _ _ _ _ _ _) as [result g']. simpl in Hsame.
  by destruct (move result).
Qed.

End Candidates.

(** C4. When [minimax] returns, at any depth and on either layer, and when
    [getBestMove] returns, the game object is as it was before the call in
    its size, grid, player to move, status, winner, winning line, history
    of moves and move count: every trial move has been undone.  This holds
    on every consistent state, so on every state of a game
    ([reachable_consistent]), in progress or not.  [startTime] is not
    among the fields given back. *)
Theorem search_restores_game
    (ai : AIPlayer) (g : GameModel) (now : Z) (d : nat) (maximizing : bool)
    (alpha beta : Score) (u1 u2 : Q) :
  consistent g ->
  sameGame g (AIPlayer.minimax ai now d g maximizing alpha beta).2
  /\ sameGame g (AIPlayer.getBestMove ai g now u1 u2).2.
Proof.
  intros Hc. split.
  - by apply minimax_restores.
  - by apply getBestMove_restores.
Qed.

(** ** The move selected is legal *)

Section Selection.

Import GameModel AIPlayer.

Lemma floorMul_range (u : Q) (k : Z) :
  (0 <= u)%Q -> (u < 1)%Q -> 0 < k -> 0 <= floorMul u k < k.
Proof.
  intros H0 H1 Hk. unfold floorMul.
  assert (Hk' : (0 < inject_Z k)%Q).
  { change 0%Q with (inject_Z 0). rewrite <- Zlt_Qlt. done. }
  split.
  - change 0 with (Qfloor 0). apply Qfloor_resp_le.
    apply Qmult_le_0_compat; [done|]. by apply Qlt_le_weak.
  - rewrite Zlt_Qlt. eapply Qle_lt_trans; [apply Qfloor_le|].
    rewrite <- (Qmult_1_l (inject_Z k)) at 2.
    by apply Qmult_lt_compat_r.
Qed.

Lemma nthJs_elem {A} (l : list A) i x : nthJs l i = Some x -> x ∈ l.
Proof.
  unfold nthJs. destruct (i <? 0); [done|]. apply list_elem_of_lookup_2.
Qed.

Lemma nthJs_is_Some {A} (l : list A) i :
  0 <= i < Z.of_nat (length l) -> is_Some (nthJs l i).
Proof.
  intros Hi. unfold nthJs. replace (i <? 0) with false by lia.
  apply lookup_lt_is_Some_2. lia.
Qed.

Lemma addRandomness_elem ai bestMove alternativeMoves u1 u2 m :
  addRandomness ai bestMove alternativeMoves u1 u2 = Some m ->
  m = bestMove \/ m ∈ alternativeMoves.
Proof.
  unfold addRandomness. destruct (_ && _).
  - intros H. right. by eapply nthJs_elem.
  - intros H. left. congruence.
Qed.

Lemma addRandomness_is_Some ai bestMove alternativeMoves u1 u2 :
  (0 <= u2)%Q -> (u2 < 1)%Q ->
  is_Some (addRandomness ai bestMove alternativeMoves u1 u2).
Proof.
  intros H0 H1. unfold addRandomness.
  destruct (negb _) eqn:Hr; simpl; [|done].
  destruct (1 <? Z.of_nat (length alternativeMoves)) eqn:Hlen; [|done].
  apply nthJs_is_Some.
  pose proof (floorMul_range u2 (Z.min 3 (Z.of_nat (length alternativeMoves)))
                H0 H1 ltac:(lia)).
  lia.
Qed.

Lemma getEmptyCells_elem g cell : cell ∈ getEmptyCells g <-> freeCell g cell.
Proof.
  unfold getEmptyCells, freeCell. rewrite list_elem_of_filter, cellIs_true.
  destruct cell as [r c]. rewrite allCells_elem. simpl. tauto.
Qed.

Lemma getCell_empty g r c : getCell g r c = Some 0 <-> freeCell g (r, c).
Proof.
  unfold getCell, freeCell, isValidPosition. simpl.
  destruct (inBounds (boardSize g) r c); [tauto|].
  split; [discriminate|]. by intros [? _].
Qed.

(** The fallback returns an empty cell of the board, and returns one
    whenever there is one. *)
Lemma getRandomCenterMove_free g u cell :
  getRandomCenterMove g u = Some cell -> freeCell g cell.
Proof.
  unfold getRandomCenterMove. cbv zeta.
  destruct (_ && _).
  - intros H. apply nthJs_elem in H. by apply getEmptyCells_elem.
  - intros H. apply nthJs_elem in H.
    apply list_elem_of_filter in H as [H _].
    destruct cell as [r c]. by apply getCell_empty.
Qed.

Lemma getRandomCenterMove_is_Some g u :
  (0 <= u)%Q -> (u < 1)%Q ->
  (exists cell, freeCell g cell) ->
  is_Some (getRandomCenterMove g u).
Proof.
  intros H0 H1 [cell Hfree]. apply getEmptyCells_elem in Hfree.
  unfold getRandomCenterMove. cbv zeta.
  match goal with
  | |- context [bool_decide (length ?l = 0%nat)] => set (moves := l)
  end.
  assert (Hlen : (0 < length (getEmptyCells g))%nat).
  { destruct (getEmptyCells g); [by apply elem_of_nil in Hfree|simpl; lia]. }
  destruct (bool_decide (length moves = 0%nat)) eqn:Hm; simpl.
  - replace (0 <? Z.of_nat (length (getEmptyCells g))) with true by lia.
    apply nthJs_is_Some. apply floorMul_range; [done..|lia].
  - apply bool_decide_eq_false in Hm.
    apply nthJs_is_Some. apply floorMul_range; [done..|lia].
Qed.

Lemma freeCell_isValidMove g r c :
  gameStatus g = playing -> freeCell g (r, c) -> isValidMove g r c = true.
Proof. intros Hp [Hb Hrd]. by apply isValidMove_iff. Qed.

(** The cell [getBestMove] returns is an empty cell of the board. *)
Lemma getBestMove_free ai g now u1 u2 cell :
  consistent g ->
  (getBestMove ai g now u1 u2).1 = Some cell -> freeCell g cell.
Proof.
  intros Hc. unfold getBestMove. rewrite getBoardCopy_board.
  pose proof (findWinningMove_board (board g) (boardSize g) (player ai)) as Hb1.
  destruct (findWinningMove _ _ (player ai)) as [[[r c]|] b1] eqn:H1.
  { rewrite addRandomness_singleton. simpl. intros [= <-].
    destruct (findWinningMove_Some (board g) (boardSize g) (player ai) r c)
      as (? & ? & _); [by rewrite H1|done]. }
  simpl in Hb1. subst b1.
  destruct (findWinningMove _ _ (opponent ai)) as [[[r c]|] b2] eqn:H2.
  { rewrite addRandomness_singleton. simpl. intros [= <-].
    destruct (findWinningMove_Some (board g) (boardSize g) (opponent ai) r c)
      as (? & ? & _); [by rewrite H2|done]. }
  pose proof (minimax_restores ai now (depth (currentSettings ai)) g true
                NegInf PosInf Hc) as Hsame.
  pose proof (minimax_move ai now (depth (currentSettings ai)) g true
                NegInf PosInf) as Hmove.
  destruct (minimax _ _ _ _ _ _ _) as [result g']. simpl in Hsame, Hmove.
  assert (Hback : forall x, freeCell g' x -> freeCell g x).
  { intros x. unfold freeCell.
    destruct Hsame as (-> & -> & _). done. }
  destruct (move result) as [bestMove|]; simpl.
  - destruct (Hmove bestMove Hc eq_refl) as [_ Hin].
    rewrite (sameGame_getRelevantEmptyCells g g' 2 Hsame).
    pose proof (getRelevantEmptyCells_free g 2) as Hfree.
    rewrite Forall_forall in Hfree.
    intros H. apply addRandomness_elem in H as [->|H]; by apply Hfree.
  - intros H. by apply Hback, (getRandomCenterMove_free g' u1).
Qed.

(** [getBestMove] returns a cell whenever the board has an empty one. *)
Lemma getBestMove_is_Some ai g now u1 u2 :
  consistent g ->
  (0 <= u1)%Q -> (u1 < 1)%Q -> (0 <= u2)%Q -> (u2 < 1)%Q ->
  (exists cell, freeCell g cell) ->
  is_Some (getBestMove ai g now u1 u2).1.
Proof.
  intros Hc Hu1 Hu1' Hu2 Hu2' Hfree. unfold getBestMove.
  destruct (findWinningMove _ _ (player ai)) as [[winMove|] b1].
  { simpl. by apply addRandomness_is_Some. }
  destruct (findWinningMove _ _ (opponent ai)) as [[blockMove|] b2].
  { simpl. by apply addRandomness_is_Some. }
  pose proof (minimax_restores ai now (depth (currentSettings ai)) g true
                NegInf PosInf Hc) as Hsame.
  destruct (minimax _ _ _ _ _ _ _) as [result g']. simpl in Hsame.
  destruct (move result) as [bestMove|]; simpl.
  - by apply addRandomness_is_Some.
  - apply getRandomCenterMove_is_Some; [done..|].
    destruct Hfree as [cell Hfree]. exists cell.
    by eapply sameGame_freeCell.
Qed.

End Selection.

(** C3. On a game in progress, the cell [getBestMove] returns is a legal
    move of the game it was given, whatever the draws; and when the board
    has an empty cell it does return a cell ([null] and [undefined] are
    [None]), for draws of [Math.random()] in the interval [0, 1). *)
Theorem getBestMove_legal
    (ai : AIPlayer) (g : GameModel) (now : Z) (u1 u2 : Q) :
  consistent g ->
  gameStatus g = playing ->
  (forall row col,
     (AIPlayer.getBestMove ai g now u1 u2).1 = Some (row, col) ->
     GameModel.isValidMove g row col = true)
  /\ ((0 <= u1)%Q -> (u1 < 1)%Q -> (0 <= u2)%Q -> (u2 < 1)%Q ->
      (exists r c, GameModel.isValidPosition g r c = true
                   /\ rd (board g) r c = Some 0) ->
      exists row col,
        (AIPlayer.getBestMove ai g now u1 u2).1 = Some (row, col)
        /\ GameModel.isValidMove g row col = true).
Proof.
  intros Hc Hp.
  assert (Hlegal : forall row col,
             (AIPlayer.getBestMove ai g now u1 u2).1 = Some (row, col) ->
             GameModel.isValidMove g row col = true).
  { intros row col H. apply freeCell_isValidMove; [done|].
    by eapply getBestMove_free. }
  split; [done|].
  intros Hu1 Hu1' Hu2 Hu2' (r & c & Hb & Hrd).
  destruct (getBestMove_is_Some ai g now u1 u2 Hc Hu1 Hu1' Hu2 Hu2')
    as [[row col] Hsome].
  { by exists (r, c). }
  exists row, col. split; [done|]. by apply Hlegal.
Qed.

(** * The properties on concrete games *)

(** The scenarios of the specification, run on the model. *)
Example fourGame_playing :
  legalSeq newGame (take 7 columnMoves) = true /\ gameStatus fourGame = playing.
Proof. split; vm_compute; reflexivity. Qed.

Example wonGame_won :
  legalSeq newGame columnMoves = true
  /\ gameStatus wonGame = won
  /\ winner wonGame = Some 1
  /\ winLine wonGame = [(7, 7); (8, 7); (9, 7); (10, 7); (11, 7)].
Proof. repeat split; vm_compute; reflexivity. Qed.

Example candidates_newGame :
  GameModel.getRelevantEmptyCells newGame 2
  = [(6, 6); (6, 7); (6, 8); (7, 6); (7, 7); (7, 8); (8, 6); (8, 7); (8, 8)].
Proof. vm_compute. reflexivity. Qed.

Example evaluateLine_three :
  AIPlayer.evaluateLine threeBoard 15 7 5 0 1 2 = 500
  /\ AIPlayer.evaluateLine threeBoard 15 0 11 0 1 2 = 100.
Proof. split; vm_compute; reflexivity. Qed.

Example whiteFour_win :
  (AIPlayer.findWinningMove (board whiteFourGame) 15 2).1 = Some (7, 4).
Proof. vm_compute. reflexivity. Qed.

Lemma play_reachable (g : GameModel) (moves : list Cell) :
  reachable g -> legalSeq g moves = true -> reachable (play g moves).
Proof.
  revert g. induction moves as [|[r c] moves IH]; intros g Hr Hl; [done|].
  simpl in Hl. apply andb_true_iff in Hl as [Hv Hl].
  apply IH; [|done]. by apply reach_move.
Qed.

Lemma newGame_reachable : reachable newGame.
Proof. apply reach_fresh. Qed.

Lemma wonGame_reachable : reachable wonGame.
Proof.
  apply play_reachable; [apply newGame_reachable|]. vm_compute. reflexivity.
Qed.

Lemma whiteFourGame_consistent : consistent whiteFourGame.
Proof.
  split; [|done]. unfold whiteFourGame. simpl.
  do 4 apply grid_wr. apply (grid_replicate 15).
Qed.

(** ** Instances of the theorems *)

(** C1 on the first move of a new game. *)
Lemma makeMove_undoMove_roundtrip_witness :
  reachable newGame
  /\ GameModel.isValidMove newGame 7 7 = true
  /\ (let g1 := (GameModel.makeMove newGame 7 7 0).2 in
      let g2 := (GameModel.undoMove g1).2 in
      (GameModel.makeMove newGame 7 7 0).1 = true
      /\ (GameModel.undoMove g1).1 = true
      /\ board g2 = board newGame
      /\ currentPlayer g2 = currentPlayer newGame
      /\ moveCount g2 = moveCount newGame
      /\ gameStatus g2 = gameStatus newGame
      /\ winner g2 = winner newGame
      /\ winLine g2 = winLine newGame
      /\ moveHistory g2 = moveHistory newGame).
Proof.
  split; [apply newGame_reachable|]. split; [vm_compute; reflexivity|].
  apply makeMove_undoMove_roundtrip;
    [apply newGame_reachable | vm_compute; reflexivity].
Defined.

(** C2 on the game black wins down column 7. *)
Lemma won_winLine_witness :
  reachable wonGame
  /\ gameStatus wonGame = won
  /\ exists m p dRow dCol back fwd,
      last (moveHistory wonGame) = Some m
      /\ winner wonGame = Some p
      /\ mv_player m = p
      /\ (dRow, dCol) ∈ directions
      /\ runThrough (board wonGame) (boardSize wonGame) (Some p)
                    (mv_row m) (mv_col m) dRow dCol back fwd
      /\ (5 <= back + 1 + fwd)%nat
      /\ winLine wonGame
         = take 5 (cellsFrom (mv_row m - Z.of_nat back * dRow)
                             (mv_col m - Z.of_nat back * dCol)
                             dRow dCol (back + 1 + fwd))
      /\ length (winLine wonGame) = 5%nat
      /\ (forall i : nat, (i < 5)%nat ->
            winLine wonGame !! i
            = Some (mv_row m - Z.of_nat back * dRow + Z.of_nat i * dRow,
                    mv_col m - Z.of_nat back * dCol + Z.of_nat i * dCol))
      /\ (forall cell, cell ∈ winLine wonGame ->
            inBounds (boardSize wonGame) cell.1 cell.2 = true
            /\ rd (board wonGame) cell.1 cell.2 = Some p).
Proof.
  split; [apply wonGame_reachable|]. split; [vm_compute; reflexivity|].
  apply won_winLine; [apply wonGame_reachable | vm_compute; reflexivity].
Defined.

(** C3 on a new game, with both draws at one half. *)
Lemma getBestMove_legal_witness :
  consistent newGame
  /\ gameStatus newGame = playing
  /\ ((0 <= 1 # 2)%Q /\ (1 # 2 < 1)%Q)
  /\ (exists r c, GameModel.isValidPosition newGame r c = true
                  /\ rd (board newGame) r c = Some 0)
  /\ (forall row col,
        (AIPlayer.getBestMove (AIPlayer.constructor medium) newGame 0
                              (1 # 2) (1 # 2)).1 = Some (row, col) ->
        GameModel.isValidMove newGame row col = true)
  /\ (exists row col,
        (AIPlayer.getBestMove (AIPlayer.constructor medium) newGame 0
                              (1 # 2) (1 # 2)).1 = Some (row, col)
        /\ GameModel.isValidMove newGame row col = true).
Proof.
  assert (Hc : consistent newGame)
    by exact (reachable_consistent newGame newGame_reachable).
  assert (Hp : gameStatus newGame = playing) by (vm_compute; reflexivity).
  assert (H0 : (0 <= 1 # 2)%Q) by (vm_compute; discriminate).
  assert (H1 : (1 # 2 < 1)%Q) by (vm_compute; reflexivity).
  assert (He : exists r c, GameModel.isValidPosition newGame r c = true
                           /\ rd (board newGame) r c = Some 0).
  { exists 7, 7. split; vm_compute; reflexivity. }
  split; [exact Hc|]. split; [exact Hp|]. split; [exact (conj H0 H1)|].
  split; [exact He|].
  destruct (getBestMove_legal (AIPlayer.constructor medium) newGame 0
              (1 # 2) (1 # 2) Hc Hp) as [Hlegal Hsome].
  split; [exact Hlegal|]. exact (Hsome H0 H1 H0 H1 He).
Defined.

(** C4 on a new game, for a search of depth 4. *)
Lemma search_restores_game_witness :
  consistent newGame
  /\ sameGame newGame
       (AIPlayer.minimax (AIPlayer.constructor hard) 0 4 newGame true
                         NegInf PosInf).2
  /\ sameGame newGame
       (AIPlayer.getBestMove (AIPlayer.constructor hard) newGame 0
                             (1 # 2) (1 # 2)).2.
Proof.
  split; [exact (reachable_consistent newGame newGame_reachable)|].
  apply search_restores_game.
  exact (reachable_consistent newGame newGame_reachable).
Defined.

(** C5, amended, at the sizes 19 and 10. *)
Lemma setBoardSize_spec_witness :
  (19 = 15 \/ 19 = 19)
  /\ boardSize (GameModel.setBoardSize GameModel.constructor 19).2 = 19
  /\ currentPlayer (GameModel.setBoardSize GameModel.constructor 19).2 = 1
  /\ (10 <> 15 /\ 10 <> 19)
  /\ GameModel.setBoardSize wonGame 10 = (tt, wonGame).
Proof.
  assert (H19 : 19 = 15 \/ 19 = 19) by (right; reflexivity).
  assert (H10 : 10 <> 15) by lia.
  assert (H10' : 10 <> 19) by lia.
  split; [exact H19|].
  destruct (setBoardSize_spec 19) as [Hok _].
  destruct (Hok H19) as (Hsize & _ & _ & Hplayer & _).
  split; [exact Hsize|]. split; [exact Hplayer|].
  split; [exact (conj H10 H10')|].
  destruct (setBoardSize_spec 10) as [_ Hno].
  exact (Hno H10 H10' wonGame).
Defined.

(** C6 on the game black wins down column 7. *)
Lemma draw_iff_witness :
  reachable wonGame
  /\ (gameStatus wonGame = draw <->
      moveCount wonGame = boardSize wonGame * boardSize wonGame
      /\ ~ lastMoveWins wonGame)
  /\ (forall m, last (moveHistory wonGame) = Some m ->
       (GameModel.checkWin wonGame (mv_row m) (mv_col m)).1 = true <->
       lastMoveWins wonGame).
Proof.
  split; [apply wonGame_reachable|].
  apply draw_iff. apply wonGame_reachable.
Defined.

(** C7 on the board with four white stones in row 7. *)
Lemma open_four_completed_witness :
  openFour (board whiteFourGame) (boardSize whiteFourGame)
           (player (AIPlayer.constructor easy))
  /\ exists row col,
      AIPlayer.getBestMove (AIPlayer.constructor easy) whiteFourGame 0
                           (1 # 100) (99 # 100)
      = (Some (row, col), whiteFourGame)
      /\ (AIPlayer.findWinningMove (board whiteFourGame)
            (boardSize whiteFourGame) (player (AIPlayer.constructor easy))).1
         = Some (row, col)
      /\ inBounds (boardSize whiteFourGame) row col = true
      /\ rd (board whiteFourGame) row col = Some 0
      /\ fiveInRow (wr (board whiteFourGame) row col
                       (player (AIPlayer.constructor easy)))
                   (boardSize whiteFourGame)
                   (player (AIPlayer.constructor easy)) row col.
Proof.
  assert (Hopen : openFour (board whiteFourGame) (boardSize whiteFourGame)
                           (player (AIPlayer.constructor easy))).
  { exists 7, 5, 0, 1. split; [left|]. split.
    - intros i Hi. destruct i as [|[|[|[|i]]]]; [vm_compute; reflexivity..|lia].
    - split; vm_compute; reflexivity. }
  split; [exact Hopen|].
  exact (open_four_completed (AIPlayer.constructor easy) whiteFourGame 0
           (1 # 100) (99 # 100) Hopen).
Defined.

(** C8 on the two windows of three white stones. *)
Lemma evaluateLine_table_witness :
  (countWindow (ownCell threeBoard 15 7 5 0 1 2) = 3
   /\ countWindow (blockedCell threeBoard 15 7 5 0 1 2) = 0
   /\ AIPlayer.evaluateLine threeBoard 15 7 5 0 1 2 = 500)
  /\ (countWindow (ownCell threeBoard 15 0 11 0 1 2) = 3
      /\ countWindow (blockedCell threeBoard 15 0 11 0 1 2) = 1
      /\ AIPlayer.evaluateLine threeBoard 15 0 11 0 1 2 = 100).
Proof.
  assert (Hc : countWindow (ownCell threeBoard 15 7 5 0 1 2) = 3)
    by (vm_compute; reflexivity).
  assert (Hb : countWindow (blockedCell threeBoard 15 7 5 0 1 2) = 0)
    by (vm_compute; reflexivity).
  assert (Hc' : countWindow (ownCell threeBoard 15 0 11 0 1 2) = 3)
    by (vm_compute; reflexivity).
  assert (Hb' : countWindow (blockedCell threeBoard 15 0 11 0 1 2) = 1)
    by (vm_compute; reflexivity).
  split.
  - split; [exact Hc|]. split; [exact Hb|].
    destruct (evaluateLine_table threeBoard 15 7 5 0 1 2) as (_ & H & _).
    exact (H Hc Hb).
  - split; [exact Hc'|]. split; [exact Hb'|].
    destruct (evaluateLine_table threeBoard 15 0 11 0 1 2) as (_ & _ & H).
    exact (H Hc' Hb').
Defined.

(** C9 on the board with four white stones in row 7, with a first draw
    under the randomness of the easy tier. *)
Lemma immediate_move_not_randomized_witness :
  (AIPlayer.findWinningMove (GameModel.getBoardCopy whiteFourGame)
     (boardSize whiteFourGame) (player (AIPlayer.constructor easy))).1
  = Some (7, 4)
  /\ AIPlayer.addRandomness (AIPlayer.constructor easy) (7, 4) [(7, 4)]
                            (1 # 100) (99 # 100) = Some (7, 4)
  /\ (AIPlayer.getBestMove (AIPlayer.constructor easy) whiteFourGame 0
                           (1 # 100) (99 # 100)).1 = Some (7, 4).
Proof.
  assert (H : (AIPlayer.findWinningMove (GameModel.getBoardCopy whiteFourGame)
                 (boardSize whiteFourGame)
                 (player (AIPlayer.constructor easy))).1 = Some (7, 4))
    by (vm_compute; reflexivity).
  split; [exact H|].
  exact (immediate_move_not_randomized (AIPlayer.constructor easy)
           whiteFourGame 0 (1 # 100) (99 # 100) (7, 4) (or_introl H)).
Defined.

(** C10 on the game black wins down column 7, on and off the board. *)
Lemma getCell_total_witness :
  boardState wonGame
  /\ (exists v,
        GameModel.getCell wonGame 7 7 = Some v
        /\ (GameModel.isValidPosition wonGame 7 7 = false -> v = -1)
        /\ (GameModel.isValidPosition wonGame 7 7 = true ->
            rd (board wonGame) 7 7 = Some v /\ (v = 0 \/ v = 1 \/ v = 2)))
  /\ (exists v,
        GameModel.getCell wonGame (-1) 15 = Some v
        /\ (GameModel.isValidPosition wonGame (-1) 15 = false -> v = -1)
        /\ (GameModel.isValidPosition wonGame (-1) 15 = true ->
            rd (board wonGame) (-1) 15 = Some v /\ (v = 0 \/ v = 1 \/ v = 2))).
Proof.
  assert (Hb : boardState wonGame)
    by exact (proj1 (reachable_boardState wonGame wonGame_reachable)).
  split; [exact Hb|]. split.
  - exact (getCell_total wonGame 7 7 Hb).
  - exact (getCell_total wonGame (-1) 15 Hb).
Defined.

(** [startTime] is the one field a search may leave changed: a trial move
    on a board with no move made starts the timer, and [undoMove] does not
    stop it. *)
Example search_startTime :
  startTime newGame = None
  /\ startTime (AIPlayer.minimax (AIPlayer.constructor easy) 0 1 newGame true
                                 NegInf PosInf).2 = Some 0.
Proof. split; vm_compute; reflexivity. Qed.

(** * Further properties of the code *)

(** ** The board and the history *)

Section History.

Import GameModel.

Lemma playerAt_cases i : playerAt i = 1 \/ playerAt i = 2.
Proof. unfold playerAt. destruct (Nat.even i); lia. Qed.

Lemma playerAt_S i : playerAt (S i) = if playerAt i =? 1 then 2 else 1.
Proof.
  unfold playerAt. rewrite Nat.even_succ, <- Nat.negb_even.
  by destruct (Nat.even i).
Qed.

Lemma fresh_board size r c v :
  rd (board (setBoardSize constructor size).2) r c = Some v -> v = 0.
Proof.
  unfold setBoardSize. destruct ((size =? 15) || (size =? 19)); simpl.
  - apply rd_replicate_inv.
  - apply (rd_replicate_inv 15).
Qed.

Lemma fresh_grid size :
  grid (boardSize (setBoardSize constructor size).2)
       (board (setBoardSize constructor size).2).
Proof.
  apply (setBoardSize_consistent constructor size constructor_consistent).
Qed.

Lemma reachable_replayed g :
  reachable g -> replayed g /\ currentPlayer g = turnOf g.
Proof.
  induction 1 as [size|g row col now Hr [(Hcount & Hnd & Hmoves & Hcells) Hturn] Hv].
  - destruct (fresh_playing size) as (Hs & Hc & Hh & _).
    unfold replayed, positions, turnOf. rewrite Hs, Hc, Hh. simpl.
    split; [|by destruct (decide (size = 15 \/ size = 19));
               unfold setBoardSize; destruct (_ || _)].
    split; [done|]. split; [constructor|]. split; [done|].
    intros r c Hb. split; [intros _; apply not_elem_of_nil|]. intros _.
    destruct (grid_rd _ _ r c (fresh_grid size) Hb) as [v Hrd].
    by rewrite Hrd, (fresh_board size r c v Hrd).
  - destruct (makeMove_outcome g row col now Hv)
      as (F1 & F2 & Hcell & F3 & F4 & Hout).
    apply isValidMove_iff in Hv as (Hb & Hrd & Hst).
    assert (Hp : currentPlayer g = playerAt (length (moveHistory g))).
    { rewrite Hturn. unfold turnOf. by rewrite bool_decide_eq_true_2. }
    assert (Hp0 : currentPlayer g <> 0).
    { rewrite Hp. destruct (playerAt_cases (length (moveHistory g))); lia. }
    set (g' := (makeMove g row col now).2) in *.
    split.
    + unfold replayed, positions. rewrite F1, F3, F4, length_app, fmap_app. simpl.
      split; [lia|]. split.
      { apply NoDup_app. split; [done|]. split; [|apply NoDup_singleton].
        intros x Hx Hx'. apply list_elem_of_singleton in Hx'. subst x.
        by apply (Hcells row col Hb) in Hx. }
      split.
      { intros i m Hi. apply lookup_app_Some in Hi as [Hi|[Hlen Hi]].
        - destruct (Hmoves i m Hi) as (Hm1 & Hm2 & Hm3).
          split; [done|]. split; [done|]. rewrite F2, rd_wr_other; [done|].
          intros E. injection E as E1 E2. rewrite <- E1, <- E2, Hrd in Hm3.
          destruct (playerAt_cases i); congruence.
        - apply list_lookup_singleton_Some in Hi as [Hi <-]. simpl.
          split; [rewrite Hp; f_equal; lia|]. split; [done|]. done. }
      intros r c Hb'. rewrite F2, elem_of_app, list_elem_of_singleton.
      destruct (decide ((row, col) = (r, c))) as [E|E].
      * injection E as <- <-. rewrite (rd_wr_same _ _ _ _ _ Hrd).
        split; [intros [=]; done|]. intros H. exfalso. apply H. by right.
      * rewrite rd_wr_other by done. rewrite (Hcells r c Hb').
        split; [intros H [H'|H']; [done|congruence]|]. intros H H'. apply H.
        by left.
    + unfold turnOf. rewrite F3, length_app. simpl.
      pose proof (makeMove_legal g row col now) as Hm. cbv zeta in Hm.
      clear F1 F2 F3 F4 Hcell Hout. subst g'.
      rewrite Hm by (by apply isValidMove_iff). clear Hm. cbn [snd].
      destruct (checkWin_frame (placed g row col now) row col) as (wl & -> & _).
      destruct (placed_fields g row col now) as (_ & _ & P3 & P4 & _).
      destruct (checkWin _ row col).1; simpl.
      { rewrite P3, Hp. f_equal. lia. }
      destruct (_ =? _ * _); simpl.
      { rewrite P3, Hp. f_equal. lia. }
      rewrite P3, Hp. replace (length (moveHistory g) + 1)%nat
        with (S (length (moveHistory g))) by lia.
      by rewrite P4, Hst, bool_decide_eq_true_2, playerAt_S.
Qed.

End History.

(** X1. In every state reached by legal moves the board is the replay of
    the history: the move count is the number of moves recorded, no cell
    is recorded twice, every recorded cell is on the board and holds the
    stone of the player recorded with it, and a cell of the board is empty
    exactly when it is not recorded. *)
Theorem board_replays_history (g : GameModel) :
  reachable g ->
  moveCount g = Z.of_nat (length (moveHistory g))
  /\ NoDup (positions g)
  /\ (forall m, m ∈ moveHistory g ->
        inBounds (boardSize g) (mv_row m) (mv_col m) = true
        /\ rd (board g) (mv_row m) (mv_col m) = Some (mv_player m)
        /\ (mv_player m = 1 \/ mv_player m = 2))
  /\ (forall r c, inBounds (boardSize g) r c = true ->
        (rd (board g) r c = Some 0 <-> (r, c) ∉ positions g)).
Proof.
  intros Hr. destruct (reachable_replayed g Hr) as [(H1 & H2 & H3 & H4) _].
  split; [done|]. split; [done|]. split; [|done].
  intros m Hm. apply list_elem_of_lookup in Hm as [i Hi].
  destruct (H3 i m Hi) as (Hp & Hb & Hrd). split; [done|]. split; [done|].
  rewrite Hp. apply playerAt_cases.
Qed.

Lemma board_replays_history_witness :
  reachable wonGame
  /\ moveCount wonGame = Z.of_nat (length (moveHistory wonGame))
  /\ NoDup (positions wonGame)
  /\ (forall m, m ∈ moveHistory wonGame ->
        inBounds (boardSize wonGame) (mv_row m) (mv_col m) = true
        /\ rd (board wonGame) (mv_row m) (mv_col m) = Some (mv_player m)
        /\ (mv_player m = 1 \/ mv_player m = 2))
  /\ (forall r c, inBounds (boardSize wonGame) r c = true ->
        (rd (board wonGame) r c = Some 0 <-> (r, c) ∉ positions wonGame)).
Proof.
  split; [apply wonGame_reachable|].
  apply board_replays_history. apply wonGame_reachable.
Defined.

(** X2. The turns alternate from black: the move of index [i] is black's
    when [i] is even and white's when it is odd; while the game goes on the
    player to move is the one whose index comes next, and once it is over
    the player to move stays the one who moved last, who is the winner of
    a won game. *)
Theorem turns_alternate (g : GameModel) :
  reachable g ->
  (forall (i : nat) m, moveHistory g !! i = Some m -> mv_player m = playerAt i)
  /\ (gameStatus g = playing ->
      currentPlayer g = playerAt (length (moveHistory g)))
  /\ (gameStatus g <> playing ->
      exists m, last (moveHistory g) = Some m /\ currentPlayer g = mv_player m)
  /\ (gameStatus g = won -> winner g = Some (currentPlayer g)).
Proof.
  intros Hr. destruct (reachable_replayed g Hr) as [(H1 & H2 & H3 & H4) Hturn].
  unfold turnOf in Hturn.
  assert (Hover : gameStatus g <> playing ->
            exists m, last (moveHistory g) = Some m
                      /\ currentPlayer g = mv_player m
                      /\ (gameStatus g = won -> winner g = Some (mv_player m))).
  { intros Hs. rewrite bool_decide_eq_false_2 in Hturn by done.
    destruct Hr as [size|g0 row col now Hr Hv].
    { by destruct (fresh_playing size) as [? _]. }
    destruct (makeMove_outcome g0 row col now Hv) as (_ & _ & _ & F3 & _ & Hout).
    set (g := (GameModel.makeMove g0 row col now).2) in *.
    eexists. split; [by rewrite F3, last_snoc|].
    rewrite F3 in H3.
    destruct (H3 (length (moveHistory g0)) (mkMove row col (currentPlayer g0) now))
      as [Hp _].
    { by rewrite lookup_app_r, Nat.sub_diag by lia. }
    split.
    - rewrite Hturn, Hp, F3, length_app. simpl. f_equal. lia.
    - simpl. intros Hw.
      destruct Hout as [(_ & Hwin & _)|[(_ & _ & Hd)|(_ & _ & Hpl & _)]];
        [done|congruence..]. }
  split; [intros i m Hi; by destruct (H3 i m Hi)|].
  split; [intros Hs; by rewrite bool_decide_eq_true_2 in Hturn|].
  split.
  - intros Hs. destruct (Hover Hs) as (m & Hl & Hc & _). by exists m.
  - intros Hw. destruct Hover as (m & Hl & Hc & Hwin); [congruence|].
    rewrite Hc. by apply Hwin.
Qed.

Lemma turns_alternate_witness :
  reachable wonGame
  /\ (forall (i : nat) m,
        moveHistory wonGame !! i = Some m -> mv_player m = playerAt i)
  /\ (gameStatus wonGame = playing ->
      currentPlayer wonGame = playerAt (length (moveHistory wonGame)))
  /\ (gameStatus wonGame <> playing ->
      exists m, last (moveHistory wonGame) = Some m
                /\ currentPlayer wonGame = mv_player m)
  /\ (gameStatus wonGame = won -> winner wonGame = Some (currentPlayer wonGame)).
Proof.
  split; [apply wonGame_reachable|].
  apply turns_alternate. apply wonGame_reachable.
Defined.

(** ** Undoing a sequence of moves *)

Section UndoSequence.

Import GameModel.

Lemma undoMove_consistent g : consistent g -> consistent (undoMove g).2.
Proof.
  intros [Hgrid Hplay]. unfold undoMove.
  destruct (pop (moveHistory g)) as [[lastMove rest]|]; [|done]. simpl.
  destruct (bool_decide (gameStatus g = playing)) eqn:Hs; simpl.
  - apply bool_decide_eq_true in Hs. split; [by apply grid_wr|done].
  - split; [by apply grid_wr|done].
Qed.

Lemma undoMove_fst_sameGame g g' :
  sameGame g g' -> (undoMove g').1 = (undoMove g).1.
Proof.
  intros (_ & _ & _ & _ & _ & _ & H7 & _). unfold undoMove. rewrite H7.
  by destruct (pop (moveHistory g)) as [[lastMove rest]|].
Qed.

Lemma undoN_sameGame k g g' :
  sameGame g g' ->
  (undoN k g').1 = (undoN k g).1 /\ sameGame (undoN k g).2 (undoN k g').2.
Proof.
  revert g g'. induction k as [|k IH]; intros g g' Hs; [done|].
  simpl. pose proof (undoMove_fst_sameGame g g' Hs) as H1.
  pose proof (undoMove_sameGame g g' Hs) as H2.
  destruct (undoMove g) as [ok g1], (undoMove g') as [ok' g1'].
  simpl in H1, H2. destruct (IH g1 g1' H2) as [IH1 IH2].
  destruct (undoN k g1) as [oks g2], (undoN k g1') as [oks' g2'].
  simpl in *. by subst.
Qed.

Lemma play_snoc g moves rc :
  play g (moves ++ [rc]) = (makeMove (play g moves) rc.1 rc.2 0).2.
Proof. unfold play. by rewrite foldl_snoc. Qed.

Lemma legalSeq_snoc g moves rc :
  legalSeq g (moves ++ [rc])
  = legalSeq g moves && isValidMove (play g moves) rc.1 rc.2.
Proof.
  revert g. induction moves as [|rc' moves IH]; intros g; simpl.
  - by rewrite andb_true_r.
  - by rewrite IH, andb_assoc.
Qed.

Lemma play_consistent g moves : consistent g -> consistent (play g moves).
Proof.
  revert g. induction moves as [|rc moves IH]; intros g Hc; [done|].
  simpl. by apply IH, makeMove_consistent.
Qed.

Lemma undoMove_empty g : moveHistory g = [] -> undoMove g = (false, g).
Proof. intros H. unfold undoMove. by rewrite H. Qed.

End UndoSequence.

(** X3. The history is a stack.  After any sequence of legal moves from a
    consistent game, as many calls of [undoMove] as moves made all answer
    [true] and give the game back as it was before the first of them
    ([startTime] apart); and [undoMove] on a game with no move recorded
    answers [false] and changes nothing. *)
Theorem undo_all_moves (g : GameModel) (moves : list Cell) :
  consistent g ->
  legalSeq g moves = true ->
  (undoN (length moves) (play g moves)).1 = true
  /\ sameGame g (undoN (length moves) (play g moves)).2
  /\ (moveHistory g = [] ->
      GameModel.undoMove (undoN (length moves) (play g moves)).2
      = (false, (undoN (length moves) (play g moves)).2)).
Proof.
  intros Hc Hl.
  assert (H : (undoN (length moves) (play g moves)).1 = true
              /\ sameGame g (undoN (length moves) (play g moves)).2).
  { revert Hl. induction moves as [|rc moves IH] using rev_ind; intros Hl.
    - split; [done|apply sameGame_refl].
    - rewrite legalSeq_snoc in Hl. apply andb_true_iff in Hl as [Hl Hv].
      destruct (IH Hl) as [IH1 IH2].
      rewrite play_snoc, length_app. simpl.
      replace (length moves + 1)%nat with (S (length moves)) by lia. simpl.
      destruct (makeMove_undoMove (play g moves) rc.1 rc.2 0
                  (play_consistent g moves Hc) Hv) as (_ & Hok & Hsame).
      destruct (GameModel.undoMove _) as [ok g1]. simpl in Hok, Hsame. subst ok.
      destruct (undoN_sameGame (length moves) _ _ Hsame) as [H1 H2].
      destruct (undoN (length moves) g1) as [oks g2]. simpl in *.
      split; [congruence|]. by eapply sameGame_trans. }
  destruct H as [H1 H2]. split; [done|]. split; [done|].
  intros Hh. apply undoMove_empty.
  destruct H2 as (_ & _ & _ & _ & _ & _ & -> & _). done.
Qed.

Lemma undo_all_moves_witness :
  consistent newGame
  /\ legalSeq newGame columnMoves = true
  /\ (undoN (length columnMoves) (play newGame columnMoves)).1 = true
  /\ sameGame newGame (undoN (length columnMoves) (play newGame columnMoves)).2
  /\ (moveHistory newGame = [] ->
      GameModel.undoMove (undoN (length columnMoves) (play newGame columnMoves)).2
      = (false, (undoN (length columnMoves) (play newGame columnMoves)).2)).
Proof.
  assert (Hc : consistent newGame)
    by exact (reachable_consistent newGame newGame_reachable).
  assert (Hl : legalSeq newGame columnMoves = true) by (vm_compute; reflexivity).
  split; [exact Hc|]. split; [exact Hl|].
  exact (undo_all_moves newGame columnMoves Hc Hl).
Defined.

(** ** Rejected moves, new games, snapshots *)

(** X4. [makeMove] answers [true] exactly on the moves [isValidMove]
    accepts.  A move off the board, on a cell that is not empty, or on a
    game that is won or drawn is answered [false] and changes nothing. *)
Theorem makeMove_rejects (g : GameModel) (row col now : Z) :
  (GameModel.makeMove g row col now).1 = GameModel.isValidMove g row col
  /\ (GameModel.isValidPosition g row col = false
      \/ rd (board g) row col <> Some 0
      \/ gameStatus g <> playing ->
      GameModel.makeMove g row col now = (false, g)).
Proof.
  split.
  - destruct (GameModel.isValidMove g row col) eqn:Hv.
    + by rewrite makeMove_legal.
    + by rewrite makeMove_illegal.
  - intros H. apply makeMove_illegal.
    destruct (GameModel.isValidMove g row col) eqn:Hv; [|done].
    apply isValidMove_iff in Hv as (Hb & Hrd & Hs).
    unfold GameModel.isValidPosition in H.
    destruct H as [H|[H|H]]; congruence.
Qed.

Lemma makeMove_rejects_witness :
  (gameStatus wonGame <> playing
   /\ GameModel.makeMove wonGame 0 0 5 = (false, wonGame))
  /\ (rd (board fourGame) 7 7 <> Some 0
      /\ GameModel.makeMove fourGame 7 7 5 = (false, fourGame))
  /\ (GameModel.isValidPosition newGame 15 0 = false
      /\ GameModel.makeMove newGame 15 0 5 = (false, newGame)).
Proof.
  assert (H1 : gameStatus wonGame <> playing) by (vm_compute; discriminate).
  assert (H2 : rd (board fourGame) 7 7 <> Some 0) by (vm_compute; discriminate).
  assert (H3 : GameModel.isValidPosition newGame 15 0 = false)
    by (vm_compute; reflexivity).
  split; [split; [exact H1|]|split; [split; [exact H2|]|split; [exact H3|]]].
  - exact (proj2 (makeMove_rejects wonGame 0 0 5) (or_intror (or_intror H1))).
  - exact (proj2 (makeMove_rejects fourGame 7 7 5) (or_intror (or_introl H2))).
  - exact (proj2 (makeMove_rejects newGame 15 0 5) (or_introl H3)).
Defined.

Section NewGame.

Import GameModel.

Lemma reachable_boardSize g :
  reachable g -> boardSize g = 15 \/ boardSize g = 19.
Proof.
  induction 1 as [size|g row col now Hr IH Hv].
  - by destruct (fresh_playing size) as (_ & _ & _ & H).
  - destruct (makeMove_outcome g row col now Hv) as (F1 & _). by rewrite F1.
Qed.

Lemma reset_fresh g :
  boardSize g = 15 \/ boardSize g = 19 ->
  reset g = (setBoardSize constructor (boardSize g)).2.
Proof.
  intros H. unfold setBoardSize.
  replace ((boardSize g =? 15) || (boardSize g =? 19)) with true by lia.
  done.
Qed.

End NewGame.

(** X5. A new game as the controller starts it, [reset()] followed by
    [setBoardSize(size)], from any state of a game: the result is the game
    a new object configured with the size gives, where the size is [size]
    if it is 15 or 19 and the size the game had otherwise.  So it is again
    a state of a game, with an empty history, black to move and the timer
    stopped. *)
Theorem new_game_is_fresh (g : GameModel) (size : Z) :
  reachable g ->
  let g' := (GameModel.setBoardSize (GameModel.reset g) size).2 in
  let size' := if (size =? 15) || (size =? 19) then size else boardSize g in
  g' = (GameModel.setBoardSize GameModel.constructor size').2
  /\ reachable g'
  /\ boardSize g' = size'
  /\ moveHistory g' = [] /\ moveCount g' = 0
  /\ currentPlayer g' = 1 /\ gameStatus g' = playing
  /\ winner g' = None /\ winLine g' = [] /\ startTime g' = None.
Proof.
  intros Hr. cbv zeta.
  assert (Heq : (GameModel.setBoardSize (GameModel.reset g) size).2
                = (GameModel.setBoardSize GameModel.constructor
                     (if (size =? 15) || (size =? 19) then size
                      else boardSize g)).2).
  { pose proof (reachable_boardSize g Hr) as Hn.
    unfold GameModel.setBoardSize at 1.
    destruct ((size =? 15) || (size =? 19)) eqn:Hs.
    - unfold GameModel.setBoardSize. rewrite Hs. done.
    - simpl. by apply reset_fresh. }
  rewrite Heq. split; [done|]. split; [apply reach_fresh|].
  pose proof (reachable_boardSize g Hr) as Hn.
  unfold GameModel.setBoardSize.
  destruct ((size =? 15) || (size =? 19)) eqn:Hs.
  - rewrite Hs. done.
  - replace ((boardSize g =? 15) || (boardSize g =? 19)) with true by lia. done.
Qed.

Lemma new_game_is_fresh_witness :
  reachable wonGame
  /\ (GameModel.setBoardSize (GameModel.reset wonGame) 19).2
     = (GameModel.setBoardSize GameModel.constructor 19).2
  /\ (GameModel.setBoardSize (GameModel.reset wonGame) 10).2 = newGame.
Proof.
  split; [apply wonGame_reachable|]. split.
  - exact (proj1 (new_game_is_fresh wonGame 19 wonGame_reachable)).
  - exact (proj1 (new_game_is_fresh wonGame 10 wonGame_reachable)).
Defined.

(** X6. Saving and loading.  [loadGameState] of what [getGameState]
    returned turns any game object into the game saved, field by field,
    and [getGameState] of a game just loaded returns the state loaded. *)
Theorem snapshot_round_trip (g g' : GameModel) (state : GameState) :
  GameModel.loadGameState g' (GameModel.getGameState g) = g
  /\ GameModel.getGameState (GameModel.loadGameState g' state) = state.
Proof.
  unfold GameModel.loadGameState, GameModel.getGameState,
    GameModel.getBoardCopy.
  split.
  - destruct g. simpl. by rewrite !list_fmap_id.
  - destruct state. simpl. by rewrite !list_fmap_id.
Qed.

(** ** The timer *)

Section Timer.

Import GameModel.



End Timer.



Example game_time_one_minute :
  GameModel.getGameTime (GameModel.makeMove newGame 7 7 1500).2 61500 = 60
  /\ GameModel.getFormattedGameTime (GameModel.makeMove newGame 7 7 1500).2 61500
     = "01:00".
Proof. split; vm_compute; reflexivity. Qed.

Section TimeFormat.

Lemma pad2_twoDigits n : 0 <= n < 100 -> pad2 n = twoDigits n.
Proof.
  intros Hn.
  assert (H : Forall (fun n => pad2 n = twoDigits n) (seqZ 0 100)).
  { refine (bool_decide_unpack _ _). vm_compute. exact I. }
  rewrite Forall_forall in H. apply H. apply elem_of_seqZ. lia.
Qed.

Lemma formatMinSec_twoDigits s :
  0 <= s < 6000 ->
  formatMinSec s = twoDigits (s / 60) +:+ ":" +:+ twoDigits (s mod 60).
Proof.
  intros Hs. unfold formatMinSec.
  rewrite Z.rem_mod_nonneg by lia.
  rewrite !pad2_twoDigits; [done| |].
  - pose proof (Z.mod_pos_bound s 60 ltac:(lia)). lia.
  - split; [apply Z.div_pos; lia|]. apply Z.div_lt_upper_bound; lia.
Qed.

End TimeFormat.

(** X8. The time shown.  For a number of seconds from 0 up to 99 minutes
    and 59 seconds, [formatTime] of the view, [getFormattedGameTime] of
    the game and [getAverageGameTime] of the statistics write the minutes
    and the seconds with two decimal digits each, a colon between them:
    five characters.  With no game played the average is written
    "00:00". *)
Theorem time_is_mm_ss (s : Z) :
  0 <= s < 6000 ->
  GameView.formatTime s = twoDigits (s / 60) +:+ ":" +:+ twoDigits (s mod 60)
  /\ String.length (GameView.formatTime s) = 5%nat
  /\ (forall g now, GameModel.getGameTime g now = s ->
        GameModel.getFormattedGameTime g now = GameView.formatTime s)
  /\ (forall stats, totalGames stats <> 0 ->
        playTime stats / totalGames stats = s ->
        ConfigManager.getAverageGameTime stats = GameView.formatTime s)
  /\ (forall stats, totalGames stats = 0 ->
        ConfigManager.getAverageGameTime stats = "00:00").
Proof.
  intros Hs. unfold GameView.formatTime.
  split; [by apply formatMinSec_twoDigits|].
  split; [by rewrite formatMinSec_twoDigits|].
  split; [|split].
  - intros g now Hg. unfold GameModel.getFormattedGameTime. by rewrite Hg.
  - intros stats Hn Ha. unfold ConfigManager.getAverageGameTime.
    replace (totalGames stats =? 0) with false by lia. by rewrite Ha.
  - intros stats Hn. unfold ConfigManager.getAverageGameTime.
    by replace (totalGames stats =? 0) with true by lia.
Qed.

Lemma time_is_mm_ss_witness :
  0 <= 754 < 6000
  /\ GameView.formatTime 754 = twoDigits (754 / 60) +:+ ":" +:+ twoDigits (754 mod 60)
  /\ String.length (GameView.formatTime 754) = 5%nat.
Proof.
  assert (H : 0 <= 754 < 6000) by lia.
  split; [exact H|].
  destruct (time_is_mm_ss 754 H) as (H1 & H2 & _).
  exact (conj H1 H2).
Defined.

Example time_754 : GameView.formatTime 754 = "12:34".
Proof. vm_compute. reflexivity. Qed.

(** ** Fives on the board *)

Section Fives.

Implicit Types (b : list (list Z)) (n p q r c dRow dCol : Z).

(** A cell among five in a row lies on a run of five or more. *)
Lemma five_through b n p r c dRow dCol (k : nat) :
  (dRow, dCol) ∈ directions -> (k < 5)%nat ->
  fiveAt b n p r c dRow dCol ->
  completesFive b n (Some p) (r + Z.of_nat k * dRow) (c + Z.of_nat k * dCol).
Proof.
  intros Hd Hk Hfive.
  pose proof (runThrough_runLen b n (Some p) (r + Z.of_nat k * dRow)
                (c + Z.of_nat k * dCol) dRow dCol Hd) as Hrun.
  set (back := runLen _ _ _ _ (- dRow) _ _ _) in *.
  set (fwd := runLen _ _ _ _ dRow _ _ _) in *.
  exists dRow, dCol, back, fwd. split; [done|]. split; [done|].
  destruct Hrun as [[_ Hback] [_ Hfwd]].
  assert (k <= back)%nat.
  { destruct (le_lt_dec k back) as [|Hlt]; [done|]. exfalso.
    specialize (Hfive (k - 1 - back)%nat ltac:(lia)).
    replace (Z.of_nat (k - 1 - back)) with (Z.of_nat k - 1 - Z.of_nat back)
      in Hfive by lia.
    replace (r + Z.of_nat k * dRow - dRow + Z.of_nat back * - dRow)
      with (r + (Z.of_nat k - 1 - Z.of_nat back) * dRow) in Hback by lia.
    replace (c + Z.of_nat k * dCol - dCol + Z.of_nat back * - dCol)
      with (c + (Z.of_nat k - 1 - Z.of_nat back) * dCol) in Hback by lia.
    congruence. }
  assert (4 - k <= fwd)%nat.
  { destruct (le_lt_dec (4 - k) fwd) as [|Hlt]; [done|]. exfalso.
    specialize (Hfive (k + 1 + fwd)%nat ltac:(lia)).
    replace (Z.of_nat (k + 1 + fwd)) with (Z.of_nat k + 1 + Z.of_nat fwd)
      in Hfive by lia.
    replace (r + Z.of_nat k * dRow + dRow + Z.of_nat fwd * dRow)
      with (r + (Z.of_nat k + 1 + Z.of_nat fwd) * dRow) in Hfwd by lia.
    replace (c + Z.of_nat k * dCol + dCol + Z.of_nat fwd * dCol)
      with (c + (Z.of_nat k + 1 + Z.of_nat fwd) * dCol) in Hfwd by lia.
    congruence. }
  lia.
Qed.

Lemma completesFive_hasFive b n p row col :
  completesFive b n (Some p) row col ->
  onRun b n (Some p) row col = true ->
  hasFive b n p.
Proof.
  intros (dRow & dCol & back & fwd & Hin & Hrun & Hfive) Hon.
  exists (row - Z.of_nat back * dRow), (col - Z.of_nat back * dCol), dRow, dCol.
  split; [done|]. intros i Hi.
  apply (runThrough_cells _ _ _ _ _ _ _ _ _ i Hrun Hon). lia.
Qed.

(** Five cells in a row either avoid a given cell or hold it at one of
    their five places. *)
Lemma five_hits_or_misses r c dRow dCol r0 c0 :
  (exists k : nat, (k < 5)%nat
     /\ r0 = r + Z.of_nat k * dRow /\ c0 = c + Z.of_nat k * dCol)
  \/ (forall i : nat, (i < 5)%nat ->
        (r0, c0) <> (r + Z.of_nat i * dRow, c + Z.of_nat i * dCol)).
Proof.
  assert (Hdec : forall k : nat,
             {r0 = r + Z.of_nat k * dRow /\ c0 = c + Z.of_nat k * dCol}
             + {(r0, c0) <> (r + Z.of_nat k * dRow, c + Z.of_nat k * dCol)}).
  { intros k.
    destruct (decide ((r0, c0) = (r + Z.of_nat k * dRow, c + Z.of_nat k * dCol)))
      as [E|E]; [left; by injection E|by right]. }
  destruct (Hdec 0%nat) as [H0|H0]; [left; exists 0%nat; split; [lia|done]|].
  destruct (Hdec 1%nat) as [H1|H1]; [left; exists 1%nat; split; [lia|done]|].
  destruct (Hdec 2%nat) as [H2|H2]; [left; exists 2%nat; split; [lia|done]|].
  destruct (Hdec 3%nat) as [H3|H3]; [left; exists 3%nat; split; [lia|done]|].
  destruct (Hdec 4%nat) as [H4|H4]; [left; exists 4%nat; split; [lia|done]|].
  right. intros i Hi. destruct i as [|[|[|[|[|i]]]]]; [done..|lia].
Qed.

(** A stone placed on an empty cell brings no five but through its own
    cell. *)
Lemma wr_hasFive b n p q r0 c0 :
  rd b r0 c0 = Some 0 ->
  hasFive (wr b r0 c0 q) n p ->
  hasFive b n p \/ (p = q /\ completesFive (wr b r0 c0 q) n (Some q) r0 c0).
Proof.
  intros Hrd (r & c & dRow & dCol & Hd & Hfive).
  destruct (five_hits_or_misses r c dRow dCol r0 c0)
    as [(k & Hk & -> & ->)|Hmiss].
  - right.
    assert (p = q).
    { specialize (Hfive k Hk). apply onRun_true in Hfive as [_ Hfive].
      rewrite (rd_wr_same _ _ _ _ _ Hrd) in Hfive. congruence. }
    subst q. split; [done|]. by apply five_through.
  - left. exists r, c, dRow, dCol. split; [done|]. intros i Hi.
    rewrite <- (onRun_wr_other b n (Some p) r0 c0 q); [by apply Hfive|].
    by apply Hmiss.
Qed.

(** The invariant of the play: no five on the board while no game is won,
    and in a won game only fives of the winner. *)
Lemma reachable_fives g p :
  reachable g -> p <> 0 ->
  hasFive (board g) (boardSize g) p -> gameStatus g = won /\ winner g = Some p.
Proof.
  intros Hr. revert p. induction Hr as [size|g row col now Hr IH Hv];
    intros p Hp Hfive.
  - exfalso. destruct Hfive as (r & c & dRow & dCol & _ & Hfive).
    specialize (Hfive 0%nat ltac:(lia)). apply onRun_true in Hfive as [_ Hfive].
    apply fresh_board in Hfive. congruence.
  - destruct (makeMove_outcome g row col now Hv)
      as (F1 & F2 & Hcell & _ & _ & Hout).
    pose proof Hv as Hv'. apply isValidMove_iff in Hv' as (Hb & Hrd & Hst).
    rewrite F1, F2 in Hfive.
    apply (wr_hasFive _ _ _ _ _ _ Hrd) in Hfive as [Hold|[-> Hnew]].
    { destruct (IH p Hp Hold) as [Hw _]. congruence. }
    rewrite <- F1, <- F2 in Hnew.
    destruct Hout as [(Hw & Hwin & _)|[(Hno & _)|(Hno & _)]]; done.
Qed.

End Fives.

(** X9. What [checkWin] sees at the last cell played is what the whole
    board holds.  In every state reached by legal moves, five stones of a
    player lie in a row somewhere on the board, in one of the four
    directions, exactly when the game is won and that player is the
    winner. *)
Theorem five_iff_won (g : GameModel) (p : Z) :
  reachable g -> p <> 0 ->
  hasFive (board g) (boardSize g) p <-> gameStatus g = won /\ winner g = Some p.
Proof.
  intros Hr Hp. split; [by apply reachable_fives|].
  intros [Hw Hwin]. destruct Hr as [size|g0 row col now Hr Hv].
  { destruct (fresh_playing size) as [H _]. congruence. }
  destruct (makeMove_outcome g0 row col now Hv)
    as (F1 & F2 & Hcell & _ & _ & Hout).
  apply isValidMove_iff in Hv as (Hb & Hrd & Hst).
  set (g := (GameModel.makeMove g0 row col now).2) in *.
  destruct Hout as [(_ & Hwin' & dRow & dCol & back & fwd & Hin & Hrun & Hfive & _)
                   |[(_ & _ & Hd)|(_ & _ & Hpl & _)]]; [|congruence..].
  assert (p = currentPlayer g0) by congruence. subst p.
  apply (completesFive_hasFive _ _ _ row col).
  - by exists dRow, dCol, back, fwd.
  - apply onRun_true. by rewrite F1.
Qed.

Lemma five_iff_won_witness :
  reachable wonGame /\ 1 <> 0
  /\ (hasFive (board wonGame) (boardSize wonGame) 1 <->
      gameStatus wonGame = won /\ winner wonGame = Some 1).
Proof.
  assert (H : 1 <> 0) by lia.
  split; [apply wonGame_reachable|]. split; [exact H|].
  exact (five_iff_won wonGame 1 wonGame_reachable H).
Defined.

(** ** Lines of a player *)

Section FindLines.

Import GameModel.

(** Membership in a list built by a loop that only ever appends. *)
Lemma elem_of_foldl_grow {A B} (f : list A -> B -> list A) (Q : B -> A -> Prop)
    (l : list B) (acc : list A) (y : A) :
  (forall acc x y, y ∈ f acc x <-> y ∈ acc \/ Q x y) ->
  y ∈ foldl f acc l <-> y ∈ acc \/ exists x, x ∈ l /\ Q x y.
Proof.
  intros Hf. revert acc. induction l as [|x l IH]; intros acc; simpl.
  - split; [by left|]. intros [H|(x & Hx & _)]; [done|].
    by apply elem_of_nil in Hx.
  - rewrite IH, Hf. split.
    + intros [[H|H]|(x' & Hx' & H)].
      * by left.
      * right. exists x. split; [left|done].
      * right. exists x'. split; [by right|done].
    + intros [H|(x' & Hx' & H)]; [by left; left|].
      apply elem_of_cons in Hx' as [->|Hx'].
      * left. by right.
      * right. by exists x'.
Qed.

Lemma findLines_scan_run fuel g p dRow dCol r c line :
  findLines_scan fuel g p dRow dCol r c line
  = line ++ cellsFrom r c dRow dCol
              (runLen fuel (board g) (boardSize g) (Some p) dRow dCol r c).
Proof.
  revert r c line. induction fuel as [|fuel IH]; intros r c line.
  - simpl. by rewrite app_nil_r.
  - simpl. unfold isValidPosition.
    fold (onRun (board g) (boardSize g) (Some p) r c).
    destruct (onRun (board g) (boardSize g) (Some p) r c).
    + by rewrite IH, cellsFrom_S, <- app_assoc.
    + by rewrite app_nil_r.
Qed.

(** The lines [findLines] returns: from each stone of the player, in each
    direction, the stone and the stones that follow it in a row, when they
    are [len] or more. *)
Lemma findLines_elem g p len line :
  line ∈ findLines g p len <->
  exists row col dRow dCol (k : nat),
    inBounds (boardSize g) row col = true
    /\ rd (board g) row col = Some p
    /\ (dRow, dCol) ∈ directions
    /\ isRun (board g) (boardSize g) (Some p) (row + dRow) (col + dCol)
             dRow dCol k
    /\ len <= Z.of_nat (S k)
    /\ line = cellsFrom row col dRow dCol (S k).
Proof.
  unfold findLines.
  rewrite (elem_of_foldl_grow _
    (fun rc y =>
       rd (board g) rc.1 rc.2 = Some p
       /\ exists d, d ∈ directions
          /\ len <= Z.of_nat (S (runLen (Z.to_nat (boardSize g)) (board g)
                                   (boardSize g) (Some p) d.1 d.2
                                   (rc.1 + d.1) (rc.2 + d.2)))
          /\ y = cellsFrom rc.1 rc.2 d.1 d.2
                   (S (runLen (Z.to_nat (boardSize g)) (board g)
                         (boardSize g) (Some p) d.1 d.2
                         (rc.1 + d.1) (rc.2 + d.2))))).
  - split.
    + intros [H|([row col] & Hin & Hrd & [dRow dCol] & Hd & Hlen & ->)];
        [by apply elem_of_nil in H|].
      simpl in *. apply allCells_elem in Hin.
      exists row, col, dRow, dCol. eexists.
      split; [done|]. split; [done|]. split; [done|].
      split; [|split; [exact Hlen|done]].
      apply runLen_board. by apply unitDir_directions in Hd as [? _].
    + intros (row & col & dRow & dCol & k & Hb & Hrd & Hd & Hrun & Hlen & ->).
      right. exists (row, col). split; [by apply allCells_elem|]. simpl.
      split; [done|]. exists (dRow, dCol). simpl. split; [done|].
      assert (Hk : runLen (Z.to_nat (boardSize g)) (board g) (boardSize g)
                     (Some p) dRow dCol (row + dRow) (col + dCol) = k).
      { eapply isRun_unique; [|done]. apply runLen_board.
        by apply unitDir_directions in Hd as [? _]. }
      by rewrite Hk.
  - intros acc [row col] y. cbv beta iota zeta.
    destruct (cellIs (board g) row col (Some p)) eqn:Hc.
    + apply cellIs_true in Hc.
      rewrite (elem_of_foldl_grow _
        (fun d y =>
           len <= Z.of_nat (S (runLen (Z.to_nat (boardSize g)) (board g)
                                 (boardSize g) (Some p) d.1 d.2
                                 (row + d.1) (col + d.2)))
           /\ y = cellsFrom row col d.1 d.2
                    (S (runLen (Z.to_nat (boardSize g)) (board g)
                          (boardSize g) (Some p) d.1 d.2
                          (row + d.1) (col + d.2))))).
      * split; [intros [H|H]; [by left|right; by split]|].
        intros [H|[_ H]]; [by left|by right].
      * intros acc' [dRow dCol] y'. cbv beta iota zeta. cbn [fst snd].
        rewrite findLines_scan_run, length_app, length_cellsFrom. simpl.
        rewrite <- cellsFrom_S.
        destruct (len <=? _) eqn:Hlen.
        -- apply Z.leb_le in Hlen.
           rewrite elem_of_app, list_elem_of_singleton.
           split; [intros [H|H]; [by left|right; by split]|].
           intros [H|[_ H]]; [by left|by right].
        -- apply Z.leb_gt in Hlen.
           split; [by left|]. intros [H|[H _]]; [done|].
           exfalso. revert H Hlen. apply Z.le_ngt.
    + split; [by left|]. intros [H|[H _]]; [done|].
      simpl in H. apply cellIs_true in H. congruence.
Qed.

(** A line of five or more is found exactly when the board holds five in
    a row. *)
Lemma findLines_hasFive g p :
  (exists line, line ∈ findLines g p 5) <-> hasFive (board g) (boardSize g) p.
Proof.
  split.
  - intros (line & Hline). apply findLines_elem in Hline
      as (row & col & dRow & dCol & k & Hb & Hrd & Hd & [Hrun _] & Hlen & _).
    exists row, col, dRow, dCol. split; [done|]. intros [|i] Hi.
    + simpl. rewrite !Z.add_0_r. by apply onRun_true.
    + specialize (Hrun i ltac:(lia)).
      replace (row + Z.of_nat (S i) * dRow)
        with (row + dRow + Z.of_nat i * dRow) by lia.
      by replace (col + Z.of_nat (S i) * dCol)
        with (col + dCol + Z.of_nat i * dCol) by lia.
  - intros (row & col & dRow & dCol & Hd & Hfive).
    pose proof (Hfive 0%nat ltac:(lia)) as H0. simpl in H0.
    rewrite !Z.add_0_r in H0. apply onRun_true in H0 as [Hb Hrd].
    pose proof Hd as Hd'. apply unitDir_directions in Hd' as [Hu _].
    pose proof (runLen_board (board g) (boardSize g) (Some p) dRow dCol
                  (row + dRow) (col + dCol) Hu) as Hrun.
    set (k := runLen _ _ _ _ _ _ _ _) in *.
    exists (cellsFrom row col dRow dCol (S k)). apply findLines_elem.
    exists row, col, dRow, dCol, k. do 4 (split; [done|]). split; [|done].
    destruct (le_lt_dec 4 k) as [|Hlt]; [lia|]. exfalso.
    destruct Hrun as [_ Hstop].
    specialize (Hfive (S k) ltac:(lia)).
    replace (row + Z.of_nat (S k) * dRow)
      with (row + dRow + Z.of_nat k * dRow) in Hfive by lia.
    replace (col + Z.of_nat (S k) * dCol)
      with (col + dCol + Z.of_nat k * dCol) in Hfive by lia.
    congruence.
Qed.

End FindLines.

(** X10. [findLines(player, length)] returns, for each stone of the player
    on the board and each of the four directions, the line made of the
    stone and of all the player's stones that follow it in a row in that
    direction, whenever the line has [length] cells or more, and nothing
    else. *)
Theorem findLines_lines (g : GameModel) (p len : Z) (line : list Cell) :
  line ∈ GameModel.findLines g p len <->
  exists row col dRow dCol (k : nat),
    inBounds (boardSize g) row col = true
    /\ rd (board g) row col = Some p
    /\ (dRow, dCol) ∈ directions
    /\ isRun (board g) (boardSize g) (Some p) (row + dRow) (col + dCol)
             dRow dCol k
    /\ len <= Z.of_nat (S k)
    /\ line = cellsFrom row col dRow dCol (S k).
Proof. apply findLines_elem. Qed.

(** X11. In every state reached by legal moves, [findLines] finds a line
    of five for a player exactly when that player has won the game. *)
Theorem findLines_five_iff_won (g : GameModel) (p : Z) :
  reachable g -> p <> 0 ->
  GameModel.findLines g p 5 <> [] <-> gameStatus g = won /\ winner g = Some p.
Proof.
  intros Hr Hp.
  assert (Hne : GameModel.findLines g p 5 <> [] <->
                exists line, line ∈ GameModel.findLines g p 5).
  { destruct (GameModel.findLines g p 5) as [|line lines].
    - split; [done|]. intros [line H]. by apply elem_of_nil in H.
    - split; [|done]. intros _. exists line. left. }
  rewrite Hne, findLines_hasFive. split.
  - by apply reachable_fives.
  - intros [Hw Hwin]. destruct Hr as [size|g0 row col now Hr Hv].
    { destruct (fresh_playing size) as [H _]. congruence. }
    destruct (makeMove_outcome g0 row col now Hv)
      as (F1 & F2 & Hcell & _ & _ & Hout).
    apply isValidMove_iff in Hv as (Hb & Hrd & Hst).
    set (g := (GameModel.makeMove g0 row col now).2) in *.
    destruct Hout as [(_ & Hwin' & dRow & dCol & back & fwd & Hin & Hrun & Hfive & _)
                     |[(_ & _ & Hd)|(_ & _ & Hpl & _)]]; [|congruence..].
    assert (p = currentPlayer g0) by congruence. subst p.
    apply (completesFive_hasFive _ _ _ row col).
    + by exists dRow, dCol, back, fwd.
    + apply onRun_true. by rewrite F1.
Qed.

Lemma findLines_five_iff_won_witness :
  reachable wonGame /\ 2 <> 0
  /\ (GameModel.findLines wonGame 2 5 <> [] <->
      gameStatus wonGame = won /\ winner wonGame = Some 2).
Proof.
  assert (H : 2 <> 0) by lia.
  split; [apply wonGame_reachable|]. split; [exact H|].
  exact (findLines_five_iff_won wonGame 2 wonGame_reachable H).
Defined.

Example findLines_wonGame :
  GameModel.findLines wonGame 1 5 = [[(7, 7); (8, 7); (9, 7); (10, 7); (11, 7)]]
  /\ GameModel.findLines wonGame 2 5 = []
  /\ GameModel.findLines wonGame 2 4 = [[(7, 8); (8, 8); (9, 8); (10, 8)]].
Proof. repeat split; vm_compute; reflexivity. Qed.

(** ** The scan for a win and the rules *)

Section FoundWin.

Import GameModel.

(** A legal move wins exactly when its cell completes a run of five. *)
Lemma makeMove_won_iff g row col now :
  isValidMove g row col = true ->
  gameStatus (makeMove g row col now).2 = won <->
  completesFive (wr (board g) row col (currentPlayer g)) (boardSize g)
                (Some (currentPlayer g)) row col.
Proof.
  intros Hv.
  destruct (makeMove_outcome g row col now Hv) as (F1 & F2 & _ & _ & _ & Hout).
  rewrite <- F1, <- F2.
  destruct Hout as [(Hw & _ & dRow & dCol & back & fwd & Hin & Hrun & Hfive & _)
                   |[(Hno & _ & Hd)|(Hno & _ & Hp & _)]].
  - split; [intros _|done]. by exists dRow, dCol, back, fwd.
  - split; [congruence|done].
  - split; [congruence|done].
Qed.

Lemma makeMove_won_winner g row col now :
  isValidMove g row col = true ->
  gameStatus (makeMove g row col now).2 = won ->
  winner (makeMove g row col now).2 = Some (currentPlayer g).
Proof.
  intros Hv Hw.
  destruct (makeMove_outcome g row col now Hv) as (_ & _ & _ & _ & _ & Hout).
  destruct Hout as [(_ & Hwin & _)|[(_ & _ & Hd)|(_ & _ & Hp & _)]];
    [done|congruence..].
Qed.

End FoundWin.

(** X12. The two tests of a win agree, and the scan for a winning cell is
    exact.  On a game in progress, [findWinningMove] for the player to
    move finds a cell exactly when some legal move wins the game at once,
    and the cell it finds is such a move: [makeMove] on it is accepted and
    ends the game with that player as winner. *)
Theorem found_win_is_a_win (g : GameModel) :
  gameStatus g = playing ->
  ((AIPlayer.findWinningMove (board g) (boardSize g) (currentPlayer g)).1
     <> None <->
   exists row col now,
     GameModel.isValidMove g row col = true
     /\ gameStatus (GameModel.makeMove g row col now).2 = won)
  /\ (forall row col now,
        (AIPlayer.findWinningMove (board g) (boardSize g) (currentPlayer g)).1
        = Some (row, col) ->
        (GameModel.makeMove g row col now).1 = true
        /\ gameStatus (GameModel.makeMove g row col now).2 = won
        /\ winner (GameModel.makeMove g row col now).2
           = Some (currentPlayer g)).
Proof.
  intros Hp.
  assert (Hfound : forall row col now,
            (AIPlayer.findWinningMove (board g) (boardSize g)
               (currentPlayer g)).1 = Some (row, col) ->
            GameModel.isValidMove g row col = true
            /\ gameStatus (GameModel.makeMove g row col now).2 = won).
  { intros row col now Hf.
    destruct (findWinningMove_Some _ _ _ _ _ Hf) as (Hb & Hrd & Hw).
    assert (Hv : GameModel.isValidMove g row col = true)
      by (by apply isValidMove_iff).
    split; [done|]. apply makeMove_won_iff; [done|].
    by apply AIPlayer_checkWin_iff. }
  split.
  - split.
    + intros Hne.
      destruct (AIPlayer.findWinningMove _ _ _).1 as [[row col]|] eqn:Hf; [|done].
      exists row, col, 0. by apply Hfound.
    + intros (row & col & now & Hv & Hw) Hnone.
      apply makeMove_won_iff in Hw; [|done].
      apply AIPlayer_checkWin_iff in Hw.
      apply isValidMove_iff in Hv as (Hb & Hrd & _).
      by rewrite (findWinningMove_None _ _ _ _ _ Hnone Hb Hrd) in Hw.
  - intros row col now Hf. destruct (Hfound row col now Hf) as [Hv Hw].
    split; [by rewrite makeMove_legal|]. split; [done|].
    by apply makeMove_won_winner.
Qed.

Lemma found_win_is_a_win_witness :
  gameStatus (play newGame (take 8 columnMoves)) = playing
  /\ (AIPlayer.findWinningMove (board (play newGame (take 8 columnMoves)))
        (boardSize (play newGame (take 8 columnMoves)))
        (currentPlayer (play newGame (take 8 columnMoves)))).1 <> None.
Proof.
  assert (Hp : gameStatus (play newGame (take 8 columnMoves)) = playing)
    by (vm_compute; reflexivity).
  split; [exact Hp|].
  apply (proj1 (found_win_is_a_win _ Hp)).
  exists 6, 7, 0. split; vm_compute; reflexivity.
Defined.

(** X13. The move of the engine is accepted.  On a consistent game in
    progress, the cell [getBestMove] returns, played with [makeMove] on
    the game as the search has left it, is accepted and puts the stone of
    the player to move on that cell; and when the engine plays that
    player's side and a legal move wins at once, this move wins the
    game. *)
Theorem engine_move_accepted
    (ai : AIPlayer) (g : GameModel) (now now' : Z) (u1 u2 : Q) (row col : Z) :
  consistent g ->
  gameStatus g = playing ->
  (AIPlayer.getBestMove ai g now u1 u2).1 = Some (row, col) ->
  let g1 := (AIPlayer.getBestMove ai g now u1 u2).2 in
  (GameModel.makeMove g1 row col now').1 = true
  /\ rd (board (GameModel.makeMove g1 row col now').2) row col
     = Some (currentPlayer g)
  /\ (player ai = currentPlayer g ->
      (exists r c t, GameModel.isValidMove g r c = true
                     /\ gameStatus (GameModel.makeMove g r c t).2 = won) ->
      gameStatus (GameModel.makeMove g1 row col now').2 = won
      /\ winner (GameModel.makeMove g1 row col now').2 = Some (player ai)).
Proof.
  intros Hc Hp Hbest. cbv zeta.
  pose proof (getBestMove_restores ai g now u1 u2 Hc) as Hsame.
  pose proof (getBestMove_free ai g now u1 u2 (row, col) Hc Hbest) as Hfree.
  set (g1 := (AIPlayer.getBestMove ai g now u1 u2).2) in *.
  assert (Hv : GameModel.isValidMove g1 row col = true).
  { rewrite (sameGame_isValidMove g g1 row col Hsame).
    by apply freeCell_isValidMove. }
  destruct (makeMove_outcome g1 row col now' Hv) as (_ & _ & Hcell & _).
  destruct Hsame as (S1 & S2 & S3 & S4 & _).
  split; [by rewrite makeMove_legal|]. split; [by rewrite Hcell, S3|].
  intros Hside (r & c & t & Hv' & Hw').
  assert (Hfind : (AIPlayer.findWinningMove (board g) (boardSize g)
                     (player ai)).1 = Some (row, col)).
  { destruct (AIPlayer.findWinningMove (board g) (boardSize g) (player ai)).1
      as [m|] eqn:Hf.
    - rewrite (getBestMove_win ai g now u1 u2 m Hf) in Hbest. simpl in Hbest.
      congruence.
    - exfalso. apply makeMove_won_iff in Hw'; [|done].
      rewrite <- Hside in Hw'. apply AIPlayer_checkWin_iff in Hw'.
      apply isValidMove_iff in Hv' as (Hb & Hrd & _).
      by rewrite (findWinningMove_None _ _ _ _ _ Hf Hb Hrd) in Hw'. }
  destruct (findWinningMove_Some _ _ _ _ _ Hfind) as (Hb & Hrd & Hw).
  assert (Hwon : gameStatus (GameModel.makeMove g1 row col now').2 = won).
  { apply makeMove_won_iff; [done|]. rewrite S1, S2, S3, <- Hside.
    by apply AIPlayer_checkWin_iff. }
  split; [done|]. rewrite (makeMove_won_winner g1 row col now' Hv Hwon).
  by rewrite S3, Hside.
Qed.

Lemma engine_move_accepted_witness :
  consistent whiteFourGame
  /\ gameStatus whiteFourGame = playing
  /\ (AIPlayer.getBestMove (AIPlayer.constructor hard) whiteFourGame 0
        (1 # 2) (1 # 2)).1 = Some (7, 4)
  /\ (GameModel.makeMove
        (AIPlayer.getBestMove (AIPlayer.constructor hard) whiteFourGame 0
           (1 # 2) (1 # 2)).2 7 4 9).1 = true.
Proof.
  assert (Hp : gameStatus whiteFourGame = playing) by (vm_compute; reflexivity).
  assert (Hb : (AIPlayer.getBestMove (AIPlayer.constructor hard) whiteFourGame 0
                  (1 # 2) (1 # 2)).1 = Some (7, 4)).
  { rewrite (getBestMove_win _ _ _ _ _ (7, 4)); [done|].
    vm_compute. reflexivity. }
  split; [exact whiteFourGame_consistent|]. split; [exact Hp|].
  split; [exact Hb|].
  exact (proj1 (engine_move_accepted (AIPlayer.constructor hard) whiteFourGame
                  0 9 (1 # 2) (1 # 2) 7 4 whiteFourGame_consistent Hp Hb)).
Defined.

(** ** Counting the empty cells *)

Section Counting.

Import GameModel.

Lemma length_allCells n :
  length (allCells n) = (Z.to_nat n * Z.to_nat n)%nat.
Proof.
  unfold allCells.
  assert (H : forall l : list Z,
             length (l ≫= fun r => seqZ 0 n ≫= fun c => [(r, c)])
             = (length l * Z.to_nat n)%nat).
  { induction l as [|r l IH]; [done|]. rewrite bind_cons, length_app, IH.
    simpl. f_equal. clear.
    assert (H : forall l' : list Z,
               length (l' ≫= fun c => [(r, c)]) = length l').
    { induction l' as [|c l' IH]; [done|].
      rewrite bind_cons, length_app, IH. done. }
    by rewrite H, length_seqZ. }
  by rewrite H, length_seqZ.
Qed.

Lemma NoDup_allCells n : NoDup (allCells n).
Proof.
  unfold allCells. apply NoDup_bind; [| |apply NoDup_seqZ].
  - intros r1 r2 [r c] _ _ H1 H2.
    apply list_elem_of_bind in H1 as (c1 & H1 & _).
    apply list_elem_of_bind in H2 as (c2 & H2 & _).
    apply list_elem_of_singleton in H1, H2. congruence.
  - intros r _. apply NoDup_bind; [| |apply NoDup_seqZ].
    + intros c1 c2 [r' c] _ _ H1 H2.
      apply list_elem_of_singleton in H1, H2. congruence.
    + intros c _. apply NoDup_singleton.
Qed.

Lemma filter_agree {A} (P P' : A -> Prop)
    `{!forall x, Decision (P x)} `{!forall x, Decision (P' x)} (l : list A) :
  (forall x, x ∈ l -> (P x <-> P' x)) -> filter P l = filter P' l.
Proof.
  induction l as [|x l IH]; intros Hext; [done|].
  rewrite !filter_cons.
  rewrite IH by (intros y Hy; apply Hext; by right).
  destruct (decide (P x)) as [Hx|Hx], (decide (P' x)) as [Hx'|Hx']; try done.
  - exfalso. apply Hx'. apply Hext; [left|done].
  - exfalso. apply Hx. apply Hext; [left|done].
Qed.

Lemma filter_all {A} (P : A -> Prop) `{!forall x, Decision (P x)} (l : list A) :
  (forall x, x ∈ l -> P x) -> filter P l = l.
Proof.
  induction l as [|x l IH]; intros Hall; [done|].
  rewrite filter_cons, decide_True by (apply Hall; left).
  f_equal. apply IH. intros y Hy. apply Hall. by right.
Qed.

(** Taking one element out of a filter of a list without repetition. *)
Lemma filter_one_less {A} (P P' : A -> Prop)
    `{!forall x, Decision (P x)} `{!forall x, Decision (P' x)}
    (l : list A) (x0 : A) :
  NoDup l -> x0 ∈ l -> P x0 -> ~ P' x0 ->
  (forall x, x <> x0 -> (P x <-> P' x)) ->
  length (filter P l) = S (length (filter P' l)).
Proof.
  intros Hnd Hin Hp0 Hp0' Hiff. induction l as [|x l IH]; [by apply elem_of_nil in Hin|].
  apply NoDup_cons in Hnd as [Hx Hnd]. rewrite !filter_cons.
  apply elem_of_cons in Hin as [->|Hin].
  - rewrite decide_True, decide_False by done. simpl. f_equal. f_equal.
    apply filter_agree. intros y Hy. apply Hiff. intros ->. done.
  - assert (Hne : x <> x0) by (intros ->; done).
    specialize (IH Hnd Hin).
    destruct (decide (P x)) as [Hp|Hp], (decide (P' x)) as [Hp'|Hp']; simpl.
    + by rewrite IH.
    + exfalso. by apply Hp', Hiff.
    + exfalso. by apply Hp, Hiff.
    + done.
Qed.

(** A legal move by a player that is not 0 takes one empty cell away. *)
Lemma makeMove_emptyCells g row col now :
  isValidMove g row col = true -> currentPlayer g <> 0 ->
  length (getEmptyCells g)
  = S (length (getEmptyCells (makeMove g row col now).2)).
Proof.
  intros Hv Hp.
  destruct (makeMove_outcome g row col now Hv) as (F1 & F2 & Hcell & _).
  apply isValidMove_iff in Hv as (Hb & Hrd & _).
  unfold getEmptyCells. rewrite F1.
  apply (filter_one_less _ _ _ (row, col)).
  - apply NoDup_allCells.
  - by apply allCells_elem.
  - simpl. by apply cellIs_true.
  - simpl. rewrite cellIs_true, Hcell. congruence.
  - intros [r c] Hne. simpl. rewrite !cellIs_true, F2.
    rewrite rd_wr_other; [done|]. congruence.
Qed.

Lemma makeMove_counted g row col now :
  isValidMove g row col = true -> currentPlayer g <> 0 ->
  counted g -> counted (makeMove g row col now).2.
Proof.
  intros Hv Hp [Hcount _].
  pose proof (makeMove_emptyCells g row col now Hv Hp) as Hlen.
  destruct (makeMove_outcome g row col now Hv)
    as (F1 & _ & _ & _ & F4 & Hout).
  split; [rewrite F1, F4; lia|].
  intros Hs. destruct Hout as [(Hw & _)|[(_ & _ & Hd)|(_ & Hne & _)]];
    [congruence..|done].
Qed.

Lemma fresh_counted size : counted (setBoardSize constructor size).2.
Proof.
  destruct (fresh_playing size) as (_ & Hc & _ & Hn).
  split; [|rewrite Hc; lia].
  rewrite Hc, Z.add_0_r. unfold getEmptyCells.
  rewrite filter_all.
  - rewrite length_allCells. lia.
  - intros [r c] Hin. apply allCells_elem in Hin. simpl.
    apply cellIs_true.
    destruct (grid_rd _ _ r c (fresh_grid size) Hin) as [v Hrd].
    by rewrite Hrd, (fresh_board size r c v Hrd).
Qed.

Lemma reachable_counted g : reachable g -> counted g.
Proof.
  induction 1 as [size|g row col now Hr IH Hv].
  - apply fresh_counted.
  - apply makeMove_counted; [done| |done].
    destruct (reachable_boardState g Hr) as [_ Hp]. lia.
Qed.

(** A counted game in progress has an empty cell. *)
Lemma counted_free g :
  counted g -> gameStatus g = playing -> exists cell, freeCell g cell.
Proof.
  intros [Hcount Hne] Hp. specialize (Hne Hp).
  destruct (getEmptyCells g) as [|cell cells] eqn:He.
  - simpl in Hcount. lia.
  - exists cell. apply getEmptyCells_elem. rewrite He. left.
Qed.

End Counting.

(** X14. The board fills up one cell a move.  In every state reached by
    legal moves the empty cells [getEmptyCells] lists are as many as the
    cells of the board less the moves made; so the move count never
    exceeds the number of cells, a game in progress has an empty cell, on
    which a move is legal, and a drawn game has none. *)
Theorem board_fills_up (g : GameModel) :
  reachable g ->
  Z.of_nat (length (GameModel.getEmptyCells g))
  = boardSize g * boardSize g - moveCount g
  /\ 0 <= moveCount g <= boardSize g * boardSize g
  /\ (gameStatus g = playing ->
      exists row col, GameModel.isValidMove g row col = true)
  /\ (gameStatus g = draw -> GameModel.getEmptyCells g = []).
Proof.
  intros Hr. destruct (reachable_counted g Hr) as [Hcount Hne].
  destruct (reachable_replayed g Hr) as [(Hlen & _) _].
  split; [lia|]. split; [lia|]. split.
  - intros Hp. destruct (counted_free g (conj Hcount Hne) Hp)
      as [[row col] Hfree].
    exists row, col. by apply freeCell_isValidMove.
  - intros Hd. destruct Hr as [size|g0 row col now Hr Hv].
    { destruct (fresh_playing size) as [H _]. congruence. }
    destruct (makeMove_outcome g0 row col now Hv) as (_ & _ & _ & _ & _ & Hout).
    set (g := (GameModel.makeMove g0 row col now).2) in *.
    destruct Hout as [(Hw & _)|[(_ & Hfull & _)|(_ & _ & Hp & _)]];
      [congruence| |congruence].
    destruct (GameModel.getEmptyCells g); [done|]. simpl in Hcount. lia.
Qed.

Lemma board_fills_up_witness :
  reachable fourGame
  /\ Z.of_nat (length (GameModel.getEmptyCells fourGame))
     = boardSize fourGame * boardSize fourGame - moveCount fourGame
  /\ 0 <= moveCount fourGame <= boardSize fourGame * boardSize fourGame
  /\ (gameStatus fourGame = playing ->
      exists row col, GameModel.isValidMove fourGame row col = true)
  /\ (gameStatus fourGame = draw -> GameModel.getEmptyCells fourGame = []).
Proof.
  assert (Hr : reachable fourGame).
  { apply play_reachable; [apply newGame_reachable|vm_compute; reflexivity]. }
  split; [exact Hr|]. exact (board_fills_up fourGame Hr).
Defined.

(** ** The candidate moves *)

Section CandidateCells.

Import GameModel.

Lemma elem_of_setAdd (k y : Cell) (s : list Cell) :
  y ∈ setAdd k s <-> y ∈ s \/ y = k.
Proof.
  unfold setAdd. destruct (bool_decide (k ∈ s)) eqn:Hk.
  - apply bool_decide_eq_true in Hk. split; [by left|].
    intros [H| ->]; done.
  - by rewrite elem_of_app, list_elem_of_singleton.
Qed.

Lemma setAdd_NoDup (k : Cell) (s : list Cell) : NoDup s -> NoDup (setAdd k s).
Proof.
  intros Hs. unfold setAdd. destruct (bool_decide (k ∈ s)) eqn:Hk; [done|].
  apply bool_decide_eq_false in Hk. apply NoDup_app. split; [done|].
  split; [|apply NoDup_singleton].
  intros x Hx Hx'. apply list_elem_of_singleton in Hx'. by subst.
Qed.

Lemma addEmpty_elem g rows cols s y :
  y ∈ addEmpty g rows cols s <->
  y ∈ s \/ exists r c, r ∈ rows /\ c ∈ cols
                       /\ rd (board g) r c = Some 0 /\ y = (r, c).
Proof.
  unfold addEmpty.
  rewrite (elem_of_foldl_grow _
    (fun r y => exists c, c ∈ cols /\ rd (board g) r c = Some 0 /\ y = (r, c))).
  - split; (intros [H|H]; [by left|right]).
    + destruct H as (r & Hr & c & Hc & H). by exists r, c.
    + destruct H as (r & c & Hr & Hc & H). exists r. split; [done|]. by exists c.
  - intros acc r y'.
    rewrite (elem_of_foldl_grow _
      (fun c y => rd (board g) r c = Some 0 /\ y = (r, c))); [done|].
    intros acc' c y''. destruct (cellIs (board g) r c (Some 0)) eqn:Hc.
    + apply cellIs_true in Hc. rewrite elem_of_setAdd.
      split; (intros [H|H]; [by left|right]); [done|by destruct H].
    + split; [by left|]. intros [H|[H _]]; [done|].
      apply cellIs_true in H. congruence.
Qed.

Lemma addEmpty_NoDup g rows cols s : NoDup s -> NoDup (addEmpty g rows cols s).
Proof.
  intros Hs. unfold addEmpty.
  apply (foldl_invariant (fun s => NoDup s)); [done|]. intros s1 r _ Hs1.
  apply (foldl_invariant (fun s => NoDup s)); [done|]. intros s2 c _ Hs2.
  destruct (cellIs (board g) r c (Some 0)); [by apply setAdd_NoDup|done].
Qed.

Lemma nearCells_elem g radius y :
  y ∈ nearCells g radius <-> freeCell g y /\ nearStone g radius y.
Proof.
  unfold nearCells.
  rewrite (elem_of_foldl_grow _
    (fun rc y =>
       rd (board g) rc.1 rc.2 <> Some 0
       /\ exists r c,
           r ∈ range (Z.max 0 (rc.1 - radius))
                     (Z.min (boardSize g - 1) (rc.1 + radius))
           /\ c ∈ range (Z.max 0 (rc.2 - radius))
                        (Z.min (boardSize g - 1) (rc.2 + radius))
           /\ rd (board g) r c = Some 0 /\ y = (r, c))).
  - split.
    + intros [H|([row col] & Hin & Hocc & r & c & Hr & Hc & Hrd & ->)];
        [by apply elem_of_nil in H|].
      simpl in *. apply allCells_elem in Hin. apply inBounds_iff in Hin.
      apply elem_of_range in Hr, Hc.
      assert (Hb : inBounds (boardSize g) r c = true)
        by (apply inBounds_iff; lia).
      split; [done|]. exists row, col. simpl.
      split; [apply inBounds_iff; lia|]. split; [done|]. split; [done|]. lia.
    + intros [[Hb Hrd] (row & col & Hbo & Hocc & _ & Hr & Hc)].
      destruct y as [r c]. simpl in *. right. exists (row, col).
      split; [by apply allCells_elem|]. simpl. split; [done|].
      apply inBounds_iff in Hb, Hbo.
      exists r, c. rewrite !elem_of_range. repeat split; [lia..|done].
  - intros acc [row col] y'. cbv beta iota zeta. cbn [fst snd].
    destruct (cellIs (board g) row col (Some 0)) eqn:Hc; simpl.
    + apply cellIs_true in Hc. split; [by left|]. intros [H|[H _]]; done.
    + rewrite addEmpty_elem. split; (intros [H|H]; [by left|right]).
      * split; [|done]. intros Hrd. apply cellIs_true in Hrd. congruence.
      * by destruct H.
Qed.

Lemma nearCells_NoDup g radius : NoDup (nearCells g radius).
Proof.
  unfold nearCells.
  apply (foldl_invariant (fun s => NoDup s)); [constructor|].
  intros s [row col] _ Hs.
  destruct (negb _); [by apply addEmpty_NoDup|done].
Qed.

(** [getRelevantEmptyCells] is its first loop, or its second when the
    first found nothing. *)
Lemma getRelevantEmptyCells_cases g radius :
  (nearCells g radius <> []
   /\ getRelevantEmptyCells g radius = nearCells g radius)
  \/ (nearCells g radius = []
      /\ NoDup (getRelevantEmptyCells g radius)
      /\ forall y, y ∈ getRelevantEmptyCells g radius <->
                   freeCell g y /\ nearCenter g y).
Proof.
  unfold getRelevantEmptyCells. cbv zeta. fold (nearCells g radius).
  destruct (nearCells g radius) as [|cell cells] eqn:Hnear.
  - right. split; [done|]. simpl. split.
    + apply (foldl_invariant (fun s => NoDup s)); [constructor|].
      intros s1 r _ Hs1.
      apply (foldl_invariant (fun s => NoDup s)); [done|]. intros s2 c _ Hs2.
      destruct (_ && _); [by apply setAdd_NoDup|done].
    + intros y.
      rewrite (elem_of_foldl_grow _
        (fun r y =>
           exists c, c ∈ range (boardSize g / 2 - 1) (boardSize g / 2 + 1)
                     /\ inBounds (boardSize g) r c = true
                     /\ rd (board g) r c = Some 0 /\ y = (r, c))).
      * split.
        -- intros [H|(r & Hr & c & Hc & Hb & Hrd & ->)];
             [by apply elem_of_nil in H|].
           apply elem_of_range in Hr, Hc. split; [done|].
           split; [done|]. simpl. lia.
        -- intros [[Hb Hrd] (_ & Hr & Hc)]. destruct y as [r c]. simpl in *.
           right. exists r. rewrite elem_of_range. split; [lia|].
           exists c. rewrite elem_of_range. split; [lia|done].
      * intros acc r y'.
        rewrite (elem_of_foldl_grow _
          (fun c y => inBounds (boardSize g) r c = true
                      /\ rd (board g) r c = Some 0 /\ y = (r, c))); [done|].
        intros acc' c y''. unfold isValidPosition.
        destruct (inBounds (boardSize g) r c) eqn:Hb; simpl.
        -- destruct (cellIs (board g) r c (Some 0)) eqn:Hc.
           ++ apply cellIs_true in Hc. rewrite elem_of_setAdd.
              split; (intros [H|H]; [by left|right]); [done|by destruct H as (_ & _ & ?)].
           ++ split; [by left|]. intros [H|(_ & H & _)]; [done|].
              apply cellIs_true in H. congruence.
        -- split; [by left|]. intros [H|(H & _)]; done.
  - left. split; [done|]. done.
Qed.

End CandidateCells.

(** X15. The candidate moves.  [getRelevantEmptyCells(radius)] lists no
    cell twice.  When some empty cell of the board is within [radius] rows
    and columns of a cell that is not empty, it lists exactly those empty
    cells; otherwise it lists exactly the empty cells of the three by
    three square in the middle of the board. *)
Theorem candidate_moves (g : GameModel) (radius : Z) :
  NoDup (GameModel.getRelevantEmptyCells g radius)
  /\ ((exists cell, freeCell g cell /\ nearStone g radius cell) ->
      forall cell, cell ∈ GameModel.getRelevantEmptyCells g radius <->
                   freeCell g cell /\ nearStone g radius cell)
  /\ (~ (exists cell, freeCell g cell /\ nearStone g radius cell) ->
      forall cell, cell ∈ GameModel.getRelevantEmptyCells g radius <->
                   freeCell g cell /\ nearCenter g cell).
Proof.
  destruct (getRelevantEmptyCells_cases g radius)
    as [[Hne ->]|(Hnil & Hnd & Hc)].
  - split; [apply nearCells_NoDup|]. split.
    + intros _ cell. apply nearCells_elem.
    + intros Hno. exfalso. apply Hno.
      destruct (nearCells g radius) as [|cell cells] eqn:Hn; [done|].
      exists cell. apply nearCells_elem. rewrite Hn. left.
  - split; [done|]. split; [|done].
    intros (cell & Hcell). apply nearCells_elem in Hcell.
    rewrite Hnil in Hcell. by apply elem_of_nil in Hcell.
Qed.

Lemma candidate_moves_witness :
  (exists cell, freeCell fourGame cell /\ nearStone fourGame 2 cell)
  /\ (forall cell, cell ∈ GameModel.getRelevantEmptyCells fourGame 2 <->
                   freeCell fourGame cell /\ nearStone fourGame 2 cell).
Proof.
  assert (H : exists cell, freeCell fourGame cell /\ nearStone fourGame 2 cell).
  { exists (6, 7). split; [split; vm_compute; reflexivity|].
    exists 7, 7. repeat split; vm_compute; congruence. }
  split; [exact H|].
  exact (proj1 (proj2 (candidate_moves fourGame 2)) H).
Defined.

Section Adjacency.

Import GameModel.

(** Along a line of cells, where a test changes between the two ends it
    changes between two neighbours. *)
Lemma change_between (f : Z -> bool) (a : Z) (k : nat) :
  f a <> f (a + Z.of_nat k) ->
  exists i, a <= i < a + Z.of_nat k /\ f i <> f (i + 1).
Proof.
  revert a. induction k as [|k IH]; intros a Hne.
  - exfalso. apply Hne. f_equal. lia.
  - destruct (bool_decide (f a = f (a + 1))) eqn:Hstep.
    + apply bool_decide_eq_true in Hstep.
      destruct (IH (a + 1)) as (i & Hi & Hch).
      { rewrite <- Hstep. replace (a + 1 + Z.of_nat k) with (a + Z.of_nat (S k)) by lia.
        done. }
      exists i. split; [lia|done].
    + apply bool_decide_eq_false in Hstep. exists a. split; [lia|done].
Qed.

Lemma change_between_any (f : Z -> bool) (a b : Z) :
  f a <> f b ->
  exists i, Z.min a b <= i < Z.max a b /\ f i <> f (i + 1).
Proof.
  intros Hne. destruct (Z.le_gt_cases a b) as [Hle|Hgt].
  - destruct (change_between f a (Z.to_nat (b - a))) as (i & Hi & Hch).
    { by replace (a + Z.of_nat (Z.to_nat (b - a))) with b by lia. }
    exists i. split; [lia|done].
  - destruct (change_between f b (Z.to_nat (a - b))) as (i & Hi & Hch).
    { replace (b + Z.of_nat (Z.to_nat (a - b))) with a by lia. congruence. }
    exists i. split; [lia|done].
Qed.

(** On a board with a stone and an empty cell, some empty cell touches a
    cell that is not empty. *)
Lemma free_near_stone g r0 c0 r1 c1 :
  inBounds (boardSize g) r0 c0 = true -> rd (board g) r0 c0 <> Some 0 ->
  freeCell g (r1, c1) ->
  exists cell, freeCell g cell /\ nearStone g 1 cell.
Proof.
  intros Hb0 Hocc [Hb1 Hfree]. simpl in *.
  apply inBounds_iff in Hb0 as Hb0', Hb1 as Hb1'.
  assert (Hpair : forall r c r' c',
             inBounds (boardSize g) r c = true ->
             inBounds (boardSize g) r' c' = true ->
             Z.abs (r - r') <= 1 -> Z.abs (c - c') <= 1 ->
             cellIs (board g) r c (Some 0) <> cellIs (board g) r' c' (Some 0) ->
             exists cell, freeCell g cell /\ nearStone g 1 cell).
  { intros r c r' c' Hb Hb' Hr Hc Hne.
    destruct (cellIs (board g) r c (Some 0)) eqn:H1,
             (cellIs (board g) r' c' (Some 0)) eqn:H2; try done.
    - apply cellIs_true in H1. exists (r, c). split; [done|].
      exists r', c'. split; [done|]. split; [|done].
      intros H. apply cellIs_true in H. congruence.
    - apply cellIs_true in H2. exists (r', c'). split; [done|].
      exists r, c. split; [done|]. split; [|simpl; split; [done|lia]].
      intros H. apply cellIs_true in H. congruence. }
  destruct (cellIs (board g) r1 c0 (Some 0)) eqn:Hcorner.
  - destruct (change_between_any (fun r => cellIs (board g) r c0 (Some 0)) r0 r1)
      as (i & Hi & Hch).
    { rewrite Hcorner. intros H. apply cellIs_true in H. done. }
    apply (Hpair i c0 (i + 1) c0); [apply inBounds_iff; lia..|lia|lia|done].
  - destruct (change_between_any (fun c => cellIs (board g) r1 c (Some 0)) c0 c1)
      as (i & Hi & Hch).
    { rewrite Hcorner. apply cellIs_true in Hfree. congruence. }
    apply (Hpair r1 i r1 (i + 1)); [apply inBounds_iff; lia..|lia|lia|done].
Qed.

Lemma nearStone_mono g radius cell :
  1 <= radius -> nearStone g 1 cell -> nearStone g radius cell.
Proof.
  intros Hr (row & col & H1 & H2 & H3 & H4 & H5).
  exists row, col. repeat split; [done..|lia|lia].
Qed.

(** On a square grid with an empty cell, the candidate moves are not
    empty. *)
Lemma candidates_nonempty g radius :
  grid (boardSize g) (board g) -> 1 <= radius ->
  (exists cell, freeCell g cell) ->
  getRelevantEmptyCells g radius <> [].
Proof.
  intros Hgrid Hr [[r1 c1] Hfree].
  destruct (getRelevantEmptyCells_cases g radius)
    as [[Hne ->]|(Hnil & _ & Hc)]; [done|].
  assert (Hn : 0 < boardSize g).
  { destruct Hfree as [Hb _]. apply inBounds_iff in Hb. simpl in Hb. lia. }
  assert (Hmid : inBounds (boardSize g) (boardSize g / 2) (boardSize g / 2)
                 = true).
  { apply inBounds_iff.
    pose proof (Z.div_pos (boardSize g) 2 ltac:(lia) ltac:(lia)).
    pose proof (Z.div_lt_upper_bound (boardSize g) 2 (boardSize g)
                  ltac:(lia) ltac:(lia)). lia. }
  destruct (decide (rd (board g) (boardSize g / 2) (boardSize g / 2) = Some 0))
    as [Hz|Hz].
  - intros Hnone.
    assert (Hin : (boardSize g / 2, boardSize g / 2)
                  ∈ getRelevantEmptyCells g radius).
    { apply Hc. split; [done|]. split; [done|]. simpl. lia. }
    rewrite Hnone in Hin. by apply elem_of_nil in Hin.
  - exfalso.
    destruct (free_near_stone g _ _ r1 c1 Hmid Hz Hfree) as (cell & Hf & Hnear).
    assert (Hin : cell ∈ nearCells g radius).
    { apply nearCells_elem. split; [done|]. by apply nearStone_mono. }
    rewrite Hnil in Hin. by apply elem_of_nil in Hin.
Qed.

End Adjacency.

(** X16. The search always has candidates.  On a consistent game, for a
    radius of one or more, [getRelevantEmptyCells] returns at least one
    cell exactly when the board has an empty cell. *)
Theorem candidates_exist (g : GameModel) (radius : Z) :
  consistent g -> 1 <= radius ->
  GameModel.getRelevantEmptyCells g radius <> [] <->
  exists cell, freeCell g cell.
Proof.
  intros [Hgrid _] Hr. split.
  - intros Hne.
    destruct (GameModel.getRelevantEmptyCells g radius) as [|cell cells] eqn:He;
      [done|].
    exists cell. pose proof (getRelevantEmptyCells_free g radius) as Hfree.
    rewrite He in Hfree. by apply Forall_cons in Hfree as [? _].
  - by apply candidates_nonempty.
Qed.

Lemma candidates_exist_witness :
  consistent whiteFourGame /\ 1 <= 2
  /\ (GameModel.getRelevantEmptyCells whiteFourGame 2 <> [] <->
      exists cell, freeCell whiteFourGame cell).
Proof.
  assert (H : 1 <= 2) by lia.
  split; [exact whiteFourGame_consistent|]. split; [exact H|].
  exact (candidates_exist whiteFourGame 2 whiteFourGame_consistent H).
Defined.

(** ** The search returns a move *)

Section SearchMove.

Import GameModel AIPlayer.

Lemma sameGame_counted g g' : sameGame g g' -> counted g -> counted g'.
Proof.
  intros (S1 & S2 & _ & S4 & _ & _ & _ & S8) [H1 H2].
  unfold counted, getEmptyCells. rewrite S1, S2, S4, S8. done.
Qed.

Lemma sameGame_searchable g g' : sameGame g g' -> searchable g -> searchable g'.
Proof.
  intros Hs [Hc Hn]. split; [by eapply sameGame_consistent|by eapply sameGame_counted].
Qed.

(** The game a trial hands to the next layer is searchable. *)
Lemma trial_searchable g row col now q :
  searchable g -> gameStatus g = playing -> freeCell g (row, col) -> q <> 0 ->
  searchable (makeMove (with_currentPlayer g q) row col now).2.
Proof.
  intros [Hc Hn] Hp [Hb Hrd] Hq.
  assert (Hv : isValidMove (with_currentPlayer g q) row col = true)
    by (by apply isValidMove_iff).
  split.
  - by apply makeMove_consistent.
  - by apply makeMove_counted.
Qed.

Lemma maxLoop_hasMove rec ai now moves g alpha beta maxScore bestMove :
  scores rec -> player ai <> 0 ->
  searchable g -> gameStatus g = playing ->
  Forall (freeCell g) moves ->
  (maxScore = NegInf \/ hasMove maxScore bestMove) ->
  (moves <> [] \/ hasMove maxScore bestMove) ->
  let res := (maxLoop rec ai now moves g alpha beta maxScore bestMove).1 in
  hasMove (score res) (move res).
Proof.
  intros [Hrec Hfin] Hq. revert g alpha maxScore bestMove.
  induction moves as [|[row col] moves IH];
    intros g alpha maxScore bestMove Hs Hp Hfree Hinit Hnext.
  - simpl. by destruct Hnext.
  - apply Forall_cons in Hfree as [Hcell Hfree]. cbn [maxLoop].
    pose proof (trial_restores rec g row col now (player ai) false alpha beta
                  Hrec (proj1 Hs) Hp Hcell) as Hsame.
    cbv zeta in Hsame.
    destruct (Hfin _ false alpha beta
                (trial_searchable g row col now (player ai) Hs Hp Hcell Hq))
      as [s Hscore].
    destruct (rec _ false alpha beta) as [result g3]. cbn [fst snd] in *.
    set (g5 := with_currentPlayer (undoMove g3).2 (currentPlayer g)) in *.
    rewrite Hscore.
    assert (Hbest : hasMove
              (if score_ltb maxScore (Fin s) then Fin s else maxScore)
              (if score_ltb maxScore (Fin s) then Some (row, col) else bestMove)).
    { destruct Hinit as [->|Hm]; [simpl; split; eauto|].
      destruct (score_ltb maxScore (Fin s)); [split; eauto|done]. }
    destruct (score_ltb maxScore (Fin s));
      (destruct (score_leb beta (score_max alpha (Fin s))); [done|];
       apply IH;
       [by eapply sameGame_searchable
       |by destruct Hsame as (_ & _ & _ & -> & _)
       |eapply Forall_impl; [done|]; intros ?; by apply sameGame_freeCell
       |by right|by right]).
Qed.

Lemma minLoop_hasMove rec ai now moves g alpha beta minScore bestMove :
  scores rec -> opponent ai <> 0 ->
  searchable g -> gameStatus g = playing ->
  Forall (freeCell g) moves ->
  (minScore = PosInf \/ hasMove minScore bestMove) ->
  (moves <> [] \/ hasMove minScore bestMove) ->
  let res := (minLoop rec ai now moves g alpha beta minScore bestMove).1 in
  hasMove (score res) (move res).
Proof.
  intros [Hrec Hfin] Hq. revert g beta minScore bestMove.
  induction moves as [|[row col] moves IH];
    intros g beta minScore bestMove Hs Hp Hfree Hinit Hnext.
  - simpl. by destruct Hnext.
  - apply Forall_cons in Hfree as [Hcell Hfree]. cbn [minLoop].
    pose proof (trial_restores rec g row col now (opponent ai) true alpha beta
                  Hrec (proj1 Hs) Hp Hcell) as Hsame.
    cbv zeta in Hsame.
    destruct (Hfin _ true alpha beta
                (trial_searchable g row col now (opponent ai) Hs Hp Hcell Hq))
      as [s Hscore].
    destruct (rec _ true alpha beta) as [result g3]. cbn [fst snd] in *.
    set (g5 := with_currentPlayer (undoMove g3).2 (currentPlayer g)) in *.
    rewrite Hscore.
    assert (Hbest : hasMove
              (if score_ltb (Fin s) minScore then Fin s else minScore)
              (if score_ltb (Fin s) minScore then Some (row, col) else bestMove)).
    { destruct Hinit as [->|Hm]; [simpl; split; eauto|].
      destruct (score_ltb (Fin s) minScore); [split; eauto|done]. }
    destruct (score_ltb (Fin s) minScore);
      (destruct (score_leb (score_min beta (Fin s)) alpha); [done|];
       apply IH;
       [by eapply sameGame_searchable
       |by destruct Hsame as (_ & _ & _ & -> & _)
       |eapply Forall_impl; [done|]; intros ?; by apply sameGame_freeCell
       |by right|by right]).
Qed.

(** [minimax] scores every searchable game with a number, and returns a
    move with it when the game is in progress and the depth is not 0. *)
Lemma minimax_scores ai now depth :
  player ai <> 0 -> opponent ai <> 0 ->
  scores (minimax ai now depth)
  /\ forall g maximizing alpha beta,
       searchable g -> gameStatus g = playing -> depth <> O ->
       hasMove (score (minimax ai now depth g maximizing alpha beta).1)
               (move (minimax ai now depth g maximizing alpha beta).1).
Proof.
  intros Hq Hq'. induction depth as [|depth [IH _]].
  - split; [|done]. split; [apply minimax_restores|].
    intros g maximizing alpha beta _. simpl. eauto.
  - assert (Hmove : forall g maximizing alpha beta,
              searchable g -> gameStatus g = playing ->
              hasMove (score (minimax ai now (S depth) g maximizing alpha beta).1)
                      (move (minimax ai now (S depth) g maximizing alpha beta).1)).
    { intros g maximizing alpha beta Hs Hp. cbn [minimax].
      rewrite bool_decide_eq_true_2 by done. cbn [negb].
      assert (Hne : getRelevantEmptyCells g 2 <> []).
      { apply candidates_nonempty; [apply Hs|lia|].
        by apply counted_free; [apply Hs|]. }
      destruct maximizing.
      - apply maxLoop_hasMove; try done;
          [apply getRelevantEmptyCells_free|by left|by left].
      - apply minLoop_hasMove; try done;
          [apply getRelevantEmptyCells_free|by left|by left]. }
    split; [|intros g maximizing alpha beta Hs Hp _; by apply Hmove].
    split; [apply minimax_restores|].
    intros g maximizing alpha beta Hs.
    destruct (decide (gameStatus g = playing)) as [Hp|Hp].
    + by destruct (Hmove g maximizing alpha beta Hs Hp) as [? _].
    + cbn [minimax]. rewrite bool_decide_eq_false_2 by done. simpl. eauto.
Qed.

End SearchMove.

(** X17. The search returns a move.  On a game reached by legal moves and
    still in progress, for an engine whose two sides are not 0, [minimax]
    at a depth that is not 0 returns a finite score and a move, on either
    layer and for every window; so in [getBestMove] the steps of the
    immediate win, of the block and of the search always give the move,
    and the random move around the centre is never used. *)
Theorem search_returns_move
    (ai : AIPlayer) (g : GameModel) (now : Z) (d : nat) (maximizing : bool)
    (alpha beta : Score) (u1 u2 : Q) :
  reachable g -> gameStatus g = playing ->
  player ai <> 0 -> opponent ai <> 0 ->
  (exists s cell,
     (AIPlayer.minimax ai now (S d) g maximizing alpha beta).1
     = mkResult (Fin s) (Some cell))
  /\ ((AIPlayer.findWinningMove (board g) (boardSize g) (player ai)).1 = None ->
      (AIPlayer.findWinningMove (board g) (boardSize g) (opponent ai)).1 = None ->
      exists bestMove,
        move (AIPlayer.minimax ai now (depth (AIPlayer.currentSettings ai)) g
                               true NegInf PosInf).1 = Some bestMove
        /\ (AIPlayer.getBestMove ai g now u1 u2).1
           = AIPlayer.addRandomness ai bestMove
               (GameModel.getRelevantEmptyCells g 2) u1 u2).
Proof.
  intros Hr Hp Hq Hq'.
  assert (Hs : searchable g)
    by (split; [by apply reachable_consistent|by apply reachable_counted]).
  split.
  - destruct (minimax_scores ai now (S d) Hq Hq') as [_ Hmove].
    destruct (Hmove g maximizing alpha beta Hs Hp ltac:(done))
      as [[s Hscore] [cell Hcell]].
    exists s, cell.
    destruct (AIPlayer.minimax ai now (S d) g maximizing alpha beta).1.
    simpl in *. by subst.
  - intros Hwin Hblock.
    destruct (minimax_scores ai now (depth (AIPlayer.currentSettings ai)) Hq Hq')
      as [_ Hmove].
    destruct (Hmove g true NegInf PosInf Hs Hp) as [_ [bestMove Hbest]].
    { unfold AIPlayer.currentSettings, AIPlayer.settings.
      by destruct (difficulty ai). }
    exists bestMove. split; [done|].
    unfold AIPlayer.getBestMove. rewrite getBoardCopy_board.
    pose proof (findWinningMove_board (board g) (boardSize g) (player ai)) as Hb1.
    destruct (AIPlayer.findWinningMove (board g) (boardSize g) (player ai))
      as [w b1]. simpl in Hwin, Hb1. subst w b1.
    destruct (AIPlayer.findWinningMove (board g) (boardSize g) (opponent ai))
      as [w b2]. simpl in Hblock. subst w.
    pose proof (minimax_restores ai now (depth (AIPlayer.currentSettings ai)) g
                  true NegInf PosInf (proj1 Hs)) as Hsame.
    destruct (AIPlayer.minimax _ _ _ _ _ _ _) as [result g']. simpl in *.
    rewrite Hbest. simpl.
    by rewrite (sameGame_getRelevantEmptyCells g g' 2 Hsame).
Qed.

Lemma search_returns_move_witness :
  reachable fourGame /\ gameStatus fourGame = playing
  /\ (player (AIPlayer.constructor easy) <> 0
      /\ opponent (AIPlayer.constructor easy) <> 0)
  /\ exists s cell,
      (AIPlayer.minimax (AIPlayer.constructor easy) 0 2 fourGame true
                        NegInf PosInf).1
      = mkResult (Fin s) (Some cell).
Proof.
  assert (Hr : reachable fourGame).
  { apply play_reachable; [apply newGame_reachable|vm_compute; reflexivity]. }
  assert (Hp : gameStatus fourGame = playing) by (vm_compute; reflexivity).
  assert (H1 : player (AIPlayer.constructor easy) <> 0) by (simpl; lia).
  assert (H2 : opponent (AIPlayer.constructor easy) <> 0) by (simpl; lia).
  split; [exact Hr|]. split; [exact Hp|]. split; [exact (conj H1 H2)|].
  exact (proj1 (search_returns_move (AIPlayer.constructor easy) fourGame 0 1
                  true NegInf PosInf (1 # 2) (1 # 2) Hr Hp H1 H2)).
Defined.

(** ** Hints *)

Section Hints.

Import GameModel AIPlayer.

Lemma isValidMove_asTurnOf g p row col :
  isValidMove (asTurnOf g p) row col = isValidMove g row col.
Proof. done. Qed.

(** A winning cell of [p], by the test of the engine. *)
Lemma winsFor_iff g p row col :
  gameStatus g = playing ->
  winsFor g p (row, col) <->
  inBounds (boardSize g) row col = true
  /\ rd (board g) row col = Some 0
  /\ AIPlayer.checkWin (wr (board g) row col p) (boardSize g) row col p = true.
Proof.
  intros Hp. unfold winsFor. cbn [fst snd].
  rewrite isValidMove_iff, AIPlayer_checkWin_iff. split.
  - intros [(Hb & Hrd & _) Hw]. split; [done|]. split; [done|].
    destruct (Hw 0) as [Hw0 _].
    apply makeMove_won_iff in Hw0; [done|].
    rewrite isValidMove_asTurnOf. by apply isValidMove_iff.
  - intros (Hb & Hrd & Hw). split; [done|]. intros now.
    assert (Hv : isValidMove (asTurnOf g p) row col = true)
      by (rewrite isValidMove_asTurnOf; by apply isValidMove_iff).
    assert (Hwon : gameStatus (makeMove (asTurnOf g p) row col now).2 = won)
      by (by apply makeMove_won_iff).
    split; [done|]. by rewrite (makeMove_won_winner _ _ _ _ Hv Hwon).
Qed.

(** The scan for a winning cell finds one exactly when there is one, and
    finds such a cell. *)
Lemma findWinningMove_winsFor g p :
  gameStatus g = playing ->
  match (findWinningMove (board g) (boardSize g) p).1 with
  | Some cell => winsFor g p cell
  | None => forall cell, ~ winsFor g p cell
  end.
Proof.
  intros Hp.
  destruct (findWinningMove (board g) (boardSize g) p).1 as [[row col]|] eqn:Hf.
  - apply winsFor_iff; [done|]. by apply findWinningMove_Some.
  - intros [row col] Hw. apply winsFor_iff in Hw as (Hb & Hrd & Hw); [|done].
    by rewrite (findWinningMove_None _ _ _ _ _ Hf Hb Hrd) in Hw.
Qed.

(** [getBestMove] takes a winning cell of its own side when there is one,
    and else a winning cell of the other side when there is one. *)
Lemma getBestMove_immediate ai g now u1 u2 :
  gameStatus g = playing ->
  ((exists cell, winsFor g (player ai) cell) ->
   exists cell, (getBestMove ai g now u1 u2).1 = Some cell
                /\ winsFor g (player ai) cell)
  /\ ((forall cell, ~ winsFor g (player ai) cell) ->
      (exists cell, winsFor g (opponent ai) cell) ->
      exists cell, (getBestMove ai g now u1 u2).1 = Some cell
                   /\ winsFor g (opponent ai) cell).
Proof.
  intros Hp.
  pose proof (findWinningMove_winsFor g (player ai) Hp) as H1.
  pose proof (findWinningMove_winsFor g (opponent ai) Hp) as H2.
  split.
  - intros [cell Hw].
    destruct (findWinningMove (board g) (boardSize g) (player ai)).1
      as [m|] eqn:Hf; [|by destruct (H1 cell)].
    exists m. by rewrite (getBestMove_win ai g now u1 u2 m Hf).
  - intros Hno [cell Hw].
    destruct (findWinningMove (board g) (boardSize g) (player ai)).1
      as [m|] eqn:Hf; [by destruct (Hno m)|].
    destruct (findWinningMove (board g) (boardSize g) (opponent ai)).1
      as [m|] eqn:Hf'; [|by destruct (H2 cell)].
    exists m. by rewrite (getBestMove_block ai g now u1 u2 m Hf Hf').
Qed.

(** [getHint] is [getBestMove] of the engine that plays the side to move,
    and hands the engine back as it was. *)
Lemma getHint_getBestMove ai g now u1 u2 :
  getHint ai g now u1 u2
  = let side := mkAI (difficulty ai) (currentPlayer g)
                     (otherSide (currentPlayer g)) in
    ((getBestMove side g now u1 u2).1, ai, (getBestMove side g now u1 u2).2).
Proof.
  unfold getHint, otherSide. cbv zeta. cbn [difficulty player opponent].
  destruct (getBestMove _ g now u1 u2) as [hint g']. by destruct ai.
Qed.

End Hints.

(** X18. The hint is a move for the player to move.  On a consistent game
    in progress [getHint] hands back the engine with its own two sides and
    the game with the fields it had, and the cell it returns is a legal
    move; when the player to move has a move that wins at once the hint is
    such a move, and when this player has none but the other side would
    have one, the hint is a cell on which the other side would win. *)
Theorem hint_for_side_to_move
    (ai : AIPlayer) (g : GameModel) (now : Z) (u1 u2 : Q) :
  consistent g ->
  gameStatus g = playing ->
  let h := AIPlayer.getHint ai g now u1 u2 in
  h.1.2 = ai
  /\ sameGame g h.2
  /\ (forall row col, h.1.1 = Some (row, col) ->
        GameModel.isValidMove g row col = true)
  /\ ((exists cell, winsFor g (currentPlayer g) cell) ->
      exists cell, h.1.1 = Some cell /\ winsFor g (currentPlayer g) cell)
  /\ ((forall cell, ~ winsFor g (currentPlayer g) cell) ->
      (exists cell, winsFor g (otherSide (currentPlayer g)) cell) ->
      exists cell, h.1.1 = Some cell
                   /\ winsFor g (otherSide (currentPlayer g)) cell).
Proof.
  intros Hc Hp. cbv zeta. rewrite getHint_getBestMove. cbv zeta. cbn [fst snd].
  set (side := mkAI (difficulty ai) (currentPlayer g)
                    (otherSide (currentPlayer g))).
  split; [done|]. split; [by apply getBestMove_restores|].
  split.
  { intros row col H. apply freeCell_isValidMove; [done|].
    by eapply getBestMove_free. }
  apply (getBestMove_immediate side g now u1 u2 Hp).
Qed.

Lemma hint_for_side_to_move_witness :
  consistent whiteFourGame /\ gameStatus whiteFourGame = playing
  /\ (AIPlayer.getHint (AIPlayer.constructor hard) whiteFourGame 0
        (1 # 2) (1 # 2)).1.2 = AIPlayer.constructor hard.
Proof.
  assert (Hp : gameStatus whiteFourGame = playing) by (vm_compute; reflexivity).
  split; [exact whiteFourGame_consistent|]. split; [exact Hp|].
  exact (proj1 (hint_for_side_to_move (AIPlayer.constructor hard) whiteFourGame
                  0 (1 # 2) (1 # 2) whiteFourGame_consistent Hp)).
Defined.

(** ** Explanations *)

Section Explanations.

Import GameModel AIPlayer.

Lemma sameGame_explainMove ai move g g' :
  sameGame g g' -> explainMove ai move g' = explainMove ai move g.
Proof.
  intros (S1 & S2 & _). unfold explainMove, getBoardCopy. by rewrite S1, S2.
Qed.

(** The two tests of [explainMove] on an empty cell of a game in progress. *)
Lemma explainMove_tests ai g row col :
  gameStatus g = playing -> freeCell g (row, col) ->
  (explainMove ai (Some (row, col)) g = "Выигрышный ход!"
   <-> winsFor g (player ai) (row, col))
  /\ (explainMove ai (Some (row, col)) g = "Блокировка угрозы противника"
      <-> ~ winsFor g (player ai) (row, col)
          /\ winsFor g (opponent ai) (row, col)).
Proof.
  intros Hp [Hb Hrd]. simpl in Hb, Hrd.
  rewrite !winsFor_iff by done.
  unfold explainMove. rewrite getBoardCopy_board, wr_wr.
  destruct (AIPlayer.checkWin (wr (board g) row col (player ai)) _ _ _ _).
  { split; [done|]. split; [done|]. intros [H _]. by destruct H. }
  destruct (AIPlayer.checkWin (wr (board g) row col (opponent ai)) _ _ _ _).
  { split; [split; [done|by intros (_ & _ & ?)]|]. split; [|done].
    intros _. split; [by intros (_ & _ & ?)|done]. }
  split.
  - split; [|by intros (_ & _ & ?)].
    destruct (1000 <? _); [done|]. destruct (100 <? _); [done|].
    by destruct (10 <? _).
  - split; [|by intros (_ & _ & _ & ?)].
    destruct (1000 <? _); [done|]. destruct (100 <? _); [done|].
    by destruct (10 <? _).
Qed.

End Explanations.

(** X19. The explanation is given from the side of the engine.  For an
    empty cell of a game in progress, [explainMove] answers with the
    message of the winning move exactly when a stone of the engine's own
    side on the cell wins, and with the message of the block exactly when
    it does not and a stone of the engine's adversary wins.  So a hint
    that wins the game, which [getHint] computes for the player to move
    and which is explained after the engine has its sides back, is
    explained to a player who is the engine's adversary as a block, unless
    a stone of the engine would win on the same cell; it is always so
    when the engine has no winning cell. *)
Theorem explanation_from_engine_side
    (ai : AIPlayer) (g : GameModel) (now : Z) (u1 u2 : Q) (row col : Z) :
  gameStatus g = playing ->
  freeCell g (row, col) ->
  (AIPlayer.explainMove ai (Some (row, col)) g = "Выигрышный ход!"
   <-> winsFor g (player ai) (row, col))
  /\ (AIPlayer.explainMove ai (Some (row, col)) g
      = "Блокировка угрозы противника"
      <-> ~ winsFor g (player ai) (row, col)
          /\ winsFor g (opponent ai) (row, col))
  /\ (consistent g ->
      opponent ai = currentPlayer g ->
      (exists cell, winsFor g (currentPlayer g) cell) ->
      let h := AIPlayer.getHint ai g now u1 u2 in
      exists cell,
        h.1.1 = Some cell
        /\ winsFor g (currentPlayer g) cell
        /\ AIPlayer.explainMove h.1.2 (Some cell) h.2
           = if bool_decide (AIPlayer.explainMove ai (Some cell) g
                             = "Выигрышный ход!")
             then "Выигрышный ход!"
             else "Блокировка угрозы противника")
  /\ (consistent g ->
      opponent ai = currentPlayer g ->
      (exists cell, winsFor g (currentPlayer g) cell) ->
      (forall cell, ~ winsFor g (player ai) cell) ->
      let h := AIPlayer.getHint ai g now u1 u2 in
      exists cell,
        h.1.1 = Some cell
        /\ winsFor g (currentPlayer g) cell
        /\ AIPlayer.explainMove h.1.2 (Some cell) h.2
           = "Блокировка угрозы противника").
Proof.
  intros Hp Hfree.
  destruct (explainMove_tests ai g row col Hp Hfree) as [Hwin Hblock].
  split; [done|]. split; [done|].
  assert (Hhint : consistent g ->
            opponent ai = currentPlayer g ->
            (exists cell, winsFor g (currentPlayer g) cell) ->
            exists r c,
              (AIPlayer.getHint ai g now u1 u2).1.1 = Some (r, c)
              /\ winsFor g (currentPlayer g) (r, c)
              /\ freeCell g (r, c)
              /\ AIPlayer.explainMove (AIPlayer.getHint ai g now u1 u2).1.2
                   (Some (r, c)) (AIPlayer.getHint ai g now u1 u2).2
                 = AIPlayer.explainMove ai (Some (r, c)) g).
  { intros Hc Hside [cell Hw].
    rewrite getHint_getBestMove. cbv zeta. cbn [fst snd].
    set (side := mkAI (difficulty ai) (currentPlayer g)
                      (otherSide (currentPlayer g))).
    destruct (getBestMove_immediate side g now u1 u2 Hp) as [Hbest _].
    destruct Hbest as [[r c] [Hhint Hw']]; [by exists cell|].
    exists r, c. split; [done|]. split; [done|]. split.
    - destruct Hw' as [Hv _]. apply isValidMove_iff in Hv as (? & ? & _).
      by split.
    - exact (sameGame_explainMove ai (Some (r, c)) g _
               (getBestMove_restores side g now u1 u2 Hc)). }
  split.
  - intros Hc Hside Hex. cbv zeta.
    destruct (Hhint Hc Hside Hex) as (r & c & Hh & Hw & Hfree' & Hsame).
    exists (r, c). split; [done|]. split; [done|].
    etrans; [exact Hsame|].
    destruct (bool_decide _) eqn:Hd.
    + by apply bool_decide_eq_true in Hd.
    + apply bool_decide_eq_false in Hd.
      destruct (explainMove_tests ai g r c Hp Hfree') as [Hwin' Hblock'].
      apply Hblock'. rewrite <- Hwin'. split; [done|]. by rewrite Hside.
  - intros Hc Hside Hex Hno. cbv zeta.
    destruct (Hhint Hc Hside Hex) as (r & c & Hh & Hw & Hfree' & Hsame).
    exists (r, c). split; [done|]. split; [done|].
    etrans; [exact Hsame|].
    apply (explainMove_tests ai g r c Hp Hfree'). split; [apply Hno|].
    by rewrite Hside.
Qed.

Lemma explanation_from_engine_side_witness :
  gameStatus whiteFourGame = playing
  /\ freeCell whiteFourGame (7, 4)
  /\ AIPlayer.explainMove (AIPlayer.constructor hard) (Some (7, 4))
       whiteFourGame = "Выигрышный ход!".
Proof.
  assert (Hp : gameStatus whiteFourGame = playing) by (vm_compute; reflexivity).
  assert (Hf : freeCell whiteFourGame (7, 4)) by (vm_compute; split; reflexivity).
  split; [exact Hp|]. split; [exact Hf|].
  apply (proj1 (explanation_from_engine_side (AIPlayer.constructor hard)
                  whiteFourGame 0 (1 # 2) (1 # 2) 7 4 Hp Hf)).
  apply winsFor_iff; [exact Hp|]. vm_compute. repeat split; reflexivity.
Defined.

(** Black, the adversary of the engine, is to move with four stones in a
    column: the hint is the cell that wins, and it is explained as a
    block. *)
Example hint_explained_as_block :
  let g := play newGame (take 8 columnMoves) in
  let h := AIPlayer.getHint (AIPlayer.constructor hard) g 0 (1 # 2) (1 # 2) in
  currentPlayer g = 1
  /\ h.1.1 = Some (6, 7)
  /\ gameStatus (GameModel.makeMove g 6 7 0).2 = won
  /\ AIPlayer.explainMove h.1.2 h.1.1 h.2 = "Блокировка угрозы противника".
Proof. vm_compute. repeat split; reflexivity. Qed.

(** ** The analysis of a position *)

Section Analyses.

Import GameModel AIPlayer.

Lemma with_board_same g : with_board g (board g) = g.
Proof. by destruct g. Qed.

(** [analyzePosition] by its two scans. *)
Lemma analyzePosition_scans ai g now u1 u2 :
  let threat :=
    (findWinningMove (board g) (boardSize g) (currentPlayer g)).1 in
  let counterThreat :=
    (findWinningMove (board g) (boardSize g) (otherSide (currentPlayer g))).1 in
  let a := (analyzePosition ai g now u1 u2).1 in
  an_immediateWin a = bool_decide (threat <> None)
  /\ an_needsDefense a = bool_decide (counterThreat <> None)
  /\ match threat, counterThreat with
     | Some cell, _ =>
         an_recommendation a = Some cell /\ (analyzePosition ai g now u1 u2).2 = g
     | None, Some cell =>
         an_recommendation a = Some cell /\ (analyzePosition ai g now u1 u2).2 = g
     | None, None =>
         an_recommendation a = (getBestMove ai g now u1 u2).1
         /\ (analyzePosition ai g now u1 u2).2 = (getBestMove ai g now u1 u2).2
     end.
Proof.
  cbv zeta. unfold analyzePosition, otherSide.
  pose proof (findWinningMove_board (board g) (boardSize g) (currentPlayer g))
    as Hb1.
  destruct (findWinningMove (board g) (boardSize g) (currentPlayer g))
    as [threat b1]. simpl in Hb1. subst b1. rewrite with_board_same.
  pose proof (findWinningMove_board (board g) (boardSize g)
                (if currentPlayer g =? 1 then 2 else 1)) as Hb2.
  destruct (findWinningMove (board g) (boardSize g)
              (if currentPlayer g =? 1 then 2 else 1))
    as [counterThreat b2]. simpl in Hb2. subst b2. rewrite with_board_same.
  cbn [fst snd].
  destruct threat as [cell|]; [done|].
  destruct counterThreat as [cell|]; [done|].
  by destruct (getBestMove ai g now u1 u2).
Qed.

End Analyses.

(** X20. The analysis of a position.  On a consistent game in progress
    [analyzePosition] hands the game back with the fields it had;
    [immediateWin] is set exactly when the player to move has a move that
    wins at once, and [needsDefense] exactly when the other side would
    have one; the recommendation is a winning move in the first case,
    else a cell on which the other side would win in the second, and it is
    always a legal move. *)
Theorem position_analysis
    (ai : AIPlayer) (g : GameModel) (now : Z) (u1 u2 : Q) :
  consistent g ->
  gameStatus g = playing ->
  let a := (AIPlayer.analyzePosition ai g now u1 u2).1 in
  sameGame g (AIPlayer.analyzePosition ai g now u1 u2).2
  /\ (an_immediateWin a = true <-> exists cell, winsFor g (currentPlayer g) cell)
  /\ (an_needsDefense a = true
      <-> exists cell, winsFor g (otherSide (currentPlayer g)) cell)
  /\ (an_immediateWin a = true ->
      exists cell, an_recommendation a = Some cell
                   /\ winsFor g (currentPlayer g) cell)
  /\ (an_immediateWin a = false -> an_needsDefense a = true ->
      exists cell, an_recommendation a = Some cell
                   /\ winsFor g (otherSide (currentPlayer g)) cell)
  /\ (forall row col, an_recommendation a = Some (row, col) ->
        GameModel.isValidMove g row col = true).
Proof.
  intros Hc Hp. cbv zeta.
  destruct (analyzePosition_scans ai g now u1 u2) as (-> & -> & Hrec).
  pose proof (findWinningMove_winsFor g (currentPlayer g) Hp) as H1.
  pose proof (findWinningMove_winsFor g (otherSide (currentPlayer g)) Hp) as H2.
  destruct (AIPlayer.findWinningMove (board g) (boardSize g) (currentPlayer g)).1
    as [cell1|];
    destruct (AIPlayer.findWinningMove (board g) (boardSize g)
                (otherSide (currentPlayer g))).1 as [cell2|];
    destruct Hrec as [Hrec ->]; rewrite Hrec.
  - split; [apply sameGame_refl|].
    split; [split; [by exists cell1|by intros _; apply bool_decide_eq_true_2]|].
    split; [split; [by exists cell2|by intros _; apply bool_decide_eq_true_2]|].
    split; [by exists cell1|]. split; [by rewrite bool_decide_eq_true_2|].
    intros row col [= ->]. apply H1.
  - split; [apply sameGame_refl|].
    split; [split; [by exists cell1|by intros _; apply bool_decide_eq_true_2]|].
    split.
    { split; [by rewrite bool_decide_eq_false_2 by (by intros H; apply H)|].
      intros [cell Hw]. by destruct (H2 cell). }
    split; [by exists cell1|]. split; [by rewrite bool_decide_eq_true_2|].
    intros row col [= ->]. apply H1.
  - split; [apply sameGame_refl|].
    split.
    { split; [by rewrite bool_decide_eq_false_2 by (by intros H; apply H)|].
      intros [cell Hw]. by destruct (H1 cell). }
    split; [split; [by exists cell2|by intros _; apply bool_decide_eq_true_2]|].
    split; [by rewrite bool_decide_eq_false_2 by (by intros H; apply H)|].
    split; [by exists cell2|].
    intros row col [= ->]. apply H2.
  - split; [by apply getBestMove_restores|].
    split.
    { split; [by rewrite bool_decide_eq_false_2 by (by intros H; apply H)|].
      intros [cell Hw]. by destruct (H1 cell). }
    split.
    { split; [by rewrite bool_decide_eq_false_2 by (by intros H; apply H)|].
      intros [cell Hw]. by destruct (H2 cell). }
    split; [by rewrite bool_decide_eq_false_2 by (by intros H; apply H)|].
    split; [by rewrite (bool_decide_eq_false_2 (None <> None))
               by (by intros H; apply H)|].
    intros row col H. apply freeCell_isValidMove; [done|].
    by eapply getBestMove_free.
Qed.

Lemma position_analysis_witness :
  consistent whiteFourGame /\ gameStatus whiteFourGame = playing
  /\ an_needsDefense
       (AIPlayer.analyzePosition (AIPlayer.constructor hard) whiteFourGame 0
          (1 # 2) (1 # 2)).1 = true.
Proof.
  assert (Hp : gameStatus whiteFourGame = playing) by (vm_compute; reflexivity).
  split; [exact whiteFourGame_consistent|]. split; [exact Hp|].
  apply (position_analysis (AIPlayer.constructor hard) whiteFourGame 0
           (1 # 2) (1 # 2) whiteFourGame_consistent Hp).
  exists (7, 4). apply winsFor_iff; [exact Hp|].
  vm_compute. repeat split; reflexivity.
Defined.

(** ** Evaluation *)

Section Evaluation.

Import GameModel AIPlayer.

Lemma evaluateLine_lineTable b n row col dRow dCol p :
  evaluateLine b n row col dRow dCol p
  = (if 2 <=? countWindow (blockedCell b n row col dRow dCol p) then 0
     else lineTable (countWindow (ownCell b n row col dRow dCol p))
                    (countWindow (blockedCell b n row col dRow dCol p))).
Proof.
  unfold evaluateLine.
  pose proof (evaluateLine_fold b n row col dRow dCol p (seqZ 0 5) 0 0 0)
    as Hfold.
  destruct (foldl _ _ _) as [[count' blocks'] empty'].
  simpl in Hfold. injection Hfold as -> ->.
  fold (countWindow (ownCell b n row col dRow dCol p)).
  fold (countWindow (blockedCell b n row col dRow dCol p)).
  rewrite !Z.add_0_l.
  destruct (2 <=? _); [done|].
  set (count := countWindow (ownCell b n row col dRow dCol p)).
  assert (Hc : 0 <= count <= 5).
  { unfold count, countWindow.
    pose proof (length_filter (fun i => ownCell b n row col dRow dCol p i = true)
                              (seqZ 0 5)) as Hle.
    rewrite length_seqZ in Hle. lia. }
  unfold lineTable.
  destruct (decide (count = 5)) as [->|]; [done|].
  destruct (decide (count = 4)) as [->|]; [done|].
  destruct (decide (count = 3)) as [->|]; [done|].
  destruct (decide (count = 2)) as [->|]; [done|].
  destruct (decide (count = 1)) as [->|]; [done|].
  replace count with 0 by lia. done.
Qed.

Lemma lineTable_range count blocks : 0 <= lineTable count blocks <= 10000.
Proof.
  unfold lineTable.
  repeat match goal with |- context [if ?c then _ else _] => destruct c end;
    lia.
Qed.

Lemma evaluateLine_range b n row col dRow dCol p :
  0 <= evaluateLine b n row col dRow dCol p <= 10000.
Proof.
  rewrite evaluateLine_lineTable. destruct (2 <=? _); [lia|].
  apply lineTable_range.
Qed.

(** A window with no stone of [p] scores 0. *)
Lemma evaluateLine_no_stone b n row col dRow dCol p :
  (forall r c, rd b r c <> Some p) ->
  evaluateLine b n row col dRow dCol p = 0.
Proof.
  intros Hno. rewrite evaluateLine_lineTable. destruct (2 <=? _); [done|].
  assert (Hc : countWindow (ownCell b n row col dRow dCol p) = 0).
  { unfold countWindow.
    assert (Hnil : forall l : list Z,
              filter (fun i => ownCell b n row col dRow dCol p i = true) l = []).
    { induction l as [|i l IH]; [done|]. rewrite filter_cons, IH.
      destruct (decide _) as [E|]; [|done]. exfalso.
      unfold ownCell, windowCell in E. apply andb_true_iff in E as [_ E].
      apply cellIs_true in E. by destruct (Hno _ _ E). }
    by rewrite Hnil. }
  by rewrite Hc.
Qed.

Lemma evaluateAllLines_ge0 b n p : 0 <= evaluateAllLines b n p.
Proof.
  unfold evaluateAllLines.
  assert (H : forall cells acc, 0 <= acc ->
            0 <= foldl (fun totalScore rc =>
                          foldl (fun totalScore d =>
                                   totalScore
                                   + evaluateLine b n rc.1 rc.2 d.1 d.2 p)
                                totalScore directions) acc cells).
  { induction cells as [|rc cells IH]; intros acc Hacc; [done|].
    cbn [foldl]. apply IH. unfold directions. cbn [foldl fst snd].
    pose proof (evaluateLine_range b n rc.1 rc.2 0 1 p).
    pose proof (evaluateLine_range b n rc.1 rc.2 1 0 p).
    pose proof (evaluateLine_range b n rc.1 rc.2 1 1 p).
    pose proof (evaluateLine_range b n rc.1 rc.2 1 (-1) p).
    lia. }
  by apply H.
Qed.

Lemma evaluateAllLines_no_stone b n p :
  (forall r c, rd b r c <> Some p) -> evaluateAllLines b n p = 0.
Proof.
  intros Hno. unfold evaluateAllLines.
  assert (H : forall cells acc,
            foldl (fun totalScore rc =>
                     foldl (fun totalScore d =>
                              totalScore
                              + evaluateLine b n rc.1 rc.2 d.1 d.2 p)
                           totalScore directions) acc cells = acc).
  { induction cells as [|rc cells IH]; intros acc; [done|].
    cbn [foldl]. rewrite IH. unfold directions. cbn [foldl fst snd].
    rewrite !evaluateLine_no_stone by done. lia. }
  apply H.
Qed.

(** The winner of a won game is black or white. *)
Lemma reachable_winner g :
  reachable g -> gameStatus g = won -> winner g = Some 1 \/ winner g = Some 2.
Proof.
  intros Hr. destruct Hr as [size|g0 row col now Hr Hv].
  { destruct (fresh_playing size) as [Hs _]. congruence. }
  intros Hw.
  destruct (makeMove_outcome g0 row col now Hv) as (_ & _ & _ & _ & _ & Hout).
  destruct (reachable_replayed g0 Hr) as [_ Hturn].
  apply isValidMove_iff in Hv as (_ & _ & Hst).
  unfold turnOf in Hturn. rewrite bool_decide_eq_true_2 in Hturn by done.
  destruct Hout as [(_ & Hwin & _)|[(_ & _ & Hd)|(_ & _ & Hp & _)]];
    [|congruence..].
  rewrite Hwin, Hturn.
  destruct (playerAt_cases (length (moveHistory g0))) as [-> | ->]; eauto.
Qed.

End Evaluation.

(** X21. The evaluation is zero-sum.  [evaluateAllLines] is never
    negative, and is 0 for a side that has no stone on the board.  On a
    game reached by legal moves, for an engine whose two sides are black
    and white, [evaluatePosition] of the engine with its sides exchanged
    is the opposite of [evaluatePosition]; it lies between -10000 and
    10000 once the game is over, and it is 0 before the first move. *)
Theorem evaluation_zero_sum (ai : AIPlayer) (g : GameModel) :
  reachable g ->
  twoSides ai ->
  0 <= AIPlayer.evaluateAllLines (board g) (boardSize g) (player ai)
  /\ AIPlayer.evaluatePosition (swapSides ai) g
     = - AIPlayer.evaluatePosition ai g
  /\ (gameStatus g <> playing ->
      -10000 <= AIPlayer.evaluatePosition ai g <= 10000)
  /\ (moveHistory g = [] -> AIPlayer.evaluatePosition ai g = 0).
Proof.
  intros Hr Hsides.
  split; [apply evaluateAllLines_ge0|]. split; [|split].
  - unfold AIPlayer.evaluatePosition, swapSides. cbn [player opponent].
    destruct (bool_decide (gameStatus g = won)) eqn:Hw.
    + apply bool_decide_eq_true in Hw.
      destruct (reachable_winner g Hr Hw) as [-> | ->];
        destruct Hsides as [[-> ->]|[-> ->]];
        by rewrite ?bool_decide_eq_true_2, ?bool_decide_eq_false_2 by done.
    + destruct (bool_decide (gameStatus g = draw)); [done|]. cbv zeta. lia.
  - intros Hs. unfold AIPlayer.evaluatePosition.
    destruct (bool_decide (gameStatus g = won)) eqn:Hw.
    + destruct (bool_decide (winner g = Some (player ai))); lia.
    + apply bool_decide_eq_false in Hw.
      rewrite bool_decide_eq_true_2 by (by destruct (gameStatus g)). lia.
  - intros Hh.
    destruct (reachable_replayed g Hr) as [(_ & _ & Hmoves & Hcells) Hturn].
    assert (Hempty : forall p, p <> 0 -> forall r c, rd (board g) r c <> Some p).
    { intros p Hp r c Hrd.
      assert (Hb : inBounds (boardSize g) r c = true).
      { apply rd_Some in Hrd as (Hr0 & Hc0 & line & Hl & Hv).
        destruct (reachable_consistent g Hr) as [[Hlen Hall] _].
        rewrite Forall_lookup in Hall. specialize (Hall _ _ Hl).
        apply lookup_lt_Some in Hl, Hv. apply inBounds_iff. lia. }
      destruct (Hcells r c Hb) as [_ Hback].
      rewrite Hback in Hrd; [congruence|].
      unfold positions. rewrite Hh. apply not_elem_of_nil. }
    unfold AIPlayer.evaluatePosition.
    assert (Hs : gameStatus g = playing).
    { destruct Hr as [size|g0 row col now Hr Hv].
      - by destruct (fresh_playing size) as [? _].
      - destruct (makeMove_outcome g0 row col now Hv) as (_ & _ & _ & F3 & _).
        rewrite F3 in Hh. by destruct (moveHistory g0). }
    rewrite Hs, !bool_decide_eq_false_2 by done. cbv zeta.
    rewrite !evaluateAllLines_no_stone; [lia|apply Hempty..];
      destruct Hsides as [[H1 H2]|[H1 H2]]; lia.
Qed.

Lemma evaluation_zero_sum_witness :
  reachable fourGame /\ twoSides (AIPlayer.constructor easy)
  /\ AIPlayer.evaluatePosition (swapSides (AIPlayer.constructor easy)) fourGame
     = - AIPlayer.evaluatePosition (AIPlayer.constructor easy) fourGame.
Proof.
  assert (Hr : reachable fourGame).
  { apply play_reachable; [apply newGame_reachable|vm_compute; reflexivity]. }
  assert (Hs : twoSides (AIPlayer.constructor easy)).
  { right. split; reflexivity. }
  split; [exact Hr|]. split; [exact Hs|].
  exact (proj1 (proj2 (evaluation_zero_sum (AIPlayer.constructor easy) fourGame
                         Hr Hs))).
Defined.

(** ** The stone drawn *)

Section Drawn.

Import GameModel.

(** A move that ends the game leaves the mover as the player to move. *)
Lemma makeMove_over_currentPlayer g row col now :
  reachable g -> isValidMove g row col = true ->
  gameStatus (makeMove g row col now).2 <> playing ->
  currentPlayer (makeMove g row col now).2 = currentPlayer g.
Proof.
  intros Hr Hv Hover.
  destruct (reachable_replayed g Hr) as [_ Hturn].
  destruct (reachable_replayed _ (reach_move g row col now Hr Hv)) as [_ Hturn'].
  destruct (makeMove_outcome g row col now Hv) as (_ & _ & _ & F3 & _).
  apply isValidMove_iff in Hv as (_ & _ & Hst).
  rewrite Hturn, Hturn'. unfold turnOf.
  rewrite bool_decide_eq_false_2, (bool_decide_eq_true_2 _ Hst) by done.
  rewrite F3, length_app. simpl. f_equal. lia.
Qed.

Lemma reachable_currentPlayer g :
  reachable g -> currentPlayer g = 1 \/ currentPlayer g = 2.
Proof.
  intros Hr. destruct (reachable_replayed g Hr) as [_ ->]. unfold turnOf.
  destruct (bool_decide _); apply playerAt_cases.
Qed.

End Drawn.

(** X22. The stone drawn.  For a legal move on a game reached by legal
    moves, the controller's [makeMove] asks the view for a stone on the
    cell played, black or white; its colour is the colour of the stone
    the game has put on the board exactly when the game goes on after the
    move, and the other colour when the move wins or draws the game.  A
    move that is not legal draws nothing and leaves the game. *)
Theorem drawn_stone (g : GameModel) (row col now : Z) :
  reachable g ->
  let r := GameController.makeMove g row col now in
  (GameModel.isValidMove g row col = true ->
   exists colour,
     r = (true, Some (row, col, colour), (GameModel.makeMove g row col now).2)
     /\ (colour = 1 \/ colour = 2)
     /\ (rd (board r.2) row col = Some colour <-> gameStatus r.2 = playing)
     /\ (gameStatus r.2 <> playing ->
         rd (board r.2) row col = Some (otherSide colour)))
  /\ (GameModel.isValidMove g row col = false -> r = (false, None, g)).
Proof.
  intros Hr. cbv zeta. unfold GameController.makeMove. split.
  - intros Hv.
    pose proof (makeMove_over_currentPlayer g row col now Hr Hv) as Hover.
    destruct (makeMove_outcome g row col now Hv)
      as (_ & _ & Hcell & _ & _ & Hout).
    pose proof (makeMove_legal g row col now Hv) as Hok.
    apply (f_equal fst) in Hok. cbn [fst] in Hok.
    destruct (GameModel.makeMove g row col now) as [ok g']. cbn [fst snd] in *.
    subst ok. cbn [negb].
    exists (if currentPlayer g' =? 1 then 2 else 1). cbn [snd].
    split; [done|]. split; [destruct (currentPlayer g' =? 1); lia|].
    rewrite Hcell. unfold otherSide.
    destruct (reachable_currentPlayer g Hr) as [Hp|Hp].
    + destruct Hout as [(Hs & _)|[(_ & _ & Hs)|(_ & _ & Hs & Hcur)]].
      * rewrite Hover, Hp, Hs by congruence. simpl. split; [split; done|done].
      * rewrite Hover, Hp, Hs by congruence. simpl. split; [split; done|done].
      * rewrite Hcur, Hp, Hs. simpl. split; [done|]. by intros H.
    + destruct Hout as [(Hs & _)|[(_ & _ & Hs)|(_ & _ & Hs & Hcur)]].
      * rewrite Hover, Hp, Hs by congruence. simpl. split; [split; done|done].
      * rewrite Hover, Hp, Hs by congruence. simpl. split; [split; done|done].
      * rewrite Hcur, Hp, Hs. simpl. split; [done|]. by intros H.
  - intros Hv. by rewrite (makeMove_illegal g row col now Hv).
Qed.

Lemma drawn_stone_witness :
  reachable fourGame
  /\ (GameModel.isValidMove fourGame 0 0 = true ->
      exists colour,
        GameController.makeMove fourGame 0 0 0
        = (true, Some (0, 0, colour), (GameModel.makeMove fourGame 0 0 0).2)
        /\ (colour = 1 \/ colour = 2)
        /\ (rd (board (GameController.makeMove fourGame 0 0 0).2) 0 0
            = Some colour
            <-> gameStatus (GameController.makeMove fourGame 0 0 0).2 = playing)
        /\ (gameStatus (GameController.makeMove fourGame 0 0 0).2 <> playing ->
            rd (board (GameController.makeMove fourGame 0 0 0).2) 0 0
            = Some (otherSide colour))).
Proof.
  assert (Hr : reachable fourGame).
  { apply play_reachable; [apply newGame_reachable|vm_compute; reflexivity]. }
  split; [exact Hr|].
  exact (proj1 (drawn_stone fourGame 0 0 0 Hr)).
Defined.

(** ** Statistics *)

Section Statistics.

Import ConfigManager GameController.

Lemma handleGameEnd_fields stats g now :
  let stats' := handleGameEnd stats g now in
  totalGames stats' = totalGames stats + 1
  /\ playTime stats' = playTime stats + GameModel.getGameTime g now
  /\ player1Wins stats'
     = player1Wins stats
       + (if bool_decide (gameStatus g = won /\ winner g = Some 1)
          then 1 else 0)
  /\ player2Wins stats'
     = player2Wins stats
       + (if bool_decide (gameStatus g = won /\ winner g <> Some 1)
          then 1 else 0)
  /\ draws stats'
     = draws stats + (if bool_decide (gameStatus g <> won) then 1 else 0).
Proof.
  cbv zeta. unfold handleGameEnd, gameResult, updateStatistics.
  destruct (decide (gameStatus g = won)) as [Hw|Hw].
  - rewrite (bool_decide_eq_true_2 _ Hw).
    rewrite (bool_decide_eq_false_2 (gameStatus g <> won)) by (by intros H).
    destruct (decide (winner g = Some 1)) as [H1|H1].
    + rewrite (bool_decide_eq_true_2 _ H1). simpl.
      rewrite bool_decide_eq_true_2, bool_decide_eq_false_2 by tauto.
      repeat split; lia.
    + rewrite (bool_decide_eq_false_2 _ H1). simpl.
      rewrite bool_decide_eq_false_2, bool_decide_eq_true_2 by tauto.
      repeat split; lia.
  - rewrite (bool_decide_eq_false_2 _ Hw). simpl.
    rewrite (bool_decide_eq_true_2 (gameStatus g <> won)) by done.
    rewrite !bool_decide_eq_false_2 by tauto.
    repeat split; lia.
Qed.

Lemma recorded_snoc stats games gn :
  recorded stats (games ++ [gn])
  = handleGameEnd (recorded stats games) gn.1 gn.2.
Proof. unfold recorded. by rewrite foldl_app. Qed.

Lemma timePlayed_snoc games gn :
  timePlayed (games ++ [gn])
  = timePlayed games + GameModel.getGameTime gn.1 gn.2.
Proof.
  unfold timePlayed. induction games as [|x games IH]; simpl; [lia|].
  rewrite IH. lia.
Qed.

Lemma recorded_counts stats games :
  Forall (fun gn => finished gn.1) games ->
  let stats' := recorded stats games in
  totalGames stats' = totalGames stats + Z.of_nat (length games)
  /\ playTime stats' = playTime stats + timePlayed games
  /\ player1Wins stats'
     = player1Wins stats + Z.of_nat (length (wonBy 1 games))
  /\ player2Wins stats'
     = player2Wins stats + Z.of_nat (length (wonBy 2 games))
  /\ draws stats' = draws stats + Z.of_nat (length (drawn games)).
Proof.
  cbv zeta. induction games as [|gn games IH] using rev_ind; intros Hall.
  - unfold recorded, timePlayed, wonBy, drawn. simpl. repeat split; lia.
  - apply Forall_app in Hall as [Hall Hgn].
    apply Forall_inv in Hgn. destruct Hgn as [Hr Hover].
    destruct (IH Hall) as (I1 & I2 & I3 & I4 & I5).
    rewrite recorded_snoc, timePlayed_snoc.
    destruct (handleGameEnd_fields (recorded stats games) gn.1 gn.2)
      as (F1 & F2 & F3 & F4 & F5).
    rewrite F1, F2, F3, F4, F5, I1, I2, I3, I4, I5, length_app.
    unfold wonBy, drawn. rewrite !filter_app, !length_app, !filter_cons.
    rewrite !filter_nil.
    destruct (decide (gameStatus gn.1 = won)) as [Hw|Hw].
    + destruct (reachable_winner gn.1 Hr Hw) as [H1|H2].
      * rewrite (bool_decide_eq_true_2 (_ /\ winner gn.1 = Some 1)) by done.
        rewrite !bool_decide_eq_false_2 by tauto.
        rewrite (decide_True (P := _ /\ winner gn.1 = Some 1)) by done.
        rewrite (decide_False (P := _ /\ winner gn.1 = Some 2)) by
          (intros [_ ?]; congruence).
        rewrite decide_False by congruence.
        simpl. repeat split; lia.
      * rewrite (bool_decide_eq_false_2 (_ /\ winner gn.1 = Some 1)) by
          (intros [_ ?]; congruence).
        rewrite (bool_decide_eq_true_2 (_ /\ winner gn.1 <> Some 1)) by
          (split; [done|congruence]).
        rewrite bool_decide_eq_false_2 by tauto.
        rewrite (decide_False (P := _ /\ winner gn.1 = Some 1)) by
          (intros [_ ?]; congruence).
        rewrite (decide_True (P := _ /\ winner gn.1 = Some 2)) by done.
        rewrite decide_False by congruence.
        simpl. repeat split; lia.
    + assert (Hd : gameStatus gn.1 = draw) by (by destruct (gameStatus gn.1)).
      rewrite !(bool_decide_eq_false_2 (gameStatus gn.1 = won /\ _)) by tauto.
      rewrite bool_decide_eq_true_2 by done.
      rewrite !(decide_False (P := gameStatus gn.1 = won /\ _)) by tauto.
      rewrite decide_True by done.
      simpl. repeat split; lia.
Qed.

End Statistics.

(** X23. The statistics add up.  After [resetStatistics()] and the end of
    any number of games, each one over and reached by legal moves, the
    number of games is the number of games ended, the wins of each side
    are the games won by black and by white, the draws are the games
    drawn, the three add up to the number of games, and the time is the
    sum of the game times. *)
Theorem statistics_add_up (stats : Stats) (games : list (GameModel * Z)) :
  Forall (fun gn => finished gn.1) games ->
  let stats' := recorded (ConfigManager.resetStatistics stats) games in
  totalGames stats' = Z.of_nat (length games)
  /\ player1Wins stats' = Z.of_nat (length (wonBy 1 games))
  /\ player2Wins stats' = Z.of_nat (length (wonBy 2 games))
  /\ draws stats' = Z.of_nat (length (drawn games))
  /\ player1Wins stats' + player2Wins stats' + draws stats' = totalGames stats'
  /\ playTime stats' = timePlayed games.
Proof.
  intros Hall. cbv zeta.
  destruct (recorded_counts (ConfigManager.resetStatistics stats) games Hall)
    as (H1 & H2 & H3 & H4 & H5).
  assert (Hsum : (length (wonBy 1 games) + length (wonBy 2 games)
                  + length (drawn games) = length games)%nat).
  { clear H1 H2 H3 H4 H5. unfold wonBy, drawn.
    induction Hall as [|gn games [Hr Hover] Hall IH]; [done|].
    rewrite !filter_cons.
    destruct (decide (gameStatus gn.1 = won)) as [Hw|Hw].
    - destruct (reachable_winner gn.1 Hr Hw) as [Hp|Hp].
      + rewrite (decide_True (P := _ /\ winner gn.1 = Some 1)) by done.
        rewrite (decide_False (P := _ /\ winner gn.1 = Some 2)) by
          (intros [_ ?]; congruence).
        rewrite decide_False by congruence. simpl. lia.
      + rewrite (decide_False (P := _ /\ winner gn.1 = Some 1)) by
          (intros [_ ?]; congruence).
        rewrite (decide_True (P := _ /\ winner gn.1 = Some 2)) by done.
        rewrite decide_False by congruence. simpl. lia.
    - assert (Hd : gameStatus gn.1 = draw) by (by destruct (gameStatus gn.1)).
      rewrite !(decide_False (P := gameStatus gn.1 = won /\ _)) by tauto.
      rewrite decide_True by done. simpl. lia. }
  simpl in H1, H2, H3, H4, H5. lia.
Qed.

Lemma statistics_add_up_witness :
  Forall (fun gn : GameModel * Z => finished gn.1) [(wonGame, 60000)]
  /\ totalGames (recorded (ConfigManager.resetStatistics ConfigManager.defaultStats)
                          [(wonGame, 60000)]) = 1.
Proof.
  assert (H : Forall (fun gn : GameModel * Z => finished gn.1)
                     [(wonGame, 60000)]).
  { apply Forall_singleton. split; [apply wonGame_reachable|].
    vm_compute. discriminate. }
  split; [exact H|].
  exact (proj1 (statistics_add_up ConfigManager.defaultStats
                  [(wonGame, 60000)] H)).
Defined.

(** ** The cuts of the search *)

Section Scores.

Lemma score_eq_iff (a b : Score) :
  a = b <-> score_leb a b = true /\ score_leb b a = true.
Proof.
  unfold score_leb. split.
  - intros ->. destruct b; simpl; lia.
  - destruct a, b; simpl; intros [H1 H2]; try done. f_equal. lia.
Qed.

Lemma bounds_alt alpha beta v V :
  bounds alpha beta v V <->
  (score_leb v alpha = true -> score_leb V v = true)
  /\ (score_leb beta v = true -> score_leb v V = true)
  /\ (score_ltb alpha v = true -> score_ltb v beta = true ->
      score_leb v V = true /\ score_leb V v = true).
Proof. unfold bounds. by rewrite score_eq_iff. Qed.

End Scores.

(** Case analysis on the scores in sight, then linear arithmetic. *)
Ltac score_cases :=
  rewrite ?bounds_alt, ?score_eq_iff in *;
  unfold score_max, score_min, score_leb in *;
  repeat match goal with s : Score |- _ => destruct s end;
  cbn [score_ltb negb] in *;
  repeat match goal with
         | |- context [if ?c then _ else _] =>
             destruct c eqn:?; cbn [score_ltb negb] in *
         | H : context [if ?c then _ else _] |- _ =>
             destruct c eqn:?; cbn [score_ltb negb] in *
         end;
  try done; try lia.

Section Windows.

Implicit Types (alpha beta M P v V : Score).

Lemma score_max_assoc a b c :
  score_max (score_max a b) c = score_max a (score_max b c).
Proof. score_cases. Qed.

Lemma score_min_assoc a b c :
  score_min (score_min a b) c = score_min a (score_min b c).
Proof. score_cases. Qed.

Lemma score_max_window alpha beta M :
  score_ltb alpha beta = true -> score_ltb M beta = true ->
  score_ltb (score_max alpha M) beta = true.
Proof. intros H1 H2. score_cases. Qed.

Lemma score_min_window alpha beta M :
  score_ltb alpha beta = true -> score_ltb alpha M = true ->
  score_ltb alpha (score_min beta M) = true.
Proof. intros H1 H2. score_cases. Qed.

(** One turn of the maximizing loop. *)
Lemma bounds_max_step alpha beta M P v V :
  score_ltb alpha beta = true -> score_ltb M beta = true ->
  bounds alpha beta M P -> bounds (score_max alpha M) beta v V ->
  bounds alpha beta (score_max M v) (score_max P V).
Proof. intros H1 H2 H3 H4. score_cases. Qed.

(** The cut of the maximizing loop. *)
Lemma bounds_max_cut alpha beta M P V :
  score_ltb alpha beta = true ->
  score_leb beta (score_max alpha M) = true ->
  bounds alpha beta M P -> score_leb P V = true ->
  bounds alpha beta M V.
Proof. intros H1 H2 H3 H4. score_cases. Qed.

Lemma score_max_continue alpha beta M :
  score_ltb alpha beta = true ->
  score_leb beta (score_max alpha M) = false ->
  score_ltb M beta = true.
Proof. intros H1 H2. score_cases. Qed.

(** One turn of the minimizing loop. *)
Lemma bounds_min_step alpha beta M P v V :
  score_ltb alpha beta = true -> score_ltb alpha M = true ->
  bounds alpha beta M P -> bounds alpha (score_min beta M) v V ->
  bounds alpha beta (score_min M v) (score_min P V).
Proof. intros H1 H2 H3 H4. score_cases. Qed.

(** The cut of the minimizing loop. *)
Lemma bounds_min_cut alpha beta M P V :
  score_ltb alpha beta = true ->
  score_leb (score_min beta M) alpha = true ->
  bounds alpha beta M P -> score_leb V P = true ->
  bounds alpha beta M V.
Proof. intros H1 H2 H3 H4. score_cases. Qed.

Lemma score_min_continue alpha beta M :
  score_ltb alpha beta = true ->
  score_leb (score_min beta M) alpha = false ->
  score_ltb alpha M = true.
Proof. intros H1 H2. score_cases. Qed.

Lemma foldl_max_ge {A} (f : A -> Score) (l : list A) P :
  score_leb P (foldl (fun best x => score_max best (f x)) P l) = true.
Proof.
  revert P. induction l as [|x l IH]; intros P; simpl.
  - score_cases.
  - specialize (IH (score_max P (f x))).
    set (V := foldl _ _ l) in *. clearbody V.
    set (w := f x) in *. clearbody w. score_cases.
Qed.

Lemma foldl_min_le {A} (f : A -> Score) (l : list A) P :
  score_leb (foldl (fun best x => score_min best (f x)) P l) P = true.
Proof.
  revert P. induction l as [|x l IH]; intros P; simpl.
  - score_cases.
  - specialize (IH (score_min P (f x))).
    set (V := foldl _ _ l) in *. clearbody V.
    set (w := f x) in *. clearbody w. score_cases.
Qed.

Lemma foldl_ext_all {A B} (f f' : B -> A -> B) (l : list A) b :
  (forall b x, f b x = f' b x) -> foldl f b l = foldl f' b l.
Proof.
  intros H. revert b. induction l as [|x l IH]; intros b; [done|].
  simpl. by rewrite H, IH.
Qed.

(** The strict test of the loops keeps the larger, or smaller, score. *)
Lemma attains_max_step (val : Cell -> Score) alpha beta M v V m bestMove :
  score_ltb alpha beta = true -> score_ltb M beta = true ->
  bounds alpha beta M V ->
  bounds (score_max alpha M) beta v (val m) ->
  attains val alpha beta M bestMove ->
  attains val alpha beta (score_max M v)
          (if score_ltb M v then Some m else bestMove).
Proof.
  intros H1 H2 H3 H4 Hat Hlo Hhi.
  destruct (score_ltb M v) eqn:Hlt.
  - exists m. split; [done|].
    destruct H4 as (_ & _ & H4). unfold score_max in Hlo, Hhi |- *.
    rewrite Hlt in Hlo, Hhi |- *. symmetry. apply H4; [|done].
    clear H3 H4 Hat. score_cases.
  - unfold score_max in Hlo, Hhi |- *. rewrite Hlt in Hlo, Hhi |- *.
    by apply Hat.
Qed.

Lemma attains_min_step (val : Cell -> Score) alpha beta M v V m bestMove :
  score_ltb alpha beta = true -> score_ltb alpha M = true ->
  bounds alpha beta M V ->
  bounds alpha (score_min beta M) v (val m) ->
  attains val alpha beta M bestMove ->
  attains val alpha beta (score_min M v)
          (if score_ltb v M then Some m else bestMove).
Proof.
  intros H1 H2 H3 H4 Hat Hlo Hhi.
  destruct (score_ltb v M) eqn:Hlt.
  - exists m. split; [done|].
    destruct H4 as (_ & _ & H4). unfold score_min in Hlo, Hhi |- *.
    rewrite Hlt in Hlo, Hhi |- *. symmetry. apply H4; [done|].
    clear H3 H4 Hat. score_cases.
  - unfold score_min in Hlo, Hhi |- *. rewrite Hlt in Hlo, Hhi |- *.
    by apply Hat.
Qed.

End Windows.

(** ** The search and the exhaustive search *)

Section SameGame.

Import GameModel.

Lemma scanPos_startTime fuel g t player dRow dCol r c line count :
  scanPos fuel (with_startTime g t) player dRow dCol r c line count
  = scanPos fuel g player dRow dCol r c line count.
Proof.
  revert r c line count. induction fuel as [|fuel IH]; intros r c line count;
    [done|].
  cbn [scanPos].
  change (isValidPosition (with_startTime g t) r c) with (isValidPosition g r c).
  change (board (with_startTime g t)) with (board g).
  destruct (_ && _); [apply IH|done].
Qed.

Lemma scanNeg_startTime fuel g t player dRow dCol r c line count :
  scanNeg fuel (with_startTime g t) player dRow dCol r c line count
  = scanNeg fuel g player dRow dCol r c line count.
Proof.
  revert r c line count. induction fuel as [|fuel IH]; intros r c line count;
    [done|].
  cbn [scanNeg].
  change (isValidPosition (with_startTime g t) r c) with (isValidPosition g r c).
  change (board (with_startTime g t)) with (board g).
  destruct (_ && _); [apply IH|done].
Qed.

Lemma checkWin_dirs_startTime g t row col player dirs :
  checkWin_dirs (with_startTime g t) row col player dirs
  = ((checkWin_dirs g row col player dirs).1,
     with_startTime (checkWin_dirs g row col player dirs).2 t).
Proof.
  induction dirs as [|[dRow dCol] dirs IH]; [done|].
  cbn [checkWin_dirs]. cbv zeta.
  change (boardSize (with_startTime g t)) with (boardSize g).
  rewrite scanPos_startTime.
  destruct (scanPos _ g player dRow dCol _ _ _ _) as [line count].
  rewrite scanNeg_startTime.
  destruct (scanNeg _ g player dRow dCol _ _ _ _) as [line' count'].
  destruct (5 <=? count'); [done|apply IH].
Qed.

Lemma checkWin_startTime g t row col :
  checkWin (with_startTime g t) row col
  = ((checkWin g row col).1, with_startTime (checkWin g row col).2 t).
Proof. apply checkWin_dirs_startTime. Qed.

(** [makeMove] reads [startTime] nowhere. *)
Lemma makeMove_startTime_any g t row col now :
  exists t',
    makeMove (with_startTime g t) row col now
    = ((makeMove g row col now).1,
       with_startTime (makeMove g row col now).2 t').
Proof.
  unfold makeMove.
  change (isValidMove (with_startTime g t) row col) with (isValidMove g row col).
  destruct (isValidMove g row col); simpl; [|by exists t].
  destruct (moveCount g + 1 =? 1).
  - exists (Some now).
    match goal with
    | |- context [checkWin ?x row col] =>
        change x with (with_startTime x (Some now))
    end.
    rewrite checkWin_startTime.
    destruct (checkWin _ row col) as [w g1]. cbn [fst snd].
    destruct w; [done|]. simpl. by destruct (_ =? _).
  - exists t.
    set (x := with_moveCount
                (with_board
                   (with_moveHistory g
                      (moveHistory g ++ [mkMove row col (currentPlayer g) now]))
                   (wr (board g) row col (currentPlayer g)))
                (moveCount g + 1)).
    change (checkWin _ row col) with (checkWin (with_startTime x t) row col)
      at 1.
    rewrite checkWin_startTime.
    destruct (checkWin x row col) as [w g1]. cbn [fst snd].
    destruct w; [done|]. simpl. by destruct (_ =? _).
Qed.

Lemma sameGame_with_startTime g g' :
  sameGame g g' -> g' = with_startTime g (startTime g').
Proof.
  destruct g, g'. unfold sameGame, with_startTime. simpl.
  intros (-> & -> & -> & -> & -> & -> & -> & ->). done.
Qed.

Lemma with_startTime_sameGame g t : sameGame g (with_startTime g t).
Proof. by repeat split. Qed.

Lemma makeMove_sameGame g g' row col now :
  sameGame g g' ->
  sameGame (makeMove g row col now).2 (makeMove g' row col now).2.
Proof.
  intros Hs. rewrite (sameGame_with_startTime g g' Hs).
  destruct (makeMove_startTime_any g (startTime g') row col now) as [t' ->].
  apply with_startTime_sameGame.
Qed.

Lemma trial_sameGame g g' p now rc :
  sameGame g g' -> sameGame (trial g p now rc) (trial g' p now rc).
Proof.
  intros Hs. apply makeMove_sameGame.
  destruct Hs as (S1 & S2 & S3 & S4 & S5 & S6 & S7 & S8).
  by repeat split.
Qed.

Lemma trial_consistent g p now rc : consistent g -> consistent (trial g p now rc).
Proof. intros Hc. by apply makeMove_consistent. Qed.

Lemma evaluatePosition_sameGame ai g g' :
  sameGame g g' -> AIPlayer.evaluatePosition ai g' = AIPlayer.evaluatePosition ai g.
Proof.
  intros (S1 & S2 & _ & S4 & S5 & _). unfold AIPlayer.evaluatePosition.
  by rewrite S1, S2, S4, S5.
Qed.

Lemma exhaustive_sameGame ai now depth g g' maximizing :
  sameGame g g' ->
  exhaustive ai now depth g' maximizing = exhaustive ai now depth g maximizing.
Proof.
  revert g g' maximizing.
  induction depth as [|depth IH]; intros g g' maximizing Hs; cbn [exhaustive].
  - by rewrite (evaluatePosition_sameGame ai g g' Hs).
  - rewrite (evaluatePosition_sameGame ai g g' Hs).
    rewrite (sameGame_getRelevantEmptyCells g g' 2 Hs).
    destruct Hs as (S1 & S2 & S3 & S4 & S5 & S6 & S7 & S8). rewrite S4.
    destruct (negb _); [done|].
    assert (Hs : sameGame g g') by (by repeat split).
    destruct maximizing; apply foldl_ext_all; intros best rc; f_equal;
      apply IH; by apply trial_sameGame.
Qed.

End SameGame.

Section Pruning.

Import GameModel AIPlayer.

Variables (ai : AIPlayer) (now : Z).

Lemma bounds_refl alpha beta v : bounds alpha beta v v.
Proof. score_cases. Qed.

Lemma attains_ext (val val' : Cell -> Score) alpha beta v bestMove :
  (forall m, val m = val' m) ->
  attains val alpha beta v bestMove -> attains val' alpha beta v bestMove.
Proof.
  intros Hext Hat Hlo Hhi. destruct (Hat Hlo Hhi) as (m & Hm & Hv).
  exists m. by rewrite <- Hext.
Qed.

Lemma maxLoop_bounds rec val moves :
  sound rec false val ->
  forall g alpha0 alpha beta M P bestMove,
    consistent g -> gameStatus g = playing -> Forall (freeCell g) moves ->
    score_ltb alpha0 beta = true ->
    alpha = score_max alpha0 M ->
    score_ltb M beta = true ->
    bounds alpha0 beta M P ->
    attains (fun m => val (trial g (player ai) now m)) alpha0 beta M bestMove ->
    let res := (maxLoop rec ai now moves g alpha beta M bestMove).1 in
    bounds alpha0 beta (score res)
           (foldl (fun best rc =>
                     score_max best (val (trial g (player ai) now rc)))
                  P moves)
    /\ attains (fun m => val (trial g (player ai) now m)) alpha0 beta
               (score res) (move res).
Proof.
  intros (Hrest & Hval & Hrec).
  induction moves as [|[row col] moves IH];
    intros g alpha0 alpha beta M P bestMove Hc Hp Hfree Hwin Halpha HM Hb Hat;
    [done|].
  apply Forall_cons in Hfree as [Hcell Hfree]. cbn [maxLoop foldl].
  assert (Hw : score_ltb alpha beta = true)
    by (subst alpha; by apply score_max_window).
  pose proof (trial_restores rec g row col now (player ai) false alpha beta
                Hrest Hc Hp Hcell) as Hsame. cbv zeta in Hsame.
  pose proof (Hrec (trial g (player ai) now (row, col)) alpha beta
                (trial_consistent g (player ai) now (row, col) Hc) Hw) as Hv.
  unfold trial in Hv at 1. cbn [fst snd] in Hv.
  destruct (rec _ false alpha beta) as [result g3]. cbn [fst snd] in *.
  set (g5 := with_currentPlayer (undoMove g3).2 (currentPlayer g)) in *.
  set (v := score result) in *. subst alpha.
  pose proof (bounds_max_step alpha0 beta M P v _ Hwin HM Hb Hv) as Hstep.
  pose proof (attains_max_step
                (fun m => val (trial g (player ai) now m)) alpha0 beta M v P
                (row, col) bestMove Hwin HM Hb Hv Hat) as Hat'.
  rewrite score_max_assoc.
  assert (Hgo :
    forall M' bestMove',
      M' = score_max M v ->
      bestMove' = (if score_ltb M v then Some (row, col) else bestMove) ->
      let res :=
        (if score_leb beta (score_max alpha0 (score_max M v))
         then (mkResult M' bestMove', g5)
         else maxLoop rec ai now moves g5 (score_max alpha0 (score_max M v))
                      beta M' bestMove').1 in
      bounds alpha0 beta (score res)
        (foldl (fun best rc =>
                  score_max best (val (trial g (player ai) now rc)))
               (score_max P (val (trial g (player ai) now (row, col)))) moves)
      /\ attains (fun m => val (trial g (player ai) now m)) alpha0 beta
                 (score res) (move res)).
  { intros M' bestMove' -> ->. cbv zeta.
    destruct (score_leb beta (score_max alpha0 (score_max M v))) eqn:Hcut.
    - cbn [fst score move]. split; [|done].
      eapply bounds_max_cut; [done|done|done|]. apply foldl_max_ge.
    - assert (Hext : forall m, val (trial g5 (player ai) now m)
                               = val (trial g (player ai) now m)).
      { intros m. apply Hval. by apply trial_sameGame. }
      destruct (IH g5 alpha0 (score_max alpha0 (score_max M v)) beta
                  (score_max M v)
                  (score_max P (val (trial g (player ai) now (row, col))))
                  (if score_ltb M v then Some (row, col) else bestMove))
        as [IH1 IH2].
      + by eapply sameGame_consistent.
      + by destruct Hsame as (_ & _ & _ & -> & _).
      + eapply Forall_impl; [done|]. intros ?. by apply sameGame_freeCell.
      + done.
      + done.
      + exact (score_max_continue alpha0 beta _ Hwin Hcut).
      + done.
      + eapply attains_ext; [|done]. intros m. by rewrite Hext.
      + split.
        * erewrite foldl_ext_all; [exact IH1|].
          intros best rc. cbv beta. by rewrite Hext.
        * eapply attains_ext; [|exact IH2]. done. }
  destruct (score_ltb M v) eqn:Hlt.
  - apply (Hgo v (Some (row, col))); unfold score_max; by rewrite ?Hlt.
  - apply (Hgo M bestMove); unfold score_max; by rewrite ?Hlt.
Qed.

Lemma minLoop_bounds rec val moves :
  sound rec true val ->
  forall g alpha beta0 beta M P bestMove,
    consistent g -> gameStatus g = playing -> Forall (freeCell g) moves ->
    score_ltb alpha beta0 = true ->
    beta = score_min beta0 M ->
    score_ltb alpha M = true ->
    bounds alpha beta0 M P ->
    attains (fun m => val (trial g (opponent ai) now m)) alpha beta0 M bestMove ->
    let res := (minLoop rec ai now moves g alpha beta M bestMove).1 in
    bounds alpha beta0 (score res)
           (foldl (fun best rc =>
                     score_min best (val (trial g (opponent ai) now rc)))
                  P moves)
    /\ attains (fun m => val (trial g (opponent ai) now m)) alpha beta0
               (score res) (move res).
Proof.
  intros (Hrest & Hval & Hrec).
  induction moves as [|[row col] moves IH];
    intros g alpha beta0 beta M P bestMove Hc Hp Hfree Hwin Hbeta HM Hb Hat;
    [done|].
  apply Forall_cons in Hfree as [Hcell Hfree]. cbn [minLoop foldl].
  assert (Hw : score_ltb alpha beta = true)
    by (subst beta; by apply score_min_window).
  pose proof (trial_restores rec g row col now (opponent ai) true alpha beta
                Hrest Hc Hp Hcell) as Hsame. cbv zeta in Hsame.
  pose proof (Hrec (trial g (opponent ai) now (row, col)) alpha beta
                (trial_consistent g (opponent ai) now (row, col) Hc) Hw) as Hv.
  unfold trial in Hv at 1. cbn [fst snd] in Hv.
  destruct (rec _ true alpha beta) as [result g3]. cbn [fst snd] in *.
  set (g5 := with_currentPlayer (undoMove g3).2 (currentPlayer g)) in *.
  set (v := score result) in *. subst beta.
  pose proof (bounds_min_step alpha beta0 M P v _ Hwin HM Hb Hv) as Hstep.
  pose proof (attains_min_step
                (fun m => val (trial g (opponent ai) now m)) alpha beta0 M v P
                (row, col) bestMove Hwin HM Hb Hv Hat) as Hat'.
  rewrite score_min_assoc.
  assert (Hgo :
    forall M' bestMove',
      M' = score_min M v ->
      bestMove' = (if score_ltb v M then Some (row, col) else bestMove) ->
      let res :=
        (if score_leb (score_min beta0 (score_min M v)) alpha
         then (mkResult M' bestMove', g5)
         else minLoop rec ai now moves g5 alpha
                      (score_min beta0 (score_min M v)) M' bestMove').1 in
      bounds alpha beta0 (score res)
        (foldl (fun best rc =>
                  score_min best (val (trial g (opponent ai) now rc)))
               (score_min P (val (trial g (opponent ai) now (row, col)))) moves)
      /\ attains (fun m => val (trial g (opponent ai) now m)) alpha beta0
                 (score res) (move res)).
  { intros M' bestMove' -> ->. cbv zeta.
    destruct (score_leb (score_min beta0 (score_min M v)) alpha) eqn:Hcut.
    - cbn [fst score move]. split; [|done].
      eapply bounds_min_cut; [done|done|done|]. apply foldl_min_le.
    - assert (Hext : forall m, val (trial g5 (opponent ai) now m)
                               = val (trial g (opponent ai) now m)).
      { intros m. apply Hval. by apply trial_sameGame. }
      destruct (IH g5 alpha beta0 (score_min beta0 (score_min M v))
                  (score_min M v)
                  (score_min P (val (trial g (opponent ai) now (row, col))))
                  (if score_ltb v M then Some (row, col) else bestMove))
        as [IH1 IH2].
      + by eapply sameGame_consistent.
      + by destruct Hsame as (_ & _ & _ & -> & _).
      + eapply Forall_impl; [done|]. intros ?. by apply sameGame_freeCell.
      + done.
      + done.
      + exact (score_min_continue alpha beta0 _ Hwin Hcut).
      + done.
      + eapply attains_ext; [|done]. intros m. by rewrite Hext.
      + split.
        * erewrite foldl_ext_all; [exact IH1|].
          intros best rc. cbv beta. by rewrite Hext.
        * eapply attains_ext; [|exact IH2]. done. }
  destruct (score_ltb v M) eqn:Hlt.
  - apply (Hgo v (Some (row, col))); unfold score_min; by rewrite ?Hlt.
  - apply (Hgo M bestMove); unfold score_min; by rewrite ?Hlt.
Qed.

(** The side [minimax] plays on a layer. *)
Lemma minimax_loops depth g maximizing alpha beta :
  gameStatus g = playing ->
  minimax ai now (S depth) g maximizing alpha beta
  = if maximizing
    then maxLoop (minimax ai now depth) ai now (getRelevantEmptyCells g 2) g
                 alpha beta NegInf None
    else minLoop (minimax ai now depth) ai now (getRelevantEmptyCells g 2) g
                 alpha beta PosInf None.
Proof.
  intros Hp. cbn [minimax]. by rewrite bool_decide_eq_true_2.
Qed.

Lemma minimax_over depth g maximizing alpha beta :
  gameStatus g <> playing ->
  minimax ai now depth g maximizing alpha beta
  = (mkResult (Fin (evaluatePosition ai g)) None, g).
Proof.
  intros Hp. destruct depth; [done|]. cbn [minimax].
  by rewrite bool_decide_eq_false_2.
Qed.

Lemma exhaustive_over depth g maximizing :
  gameStatus g <> playing ->
  exhaustive ai now depth g maximizing = Fin (evaluatePosition ai g).
Proof.
  intros Hp. destruct depth; [done|]. cbn [exhaustive].
  by rewrite bool_decide_eq_false_2.
Qed.

(** The scores of [minimax] bound the values of the exhaustive search, and
    the move kept with a score inside the window has that value. *)
Lemma minimax_sound depth :
  (forall maximizing,
     sound (minimax ai now depth) maximizing
           (fun g => exhaustive ai now depth g maximizing))
  /\ forall (g : GameModel) (maximizing : bool) (alpha beta : Score),
       consistent g -> gameStatus g = playing ->
       score_ltb alpha beta = true ->
       attains
         (fun m =>
            exhaustive ai now depth
              (trial g (if maximizing then player ai else opponent ai) now m)
              (negb maximizing))
         alpha beta
         (score (minimax ai now (S depth) g maximizing alpha beta).1)
         (move (minimax ai now (S depth) g maximizing alpha beta).1).
Proof.
  induction depth as [|depth [IH _]].
  - assert (H0 : forall maximizing,
              sound (minimax ai now 0) maximizing
                    (fun g => exhaustive ai now 0 g maximizing)).
    { intros maximizing. split; [apply minimax_restores|]. split.
      - intros g g' Hs. by apply exhaustive_sameGame.
      - intros g alpha beta _ _. apply bounds_refl. }
    split; [done|].
    intros g maximizing alpha beta Hc Hp Hw. rewrite minimax_loops by done.
    assert (Hlo : score_ltb NegInf beta = true) by (clear H0; score_cases).
    assert (Hhi : score_ltb alpha PosInf = true) by (clear H0; score_cases).
    destruct maximizing; cbn [negb].
    + apply (maxLoop_bounds _ _ _ (H0 false) g alpha alpha beta NegInf NegInf
               None Hc Hp (getRelevantEmptyCells_free g 2) Hw);
        [clear; score_cases|done|apply bounds_refl|].
      intros H. clear -H. score_cases.
    + apply (minLoop_bounds _ _ _ (H0 true) g alpha beta beta PosInf PosInf
               None Hc Hp (getRelevantEmptyCells_free g 2) Hw);
        [clear; score_cases|done|apply bounds_refl|].
      intros _ H. clear -H. score_cases.
  - assert (HS : forall maximizing,
              sound (minimax ai now (S depth)) maximizing
                    (fun g => exhaustive ai now (S depth) g maximizing)).
    { intros maximizing. split; [apply minimax_restores|]. split.
      - intros g g' Hs. by apply exhaustive_sameGame.
      - intros g alpha beta Hc Hw.
        destruct (decide (gameStatus g = playing)) as [Hp|Hp].
        2:{ rewrite minimax_over, exhaustive_over by done. apply bounds_refl. }
        rewrite minimax_loops by done. cbn [exhaustive].
        rewrite bool_decide_eq_true_2 by done. cbn [negb].
        assert (Hlo : score_ltb NegInf beta = true) by (clear IH; score_cases).
        assert (Hhi : score_ltb alpha PosInf = true) by (clear IH; score_cases).
        destruct maximizing.
        + apply (maxLoop_bounds _ _ _ (IH false) g alpha alpha beta NegInf
                   NegInf None Hc Hp (getRelevantEmptyCells_free g 2) Hw);
            [clear; score_cases|done|apply bounds_refl|].
          intros H. clear -H. score_cases.
        + apply (minLoop_bounds _ _ _ (IH true) g alpha beta beta PosInf
                   PosInf None Hc Hp (getRelevantEmptyCells_free g 2) Hw);
            [clear; score_cases|done|apply bounds_refl|].
          intros _ H. clear -H. score_cases. }
    split; [done|].
    intros g maximizing alpha beta Hc Hp Hw. rewrite minimax_loops by done.
    assert (Hlo : score_ltb NegInf beta = true) by (clear IH HS; score_cases).
    assert (Hhi : score_ltb alpha PosInf = true) by (clear IH HS; score_cases).
    destruct maximizing; cbn [negb].
    + apply (maxLoop_bounds _ _ _ (HS false) g alpha alpha beta NegInf NegInf
               None Hc Hp (getRelevantEmptyCells_free g 2) Hw);
        [clear; score_cases|done|apply bounds_refl|].
      intros H. clear -H. score_cases.
    + apply (minLoop_bounds _ _ _ (HS true) g alpha beta beta PosInf PosInf
               None Hc Hp (getRelevantEmptyCells_free g 2) Hw);
        [clear; score_cases|done|apply bounds_refl|].
      intros _ H. clear -H. score_cases.
Qed.

End Pruning.

(** X24. The cuts of the search lose nothing.  On a consistent game and
    for a window with [alpha] below [beta], the score [minimax] returns
    bounds the value of the exhaustive search, the minimax over the same
    candidate moves with no window and no cut: at or below [alpha] it is
    at least that value, at or above [beta] at most that value, and
    strictly inside the window it is that value.  With the window from
    [-Infinity] to [Infinity], as [getBestMove] calls it, the score is the
    value of the exhaustive search; and a move returned with a score
    inside the window is a candidate move of a game in progress whose own
    value, one layer down, is that value. *)
Theorem pruning_is_sound
    (ai : AIPlayer) (g : GameModel) (now : Z) (depth : nat)
    (maximizing : bool) (alpha beta : Score) :
  consistent g ->
  score_ltb alpha beta = true ->
  let r := (AIPlayer.minimax ai now depth g maximizing alpha beta).1 in
  let V := exhaustive ai now depth g maximizing in
  bounds alpha beta (score r) V
  /\ (alpha = NegInf -> beta = PosInf -> score r = V)
  /\ (score_ltb alpha (score r) = true -> score_ltb (score r) beta = true ->
      forall m, move r = Some m ->
        exists depth',
          depth = S depth'
          /\ gameStatus g = playing
          /\ m ∈ GameModel.getRelevantEmptyCells g 2
          /\ exhaustive ai now depth'
               (trial g (if maximizing then player ai else opponent ai) now m)
               (negb maximizing) = V).
Proof.
  intros Hc Hw. cbv zeta.
  destruct (minimax_sound ai now depth) as [Hsound _].
  destruct (Hsound maximizing) as (_ & _ & Hb). specialize (Hb g alpha beta Hc Hw).
  cbv beta in Hb. split; [done|]. split.
  - intros -> ->. clear Hsound Hw.
    set (v := score _) in *. set (V := exhaustive _ _ _ _ _) in *.
    clearbody v V. score_cases.
  - intros Hlo Hhi m Hm.
    destruct (minimax_move ai now depth g maximizing alpha beta m Hc Hm)
      as [Hp Hin].
    destruct depth as [|depth']; [done|]. exists depth'.
    split; [done|]. split; [done|]. split; [done|].
    destruct (minimax_sound ai now depth') as [_ Hat].
    destruct (Hat g maximizing alpha beta Hc Hp Hw Hlo Hhi) as (m' & Hm' & Hv).
    rewrite Hm in Hm'. injection Hm' as <-. rewrite Hv.
    by apply Hb.
Qed.

Lemma pruning_is_sound_witness :
  consistent fourGame /\ score_ltb NegInf PosInf = true
  /\ score (AIPlayer.minimax (AIPlayer.constructor easy) 0 2 fourGame true
                             NegInf PosInf).1
     = exhaustive (AIPlayer.constructor easy) 0 2 fourGame true.
Proof.
  assert (Hc : consistent fourGame).
  { apply reachable_consistent, play_reachable;
      [apply newGame_reachable|vm_compute; reflexivity]. }
  split; [exact Hc|]. split; [reflexivity|].
  exact (proj1 (proj2 (pruning_is_sound (AIPlayer.constructor easy) fourGame 0 2
                         true NegInf PosInf Hc eq_refl))
           eq_refl eq_refl).
Defined.


(** ** The move of the engine and the exhaustive search *)

Section BestMove.

Import GameModel AIPlayer.

(** The third step of [getBestMove]. *)
Lemma getBestMove_search ai g now u1 u2 bestMove :
  consistent g ->
  (findWinningMove (board g) (boardSize g) (player ai)).1 = None ->
  (findWinningMove (board g) (boardSize g) (opponent ai)).1 = None ->
  move (minimax ai now (depth (currentSettings ai)) g true NegInf PosInf).1
  = Some bestMove ->
  (getBestMove ai g now u1 u2).1
  = addRandomness ai bestMove (getRelevantEmptyCells g 2) u1 u2.
Proof.
  intros Hc Hwin Hblock Hbest.
  unfold getBestMove. rewrite getBoardCopy_board.
  pose proof (findWinningMove_board (board g) (boardSize g) (player ai)) as Hb1.
  destruct (findWinningMove (board g) (boardSize g) (player ai)) as [w b1].
  simpl in Hwin, Hb1. subst w b1.
  destruct (findWinningMove (board g) (boardSize g) (opponent ai)) as [w b2].
  simpl in Hblock. subst w.
  pose proof (minimax_restores ai now (depth (currentSettings ai)) g true
                NegInf PosInf Hc) as Hsame.
  destruct (minimax _ _ _ _ _ _ _) as [result g']. simpl in *.
  rewrite Hbest. simpl.
  by rewrite (sameGame_getRelevantEmptyCells g g' 2 Hsame).
Qed.

(** The draw of [addRandomness] keeps the move or takes one of the first
    three alternatives. *)
Lemma addRandomness_cases ai bestMove alternativeMoves u1 u2 :
  (Qle_bool (randomness (currentSettings ai)) u1 = true ->
   addRandomness ai bestMove alternativeMoves u1 u2 = Some bestMove)
  /\ ((0 <= u2)%Q -> (u2 < 1)%Q ->
      addRandomness ai bestMove alternativeMoves u1 u2 = Some bestMove
      \/ exists (i : nat) m,
           (i < 3)%nat /\ alternativeMoves !! i = Some m
           /\ addRandomness ai bestMove alternativeMoves u1 u2 = Some m).
Proof.
  unfold addRandomness. split.
  - by intros ->.
  - intros H0 H1.
    destruct (negb _ && _) eqn:Hr; [|by left]. right.
    apply andb_true_iff in Hr as [_ Hlen].
    pose proof (floorMul_range u2
                  (Z.min 3 (Z.of_nat (length alternativeMoves))) H0 H1
                  ltac:(lia)) as Hk.
    set (k := floorMul u2 _) in *.
    destruct (nthJs_is_Some alternativeMoves k ltac:(lia)) as [m Hm].
    exists (Z.to_nat k), m. split; [lia|]. split; [|done].
    unfold nthJs in Hm. by replace (k <? 0) with false in Hm by lia.
Qed.

End BestMove.

(** X25. The engine plays a best move of the exhaustive search.  On a
    game reached by legal moves and in progress, for an engine whose two
    sides are not 0 and when neither side can win at once, there is a
    candidate move whose value, in the exhaustive search one layer down,
    is the value of the game at the depth of the difficulty; [getBestMove]
    returns this move when the first draw of [Math.random()] is at least
    the randomness of the difficulty, and otherwise this move or one of
    the first three candidate moves. *)
Theorem engine_plays_best_move
    (ai : AIPlayer) (g : GameModel) (now : Z) (u1 u2 : Q) :
  reachable g ->
  gameStatus g = playing ->
  player ai <> 0 -> opponent ai <> 0 ->
  (AIPlayer.findWinningMove (board g) (boardSize g) (player ai)).1 = None ->
  (AIPlayer.findWinningMove (board g) (boardSize g) (opponent ai)).1 = None ->
  exists best depth',
    depth (AIPlayer.currentSettings ai) = S depth'
    /\ best ∈ GameModel.getRelevantEmptyCells g 2
    /\ exhaustive ai now depth' (trial g (player ai) now best) false
       = exhaustive ai now (S depth') g true
    /\ (Qle_bool (randomness (AIPlayer.currentSettings ai)) u1 = true ->
        (AIPlayer.getBestMove ai g now u1 u2).1 = Some best)
    /\ ((0 <= u2)%Q -> (u2 < 1)%Q ->
        (AIPlayer.getBestMove ai g now u1 u2).1 = Some best
        \/ exists (i : nat) m,
             (i < 3)%nat
             /\ GameModel.getRelevantEmptyCells g 2 !! i = Some m
             /\ (AIPlayer.getBestMove ai g now u1 u2).1 = Some m).
Proof.
  intros Hr Hp Hq Hq' Hwin Hblock.
  assert (Hc : consistent g) by (by apply reachable_consistent).
  assert (Hs : searchable g) by (split; [done|by apply reachable_counted]).
  assert (Hd : exists depth', depth (AIPlayer.currentSettings ai) = S depth').
  { unfold AIPlayer.currentSettings, AIPlayer.settings.
    destruct (difficulty ai); simpl; eauto. }
  destruct Hd as [depth' Hd].
  pose proof (getBestMove_search ai g now u1 u2) as Hsearch.
  rewrite Hd in Hsearch.
  destruct (minimax_scores ai now (S depth') Hq Hq') as [_ Hmove].
  destruct (Hmove g true NegInf PosInf Hs Hp ltac:(done))
    as [[s Hscore] [best Hbest]].
  destruct (minimax_sound ai now (S depth')) as [Hsound _].
  destruct (Hsound true) as (_ & _ & Hb).
  specialize (Hb g NegInf PosInf Hc eq_refl). cbv beta in Hb.
  destruct (minimax_sound ai now depth') as [_ Hat].
  specialize (Hat g true NegInf PosInf Hc Hp eq_refl).
  rewrite Hscore in Hb, Hat. destruct (Hat eq_refl eq_refl) as (m & Hm & Hv).
  rewrite Hbest in Hm. injection Hm as <-.
  destruct Hb as (_ & _ & Hb). specialize (Hb eq_refl eq_refl).
  destruct (minimax_move ai now (S depth') g true NegInf PosInf best Hc Hbest)
    as [_ Hin].
  exists best, depth'. split; [done|]. split; [done|].
  split; [by rewrite <- Hb|].
  rewrite (Hsearch best Hc Hwin Hblock Hbest).
  apply addRandomness_cases.
Qed.

Lemma engine_plays_best_move_witness :
  reachable newGame /\ gameStatus newGame = playing
  /\ (player (AIPlayer.constructor easy) <> 0
      /\ opponent (AIPlayer.constructor easy) <> 0)
  /\ ((AIPlayer.findWinningMove (board newGame) (boardSize newGame)
         (player (AIPlayer.constructor easy))).1 = None
      /\ (AIPlayer.findWinningMove (board newGame) (boardSize newGame)
            (opponent (AIPlayer.constructor easy))).1 = None)
  /\ exists best depth',
       depth (AIPlayer.currentSettings (AIPlayer.constructor easy)) = S depth'
       /\ best ∈ GameModel.getRelevantEmptyCells newGame 2
       /\ exhaustive (AIPlayer.constructor easy) 0 depth'
            (trial newGame (player (AIPlayer.constructor easy)) 0 best) false
          = exhaustive (AIPlayer.constructor easy) 0 (S depth') newGame true
       /\ (Qle_bool (randomness (AIPlayer.currentSettings
                                   (AIPlayer.constructor easy))) (1 # 2) = true ->
           (AIPlayer.getBestMove (AIPlayer.constructor easy) newGame 0
              (1 # 2) (1 # 2)).1 = Some best)
       /\ ((0 <= 1 # 2)%Q -> (1 # 2 < 1)%Q ->
           (AIPlayer.getBestMove (AIPlayer.constructor easy) newGame 0
              (1 # 2) (1 # 2)).1 = Some best
           \/ exists (i : nat) m,
                (i < 3)%nat
                /\ GameModel.getRelevantEmptyCells newGame 2 !! i = Some m
                /\ (AIPlayer.getBestMove (AIPlayer.constructor easy) newGame 0
                      (1 # 2) (1 # 2)).1 = Some m).
Proof.
  assert (Hp : gameStatus newGame = playing) by (vm_compute; reflexivity).
  assert (H1 : player (AIPlayer.constructor easy) <> 0) by (simpl; lia).
  assert (H2 : opponent (AIPlayer.constructor easy) <> 0) by (simpl; lia).
  assert (H3 : (AIPlayer.findWinningMove (board newGame) (boardSize newGame)
                  (player (AIPlayer.constructor easy))).1 = None)
    by (vm_compute; reflexivity).
  assert (H4 : (AIPlayer.findWinningMove (board newGame) (boardSize newGame)
                  (opponent (AIPlayer.constructor easy))).1 = None)
    by (vm_compute; reflexivity).
  split; [exact newGame_reachable|]. split; [exact Hp|].
  split; [exact (conj H1 H2)|]. split; [exact (conj H3 H4)|].
  exact (engine_plays_best_move (AIPlayer.constructor easy) newGame 0
           (1 # 2) (1 # 2) newGame_reachable Hp H1 H2 H3 H4).
Defined.
